(** * A backtracking regular-expression matcher: model and verified properties

    This development embeds the [RegexEngine] class of [src/main.py] (the
    matcher of a small grep clone) and proves properties of it.

    Layout of the file:
    - Python values: strings, indexing, slicing, exceptions;
    - the pattern parser ([parse_single_atom], [find_matching_paren],
      [split_alternatives], [parse_expression]) and the character predicates;
    - the capture table [self.captures] behind an interface with two
      implementations: Python's reference semantics (a heap of list objects
      and a binding) and plain values;
    - generators as resumable computations, and the matcher [match_inner]
      with its two local generators;
    - the driver ([strip_anchors], [has_match], [match_pattern]);
    - the theorems. *)

From Stdlib Require Import Ascii String ZArith Lia FunctionalExtensionality.
From stdpp Require Import base list.

Local Open Scope Z_scope.
Local Open Scope nat_scope.

(** ** Python values *)

(** A Python [str] is a sequence of code points.  The model takes the code
    points below 256 (ASCII and the Latin-1 supplement), one [ascii] each. *)
Abbreviation str := (list ascii) (only parsing).

(** [chars "abc"] is the [str] written with a literal. *)
Definition chars (s : string) : str := list_ascii_of_string s.

(** The exceptions the engine can raise.  [RecursionError] is what the
    interpreter raises when the nesting of frames exceeds its limit. *)
Inductive exn : Type :=
| RuntimeError (msg : string)
| IndexError
| ValueError
| TypeError
| RecursionError.

(** Results of the fallible, non-generator functions. *)
Inductive res (A : Type) : Type :=
| Ok (a : A)
| Err (e : exn).
Arguments Ok {A} a.
Arguments Err {A} e.

Definition res_bind {A B} (r : res A) (f : A -> res B) : res B :=
  match r with
  | Ok a => f a
  | Err e => Err e
  end.

(** [l[i]] for a Python integer [i]: a negative index counts from the end,
    and an index out of range raises [IndexError] (here [None]). *)
Definition getitem {A} (l : list A) (i : Z) : option A :=
  let j := if (i <? 0)%Z then (i + Z.of_nat (length l))%Z else i in
  if ((0 <=? j)%Z && (j <? Z.of_nat (length l))%Z)%bool
  then l !! Z.to_nat j
  else None.

(** [s[a:b]] for [0 <= a] and [0 <= b]. *)
Definition slice {A} (l : list A) (a b : nat) : list A := take (b - a) (drop a l).

(** [s.startswith(t)] *)
Fixpoint startswith (s t : str) {struct t} : bool :=
  match t, s with
  | [], _ => true
  | _ :: _, [] => false
  | y :: t', x :: s' => Ascii.eqb x y && startswith s' t'
  end.

(** [s.endswith(c)] for a one-character [c]. *)
Definition endswith_char (s : str) (c : ascii) : bool :=
  match last s with
  | Some x => Ascii.eqb x c
  | None => false
  end.

(** ** Character tests *)

(** [c.isdigit()] on the code points below 256: the ASCII digits and the
    superscripts U+00B2, U+00B3, U+00B9. *)
Definition isdigit (c : ascii) : bool :=
  let n := nat_of_ascii c in
  ((48 <=? n) && (n <=? 57)) || (n =? 178) || (n =? 179) || (n =? 185).

(** [int(c)] for a one-character string: only the decimal digits convert,
    the superscripts raise [ValueError]. *)
Definition int_of_char (c : ascii) : res nat :=
  let n := nat_of_ascii c in
  if (48 <=? n) && (n <=? 57) then Ok (n - 48) else Err ValueError.

(** [c.isalpha()] on the code points below 256: the ASCII letters, U+00AA,
    U+00B5, U+00BA and the Latin-1 letters (U+00D7 and U+00F7 are signs). *)
Definition isalpha (c : ascii) : bool :=
  let n := nat_of_ascii c in
  ((65 <=? n) && (n <=? 90)) || ((97 <=? n) && (n <=? 122))
  || (n =? 170) || (n =? 181) || (n =? 186)
  || ((192 <=? n) && (n <=? 214)) || ((216 <=? n) && (n <=? 246))
  || (248 <=? n).

Definition is_digit (c : ascii) : bool := isdigit c.
Definition is_alpha (c : ascii) : bool := isalpha c.
Definition is_underscore (c : ascii) : bool := Ascii.eqb c "_".

(** Comparison of one-character strings is comparison of code points. *)
Definition char_le (a b : ascii) : bool := nat_of_ascii a <=? nat_of_ascii b.

(** [match_class]: the [while] loop walks the class body; [class_str] below
    is the part of the body from index [i] on, so [i + 2 < len(class_str)]
    reads "at least three characters are left". *)
Fixpoint match_class_from (c : ascii) (class_str : str) : bool :=
  match class_str with
  | [] => false
  | lo :: tl =>
      match tl with
      | dash :: hi :: tl' =>
          if Ascii.eqb dash "-"
          then if char_le lo c && char_le c hi then true else match_class_from c tl'
          else if Ascii.eqb lo c then true else match_class_from c tl
      | _ => if Ascii.eqb lo c then true else match_class_from c tl
      end
  end.

Definition match_class (c : ascii) (class_str : str) (negated : bool) : bool :=
  let matched := match_class_from c class_str in
  if negated then negb matched else matched.

(** ** Pattern parsing *)

Inductive escape_class : Type := Digit | Word.

(** The [(atom_type, atom)] pair of the source, with the group case of
    [parse_expression]. *)
Inductive expr : Type :=
| Backreference (ref_num : nat)
| Escape (kind : escape_class)
| Literal (c : ascii)
| Class (class_str : str)
| Wildcard
| Group (alternatives : list str).

(** The [while p < len(pattern) and pattern[p] != "]"] loop: the index of the
    first ["]"] of [l], counted from [p], or the end. *)
Fixpoint scan_bracket (l : str) (p : nat) : nat :=
  match l with
  | [] => p
  | c :: l' => if Ascii.eqb c "]" then p else scan_bracket l' (S p)
  end.

Definition parse_single_atom (pattern : str) : res (expr * nat * bool) :=
  match pattern with
  | [] => Err IndexError
  | c0 :: tl =>
      if Ascii.eqb c0 "\" then
        match tl with
        | [] => Err (RuntimeError "Incomplete escape sequence in pattern")
        | esc :: _ =>
            if isdigit esc then
              res_bind (int_of_char esc) (fun n => Ok (Backreference n, 2, false))
            else if Ascii.eqb esc "d" then Ok (Escape Digit, 2, false)
            else if Ascii.eqb esc "w" then Ok (Escape Word, 2, false)
            else Ok (Literal esc, 2, false)
        end
      else if Ascii.eqb c0 "[" then
        let negated := match tl with c1 :: _ => Ascii.eqb c1 "^" | [] => false end in
        let start := if negated then 2 else 1 in
        let p := scan_bracket (drop start pattern) start in
        if length pattern <=? p then Err (RuntimeError "Pattern missing closing bracket ']'")
        else Ok (Class (slice pattern start p), p + 1, negated)
      else if Ascii.eqb c0 "." then Ok (Wildcard, 1, false)
      else Ok (Literal c0, 1, false)
  end.

(** The [for] loop of [find_matching_paren]: [l] is [pattern[i:]]. *)
Fixpoint paren_scan (l : str) (i : nat) (open_parens : Z) : res nat :=
  match l with
  | [] => Err (RuntimeError "Pattern missing closing parenthesis ')'")
  | c :: l' =>
      let open_parens :=
        if Ascii.eqb c "(" then (open_parens + 1)%Z
        else if Ascii.eqb c ")" then (open_parens - 1)%Z
        else open_parens in
      if (open_parens =? 0)%Z then Ok i else paren_scan l' (S i) open_parens
  end.

Definition find_matching_paren (pattern : str) (start_index : nat) : res nat :=
  paren_scan (drop (start_index + 1) pattern) (start_index + 1) 1.

(** The loop of [split_alternatives]: [l] is what is left of the group
    content, [current] the characters of the alternative being read (the
    slice from [current_alternative_start] to the present index). *)
Fixpoint split_scan (l : str) (paren_level : Z) (current : str) : list str :=
  match l with
  | [] => [current]
  | c :: l' =>
      if Ascii.eqb c "(" then split_scan l' (paren_level + 1)%Z (current ++ [c])
      else if Ascii.eqb c ")" then split_scan l' (paren_level - 1)%Z (current ++ [c])
      else if Ascii.eqb c "|" && (paren_level =? 0)%Z then current :: split_scan l' paren_level []
      else split_scan l' paren_level (current ++ [c])
  end.

Definition split_alternatives (group_content : str) : list str :=
  split_scan group_content 0 [].

Definition parse_expression (pattern : str) : res (expr * nat * bool) :=
  if startswith pattern ["("%char] then
    res_bind (find_matching_paren pattern 0) (fun end_paren_idx =>
      let group_content := slice pattern 1 end_paren_idx in
      let alternatives := split_alternatives group_content in
      Ok (Group alternatives, end_paren_idx + 1, false))
  else parse_single_atom pattern.

(** [get_match_fn]; [None] is the [return None] the source ends with. *)
Definition get_match_fn (e : expr) (negated : bool) : option (ascii -> bool) :=
  match e with
  | Escape Digit => Some is_digit
  | Escape Word => Some (fun c => is_alpha c || is_digit c || is_underscore c)
  | Literal atom => Some (fun c => Ascii.eqb c atom)
  | Class atom => Some (fun c => match_class c atom negated)
  | Wildcard => Some (fun _ => true)
  | _ => None
  end.

(** [_count_capture_groups] *)
Fixpoint count_capture_groups (pattern : str) : nat :=
  match pattern with
  | [] => 0
  | c :: tl =>
      if Ascii.eqb c "\" then
        match tl with
        | [] => 0
        | _ :: tl' => count_capture_groups tl'
        end
      else if Ascii.eqb c "(" then S (count_capture_groups tl)
      else count_capture_groups tl
  end.

(** ** The capture table

    [self.captures] is an attribute bound to a list object.  The engine uses
    four operations on it: reading the table, [list(self.captures)] (a fresh
    copy, kept in a local variable), [self.captures[i] = v] (an update in
    place of the object currently bound) and [self.captures = x] (a new
    binding: to a kept copy, or to a freshly built list).  They are the
    fields of [Store]; [snap] is what a local variable holding a copy
    contains. *)
Abbreviation caps := (list (option str)) (only parsing).

Class Store (St : Type) : Type := {
  snap : Type;
  table : St -> caps;
  list_copy : St -> snap * St;
  rebind : snap -> St -> St;
  setitem : nat -> option str -> St -> option St;
  rebind_new : caps -> St -> St;
  new_store : caps -> St;
}.

(** *** Reference semantics: objects and a binding

    [objs] holds every list object allocated so far, addressed by position;
    [cur] is the address [self.captures] is bound to.  A copy is a new
    object; a local variable holding it contains its address; an update in
    place changes the object at [cur], whoever else refers to it. *)
Record heap : Type := Heap { objs : list caps; cur : nat }.

Definition heap_table (h : heap) : caps := default [] (objs h !! cur h).

Definition heap_setitem (i : nat) (v : option str) (h : heap) : option heap :=
  if i <? length (heap_table h)
  then Some (Heap (<[cur h := <[i := v]> (heap_table h)]> (objs h)) (cur h))
  else None.

#[export] Instance heap_store : Store heap := {|
  snap := nat;
  table := heap_table;
  list_copy h := (length (objs h), Heap (objs h ++ [heap_table h]) (cur h));
  rebind a h := Heap (objs h) a;
  setitem := heap_setitem;
  rebind_new l h := Heap (objs h ++ [l]) (length (objs h));
  new_store l := Heap [l] 0;
|}.

(** *** Value semantics

    The table is a value, a copy is the value itself, and rebinding
    replaces the value.  Theorem [heap_refines_value] below shows that the
    engine cannot tell the two apart. *)
Definition value_setitem (i : nat) (v : option str) (c : caps) : option caps :=
  if i <? length c then Some (<[i := v]> c) else None.

#[export] Instance value_store : Store caps := {|
  snap := caps;
  table c := c;
  list_copy c := (c, c);
  rebind s _ := s;
  setitem := value_setitem;
  rebind_new l _ := l;
  new_store l := l;
|}.

(** ** Generators

    A generator that has been resumed runs until it yields, returns
    ([StopIteration]) or raises.  [outcome] is what the caller of [next]
    sees, together with the store at that moment; the continuation of a
    [Yield] takes the store in which the generator is resumed, since the
    consumer may have changed [self.captures] in between.  Calling a
    generator function runs nothing: a generator is a function of the store
    of its first [next]. *)
Inductive outcome (St : Type) : Type :=
| Stop (st : St)
| Yield (v : nat * nat) (st : St) (k : St -> outcome St)
| Raise (e : exn) (st : St).
Arguments Stop {St} st.
Arguments Yield {St} v st k.
Arguments Raise {St} e st.

Definition gen (St : Type) : Type := St -> outcome St.

Section Loops.
Context {St : Type}.

(** [for v in g: body] followed by [after], where [o] is the outcome of
    the first [next(g)].  [body v resume] runs the loop body for the item
    [v]; it calls [resume] when it reaches the end of the body, which
    resumes [g] for the next item. *)
Fixpoint for_each (o : outcome St) (body : nat * nat -> gen St -> gen St)
    (after : gen St) : outcome St :=
  match o with
  | Stop st => after st
  | Yield v st k => body v (fun st' => for_each (k st') body after) st
  | Raise e st => Raise e st
  end.

(** [for x in l: body] over a list or a [range]. *)
Fixpoint for_list {A} (l : list A) (body : A -> gen St -> gen St)
    (after : gen St) : gen St :=
  match l with
  | [] => after
  | x :: l' => body x (for_list l' body after)
  end.

(** The loop body [yield n + rest_len, rest_counter]. *)
Definition reyield (n : nat) : nat * nat -> gen St -> gen St :=
  fun '(rest_len, rest_counter) resume st =>
    Yield (n + rest_len, rest_counter) st resume.
End Loops.

(** [range(n, 0, -1)] and [range(n, -1, -1)] *)
Fixpoint range_down_to_1 (n : nat) : list nat :=
  match n with
  | 0 => []
  | S m => n :: range_down_to_1 m
  end.

Definition range_down_to_0 (n : nat) : list nat := range_down_to_1 n ++ [0].

(** The [while reps < len(input_line) and match_fn(input_line[reps])] loops;
    [l] is [input_line[reps:]]. *)
Fixpoint greedy_reps (match_fn : ascii -> bool) (l : str) (reps : nat) : nat :=
  match l with
  | [] => reps
  | c :: l' => if match_fn c then greedy_reps match_fn l' (S reps) else reps
  end.

(** [quantifier], as [match_inner] reads it after the expression. *)
Definition is_quantifier (c : ascii) : bool :=
  Ascii.eqb c "+" || Ascii.eqb c "?" || Ascii.eqb c "*".

Definition quantifier_at (pattern : str) (expr_len : nat) : option ascii :=
  match pattern !! expr_len with
  | Some q => if is_quantifier q then Some q else None
  | None => None
  end.

Definition rest_after (pattern : str) (expr_len : nat) (quantifier : option ascii) : str :=
  drop (expr_len + match quantifier with Some _ => 1 | None => 0 end) pattern.

(** ** The matcher *)

Section Matcher.
Context {St : Type} `{!Store St}.

(** The recursive calls [self.match_inner(...)] of the two local
    generators go through [rec]. *)
Variable rec : str -> str -> nat -> gen St.
Variable alternatives : list str.
Variable this_group_num : nat.

Definition match_group_content_once (inp : str) (grp_counter : nat) : gen St :=
  for_list alternatives
    (fun alt next_alt st =>
       let '(captures_before_alt, st) := list_copy st in
       for_each (rec inp alt grp_counter st)
         (fun '(alt_len, alt_counter) resume st =>
            match setitem (this_group_num - 1) (Some (take alt_len inp)) st with
            | Some st => Yield (alt_len, alt_counter) st resume
            | None => Raise IndexError st
            end)
         (fun st => next_alt (rebind captures_before_alt st)))
    Stop.

(** [depth] bounds the nesting of [match_plus_group] frames. *)
Fixpoint match_plus_group (depth : nat) (inp : str) (grp_counter : nat) : gen St :=
  match depth with
  | 0 => Raise RecursionError
  | S depth' => fun st =>
      for_each (match_group_content_once inp grp_counter st)
        (fun '(one_len, one_counter) resume st =>
           let '(captures_after_one, st) := list_copy st in
           for_each (match_plus_group depth' (drop one_len inp) grp_counter st)
             (reyield one_len)
             (fun st => Yield (one_len, one_counter) (rebind captures_after_one st) resume))
        Stop
  end.
End Matcher.

Section MatchInner.
Context {St : Type} `{!Store St}.

(** [fuel] bounds the nesting of [match_inner] frames (and, for a group
    under [+], of [match_plus_group] frames); running out of it is the
    interpreter's [RecursionError]. *)
Fixpoint match_inner (fuel : nat) (input_line pattern : str) (group_counter : nat)
    : gen St :=
  match fuel with
  | 0 => Raise RecursionError
  | S fuel' =>
    match pattern with
    | [] => fun st => Yield (0, group_counter) st Stop
    | _ :: _ =>
      match parse_expression pattern with
      | Err e => Raise e
      | Ok (expr_content, expr_len, negated) =>
        let quantifier := quantifier_at pattern expr_len in
        let rest_of_pattern := rest_after pattern expr_len quantifier in
        match expr_content with
        | Group alternatives =>
            let this_group_num := group_counter + 1 in
            let match_group_content_once :=
              match_group_content_once (match_inner fuel') alternatives this_group_num in
            match quantifier with
            | None => fun st =>
                for_each (match_group_content_once input_line this_group_num st)
                  (fun '(match_len, next_counter) resume st =>
                     for_each (match_inner fuel' (drop match_len input_line)
                                 rest_of_pattern next_counter st)
                       (reyield match_len) resume)
                  Stop
            | Some q =>
                if Ascii.eqb q "?" then fun st =>
                  for_each (match_group_content_once input_line this_group_num st)
                    (fun '(match_len, next_counter) resume st =>
                       for_each (match_inner fuel' (drop match_len input_line)
                                   rest_of_pattern next_counter st)
                         (reyield match_len) resume)
                    (fun st =>
                       for_each (match_inner fuel' input_line rest_of_pattern
                                   group_counter st)
                         (reyield 0) Stop)
                else if Ascii.eqb q "+" then fun st =>
                  for_each (match_plus_group (match_inner fuel') alternatives
                              this_group_num fuel' input_line this_group_num st)
                    (fun '(reps_len, reps_counter) resume st =>
                       for_each (match_inner fuel' (drop reps_len input_line)
                                   rest_of_pattern reps_counter st)
                         (reyield reps_len) resume)
                    Stop
                else Stop
            end
        | Backreference ref_num => fun st =>
            if length (table st) <? ref_num then Stop st
            else
              match getitem (table st) (Z.of_nat ref_num - 1) with
              | None => Raise IndexError st
              | Some None => Stop st
              | Some (Some captured_text) =>
                  if startswith input_line captured_text then
                    let cap_len := length captured_text in
                    for_each (match_inner fuel' (drop cap_len input_line)
                                rest_of_pattern group_counter st)
                      (reyield cap_len) Stop
                  else Stop st
              end
        | _ =>
          match get_match_fn expr_content negated with
          | None => Raise TypeError
          | Some match_fn =>
            let first_matches :=
              match input_line with
              | c :: _ => match_fn c
              | [] => false
              end in
            match quantifier with
            | None => fun st =>
                if first_matches then
                  for_each (match_inner fuel' (drop 1 input_line) rest_of_pattern
                              group_counter st)
                    (reyield 1) Stop
                else Stop st
            | Some q =>
                if Ascii.eqb q "+" then
                  if negb first_matches then Stop
                  else
                    let reps := greedy_reps match_fn (drop 1 input_line) 1 in
                    for_list (range_down_to_1 reps)
                      (fun curr_reps next_reps st =>
                         for_each (match_inner fuel' (drop curr_reps input_line)
                                     rest_of_pattern group_counter st)
                           (reyield curr_reps) next_reps)
                      Stop
                else if Ascii.eqb q "?" then
                  let zero_times : gen St := fun st =>
                    for_each (match_inner fuel' input_line rest_of_pattern
                                group_counter st)
                      (reyield 0) Stop in
                  fun st =>
                    if first_matches then
                      for_each (match_inner fuel' (drop 1 input_line) rest_of_pattern
                                  group_counter st)
                        (reyield 1) zero_times
                    else zero_times st
                else if Ascii.eqb q "*" then
                  let reps := greedy_reps match_fn input_line 0 in
                  for_list (range_down_to_0 reps)
                    (fun curr_reps next_reps st =>
                       for_each (match_inner fuel' (drop curr_reps input_line)
                                   rest_of_pattern group_counter st)
                         (reyield curr_reps) next_reps)
                    Stop
                else Stop
            end
          end
        end
      end
    end
  end.
End MatchInner.

(** ** The driver *)

(** [strip_anchors]: the slice is [pattern[a:-1]] when the pattern ends
    with [$] and [pattern[a:]] otherwise ([-0 or None] is [None]). *)
Definition strip_anchors (pattern : str) : bool * bool * str :=
  let start_anchored := startswith pattern ["^"%char] in
  let end_anchored := endswith_char pattern "$" in
  let a := if start_anchored then 1 else 0 in
  let inner :=
    if end_anchored then slice pattern a (length pattern - 1) else drop a pattern in
  (start_anchored, end_anchored, inner).

Section Driver.
Context {St : Type} `{!Store St}.

(** [any(wanted(poss[0]) for poss in gen)]: the generator is resumed
    until an item passes the test; [has_match] leaves [self.captures]
    alone in between. *)
Fixpoint any_length (wanted : nat -> bool) (o : outcome St) : res bool * St :=
  match o with
  | Stop st => (Ok false, st)
  | Yield v st k => if wanted (fst v) then (Ok true, st) else any_length wanted (k st)
  | Raise e st => (Err e, st)
  end.

(** [try: next(gen); return True / except StopIteration: ...] *)
Definition next_exists (o : outcome St) : res bool * St :=
  match o with
  | Stop st => (Ok false, st)
  | Yield _ st _ => (Ok true, st)
  | Raise e st => (Err e, st)
  end.

(** One attempt of [has_match] from the offset [i]. *)
Definition attempt (fuel : nat) (end_anchored : bool) (input_line inner : str)
    (i : nat) (st : St) : res bool * St :=
  let gen := match_inner fuel (drop i input_line) inner 0 in
  if end_anchored
  then any_length (fun l => i + l =? length input_line) (gen st)
  else next_exists (gen st).

(** The loop [for i in range(len(input_line) + 1)] of the unanchored case,
    over the offsets that are left. *)
Fixpoint try_offsets (fuel : nat) (end_anchored : bool) (input_line inner : str)
    (offsets : list nat) (st : St) : res bool * St :=
  match offsets with
  | [] => (Ok false, st)
  | i :: offsets' =>
      match attempt fuel end_anchored input_line inner i st with
      | (Ok false, st) => try_offsets fuel end_anchored input_line inner offsets' st
      | r => r
      end
  end.

Definition has_match (fuel : nat) (num_capture_groups : nat)
    (input_line pattern : str) (st : St) : res bool * St :=
  let '(start_anchored, end_anchored, inner) := strip_anchors pattern in
  let st := rebind_new (replicate num_capture_groups None) st in
  if start_anchored
  then attempt fuel end_anchored input_line inner 0 st
  else try_offsets fuel end_anchored input_line inner
         (seq 0 (length input_line + 1)) st.

(** The attributes of a [RegexEngine] object. *)
Record RegexEngine : Type := Engine {
  pattern : str;
  captures : St;
  num_capture_groups : nat;
}.

(** [RegexEngine(pattern)] *)
Definition init (pattern : str) : RegexEngine :=
  Engine pattern (new_store []) (count_capture_groups pattern).

(** [engine.match_pattern(input_line)]: the verdict or the exception, and
    the engine afterwards. *)
Definition match_pattern (fuel : nat) (self : RegexEngine) (input_line : str)
    : res bool * RegexEngine :=
  let '(r, st) :=
    has_match fuel (num_capture_groups self) input_line (pattern self) (captures self) in
  (r, Engine (pattern self) st (num_capture_groups self)).
End Driver.

Arguments RegexEngine St : clear implicits.

(** The verdict of a pattern on a line, on a new engine. *)
Definition verdict (St : Type) `{!Store St} (fuel : nat) (pat line : str) : res bool :=
  fst (match_pattern fuel (init (St := St) pat) line).

(** * Vocabulary of the statements *)

(** ** Exceptions *)

(** The first [next] of the generator raises [e]. *)
Definition raises {St} (e : exn) (o : outcome St) : Prop := exists st, o = Raise e st.

(** ** Reference semantics against value semantics *)

(** [self.captures] is bound to an allocated object. *)
Definition heap_wf (h : heap) : Prop := cur h < length (objs h).

(** [heap_ext h h']: from [h] to [h'] objects were allocated, the object
    bound in [h] may have been updated in place, every other object of [h]
    is unchanged, and the binding is the one of [h] or a newer object.  This
    is what a generator started in [h] does to the heap, and what it may
    assume of its consumer between a [yield] in [h] and its next
    resumption. *)
Definition heap_ext (h h' : heap) : Prop :=
  length (objs h) <= length (objs h')
  /\ (forall a, a < length (objs h) -> a <> cur h -> objs h' !! a = objs h !! a)
  /\ (cur h' = cur h \/ length (objs h) <= cur h')
  /\ heap_wf h'.

(** [sim h0 oh ov]: the outcome [oh] of a generator started in the heap [h0]
    is matched by the outcome [ov] on table values: same items and same
    exceptions in the same order, the table bound in each heap is the
    value on the other side, every heap extends [h0], and this goes on
    after any resumption in a heap that extends the one of the [yield]. *)
Inductive sim (h0 : heap) : outcome heap -> outcome caps -> Prop :=
| sim_stop h :
    heap_ext h0 h -> sim h0 (Stop h) (Stop (heap_table h))
| sim_yield v h kh kv :
    heap_ext h0 h ->
    (forall h', heap_ext h h' -> sim h0 (kh h') (kv (heap_table h'))) ->
    sim h0 (Yield v h kh) (Yield v (heap_table h) kv)
| sim_raise e h :
    heap_ext h0 h -> sim h0 (Raise e h) (Raise e (heap_table h)).

(** ** Earlier calls on an engine *)

(** The engine after the calls [match_pattern(line)] for the lines of
    [earlier], in order, each with its own recursion limit; a call that
    raised leaves the engine as it was at the exception. *)
Fixpoint after_calls `{!Store St} (self : RegexEngine St) (earlier : list (nat * str))
    : RegexEngine St :=
  match earlier with
  | [] => self
  | (fuel, line) :: earlier' => after_calls (match_pattern fuel self line).2 earlier'
  end.

(** ** Malformed expressions *)

(** Opening minus closing parentheses of [l]. *)
Fixpoint paren_balance (l : str) : Z :=
  match l with
  | [] => 0
  | c :: l' =>
      ((if Ascii.eqb c "(" then 1 else if Ascii.eqb c ")" then -1 else 0)
       + paren_balance l')%Z
  end.

(** The group opened just before [body] is never closed: no prefix of
    [body] brings the depth back to zero. *)
Definition unclosed_group (body : str) : Prop :=
  forall k, 0 < k <= length body -> (1 + paren_balance (take k body))%Z <> 0%Z.

(** The expression at the head of a pattern is malformed: the pattern is a
    lone backslash, or opens a class that no ["]"] closes, or opens a group
    that no [")"] closes. *)
Definition head_malformed (p : str) : Prop :=
  p = chars "\"
  \/ (exists body, p = "["%char :: body /\ ~ In "]"%char body)
  \/ (exists body, p = "("%char :: body /\ unclosed_group body).

(** ** Backreferences *)

(** The character of the decimal digit [n]. *)
Definition digit (n : nat) : ascii := ascii_of_nat (48 + n).

(** The items a generator hands out, in their order, to a consumer that
    resumes it after each item without touching [self.captures], up to
    its return or its exception. *)
Fixpoint items_of {St} (o : outcome St) : list (nat * nat) :=
  match o with
  | Stop _ => []
  | Yield v st k => v :: items_of (k st)
  | Raise _ _ => []
  end.

(** ** Where a generator leaves the table (value semantics) *)

(** [ends_at c o]: whenever the generator of outcome [o] returns, the table
    is [c], whatever the tables in which its consumer resumes it. *)
Inductive ends_at (c : caps) : outcome caps -> Prop :=
| ends_at_stop : ends_at c (Stop c)
| ends_at_yield v c1 k : (forall c', ends_at c (k c')) -> ends_at c (Yield v c1 k)
| ends_at_raise e c1 : ends_at c (Raise e c1).

(** [restoring c o]: the same for a consumer that resumes the generator
    with the table of the item it was given. *)
Inductive restoring (c : caps) : outcome caps -> Prop :=
| restoring_stop : restoring c (Stop c)
| restoring_yield v c1 k : restoring c (k c1) -> restoring c (Yield v c1 k)
| restoring_raise e c1 : restoring c (Raise e c1).

(** ** Greedy repetition *)

(** The number of leading characters of [inp] that satisfy [match_fn]. *)
Fixpoint leading (match_fn : ascii -> bool) (inp : str) : nat :=
  match inp with
  | c :: inp' => if match_fn c then S (leading match_fn inp') else 0
  | [] => 0
  end.

(** The repetition counts from [hi] down to [lo]. *)
Definition counts_down (hi lo : nat) : list nat := rev (seq lo (hi + 1 - lo)).

(** The first item of a generator, if its first [next] yields one. *)
Definition first_item {St} (o : outcome St) : option (nat * nat) :=
  match o with
  | Yield v _ _ => Some v
  | _ => None
  end.

(** The first [next] returns without an item. *)
Definition stops {St} (o : outcome St) : Prop := exists st, o = Stop st.

(** The enumeration the specification gives for a quantified atom: for the
    repetition counts [k'] from [hi] down to [lo], the items [k' + r] for
    the items [r] of the remaining pattern [rest] on [input[k':]]. *)
Definition greedy_enumeration `{!Store St} (fuel : nat) (inp rest : str) (gc : nat)
    (hi lo : nat) : gen St :=
  for_list (counts_down hi lo)
    (fun k' next st =>
       for_each (match_inner fuel (drop k' inp) rest gc st) (reyield k') next)
    Stop.

(** ** Patterns that end in an unquantified atom *)

(** [ends_in_atom d X]: read as [match_inner] reads it, expression after
    expression, each with its quantifier if it has one, the pattern [X]
    consists of [d] expressions, and the last one is an atom or a
    backreference (not a group) that reaches the end of [X], so that it has
    no quantifier. *)
Inductive ends_in_atom : nat -> str -> Prop :=
| ends_in_atom_last X e negated :
    parse_expression X = Ok (e, length X, negated) ->
    (forall alternatives, e <> Group alternatives) ->
    ends_in_atom 1 X
| ends_in_atom_later d X e expr_len negated :
    parse_expression X = Ok (e, expr_len, negated) ->
    ends_in_atom d (rest_after X expr_len (quantifier_at X expr_len)) ->
    ends_in_atom (S d) X.

(** The pattern without its start anchor. *)
Definition unanchored (p : str) : str :=
  if startswith p ["^"%char] then drop 1 p else p.

(** [yields_or_same o1 o2]: the first [next] of the second generator
    yields an item, or else the two generators end their first [next] in
    the same way. *)
Definition yields_or_same {St} (o1 o2 : outcome St) : Prop :=
  match o2 with
  | Yield _ _ _ => True
  | _ => o1 = o2
  end.

(** ** Where a generator leaves the table (reference semantics) *)

(** [heap_ends_at c oh]: whenever the generator of outcome [oh] returns, the
    list bound to [self.captures] has the contents [c], provided that
    between a [yield] and the next resumption the consumer keeps to
    [heap_ext]. *)
Inductive heap_ends_at (c : caps) : outcome heap -> Prop :=
| heap_ends_at_stop h : heap_table h = c -> heap_ends_at c (Stop h)
| heap_ends_at_yield v h k :
    (forall h', heap_ext h h' -> heap_ends_at c (k h')) -> heap_ends_at c (Yield v h k)
| heap_ends_at_raise e h : heap_ends_at c (Raise e h).

(** ** A quantifier after a backreference *)

(** [quantifier_dropped P P']: the matcher reads [P] and [P'] alike,
    expression by expression and alternative by alternative, down to one
    backreference, where [P] has a quantifier character that [P'] does not
    have; the character after it is not a quantifier character. *)
Inductive quantifier_dropped : str -> str -> Prop :=
| dropped_here d q post :
    isdigit d = true -> is_quantifier q = true -> quantifier_at post 0 = None ->
    quantifier_dropped ("\"%char :: d :: q :: post) ("\"%char :: d :: post)
| dropped_later P P' e expr_len negated :
    parse_expression P = Ok (e, expr_len, negated) ->
    parse_expression P' = Ok (e, expr_len, negated) ->
    quantifier_at P' expr_len = quantifier_at P expr_len ->
    quantifier_dropped (rest_after P expr_len (quantifier_at P expr_len))
                       (rest_after P' expr_len (quantifier_at P expr_len)) ->
    quantifier_dropped P P'
| dropped_inside P P' alternatives expr_len negated expr_len' negated' i alt alt' :
    parse_expression P = Ok (Group alternatives, expr_len, negated) ->
    parse_expression P' = Ok (Group (<[i := alt']> alternatives), expr_len', negated') ->
    alternatives !! i = Some alt ->
    quantifier_dropped alt alt' ->
    quantifier_at P' expr_len' = quantifier_at P expr_len ->
    rest_after P' expr_len' (quantifier_at P expr_len)
    = rest_after P expr_len (quantifier_at P expr_len) ->
    quantifier_dropped P P'.

(** ** Texts and their parts *)

(** ["|".join(alternatives)] *)
Fixpoint join_bar (alternatives : list str) : str :=
  match alternatives with
  | [] => []
  | [alt] => alt
  | alt :: alternatives' => alt ++ "|"%char :: join_bar alternatives'
  end.

(** The number of occurrences of the character [c] in [s]. *)
Fixpoint occurrences (c : ascii) (s : str) : nat :=
  match s with
  | [] => 0
  | x :: s' => (if Ascii.eqb x c then 1 else 0) + occurrences c s'
  end.

(** ** What a generator may raise, yield and do to the table (value semantics) *)

(** [guarded E T G o]: the exceptions of the generator satisfy [E], the
    final group counters of its items satisfy [G], and the table satisfies
    [T] at every item and at the return, as long as the consumer resumes
    the generator with tables that satisfy [T]. *)
Inductive guarded (E : exn -> Prop) (T : caps -> Prop) (G : nat -> Prop)
    : outcome caps -> Prop :=
| guarded_stop c : T c -> guarded E T G (Stop c)
| guarded_yield v c k :
    G v.2 -> T c -> (forall c', T c' -> guarded E T G (k c')) ->
    guarded E T G (Yield v c k)
| guarded_raise e c : E e -> guarded E T G (Raise e c).

(** The same of every call [match_inner(inp, pat, gc)] on a table that
    satisfies [T]. *)
Definition guarded_from (E : exn -> Prop) (T : caps -> Prop) (G : nat -> Prop)
    (fuel : nat) (pat : str) (gc : nat) : Prop :=
  forall inp c, T c -> guarded E T G (match_inner fuel inp pat gc c).

(** What one level of [match_inner] relies on, for the expression [e] at
    the head of its pattern, the quantifier [q] and the remaining pattern
    [rest]: the calls on [rest] and on the alternatives of a group are
    guarded, the slot of a group can be written unless [E] admits an
    [IndexError], a group under [+] is met only if [E] admits a
    [RecursionError], and [\0] reads an empty table only if [E] admits an
    [IndexError]. *)
Definition head_guarded (E : exn -> Prop) (T : caps -> Prop) (G : nat -> Prop)
    (fuel gc : nat) (e : expr) (q : option ascii) (rest : str) : Prop :=
  guarded_from E T G fuel rest gc
  /\ match e with
     | Group alternatives =>
         exists G1 : nat -> Prop,
           (forall alt, In alt alternatives -> guarded_from E T G1 fuel alt (gc + 1))
           /\ (forall g, G1 g -> guarded_from E T G fuel rest g)
           /\ (forall v c, T c ->
                 match value_setitem gc v c with
                 | Some c' => T c'
                 | None => E IndexError
                 end)
           /\ (q = Some "+"%char -> E RecursionError)
     | Backreference 0 => T [] -> E IndexError
     | _ => True
     end.

(** ** Patterns and their parts *)

(** [s] occurs in [p]. *)
Definition substring (s p : str) : Prop := exists u v, p = u ++ s ++ v.

(** Somewhere in [p] the character [a] is followed by [b]. *)
Fixpoint adjacent (a b : ascii) (p : str) : bool :=
  match p with
  | [] => false
  | x :: tl =>
      match tl with
      | [] => false
      | y :: _ => (Ascii.eqb x a && Ascii.eqb y b) || adjacent a b tl
      end
  end.

(** No [a] of [p] is followed by [b]. *)
Definition never_adjacent (a b : ascii) (p : str) : Prop :=
  forall i, p !! i = Some a -> p !! S i <> Some b.

(** A character that opens neither an escape, nor a class, nor a group. *)
Definition opens_nothing (c : ascii) : bool :=
  negb (Ascii.eqb c "\" || Ascii.eqb c "[" || Ascii.eqb c "(").

(** A character that the matcher reads as itself wherever it stands. *)
Definition literal_char (c : ascii) : bool :=
  negb (existsb (Ascii.eqb c) (chars "\[(.+?*^$")).

(** ** Verdicts *)

(** The first of the results that is not [False], and [False] if there
    is none. *)
Fixpoint first_decisive (results : list (res bool)) : res bool :=
  match results with
  | [] => Ok false
  | Ok false :: results' => first_decisive results'
  | r :: _ => r
  end.

(** ** Two recursion limits *)

(** [below o1 o2]: the generator of outcome [o1], run under a lower
    recursion limit than the one of [o2], does what the other does until
    it raises [RecursionError]. *)
Inductive below : outcome caps -> outcome caps -> Prop :=
| below_limit c o2 : below (Raise RecursionError c) o2
| below_stop c : below (Stop c) (Stop c)
| below_yield v c k1 k2 :
    (forall c', below (k1 c') (k2 c')) -> below (Yield v c k1) (Yield v c k2)
| below_raise e c : below (Raise e c) (Raise e c).

(** A character that the parser, after a backslash, reads as the
    backreference 0: [c.isdigit()] holds and [int(c)] is 0. *)
Definition reads_as_zero (c : ascii) : bool :=
  isdigit c && match int_of_char c with Ok 0 => true | _ => false end.

(** Somewhere in [p] a backslash is followed by a character that
    satisfies [test]. *)
Fixpoint escapes (test : ascii -> bool) (p : str) : bool :=
  match p with
  | [] => false
  | x :: tl =>
      match tl with
      | [] => false
      | y :: _ => (Ascii.eqb x "\" && test y) || escapes test tl
      end
  end.

(** No backslash of [p] is followed by a character that satisfies
    [test]. *)
Definition never_escapes (test : ascii -> bool) (p : str) : Prop :=
  forall i c, p !! i = Some "\"%char -> p !! S i = Some c -> test c = false.

(** * Lemmas *)

(** ** The heap discipline *)

Lemma heap_ext_refl h : heap_wf h -> heap_ext h h.
Proof. unfold heap_ext. intros Hwf. repeat split; auto. Qed.

Lemma heap_ext_wf h h' : heap_ext h h' -> heap_wf h'.
Proof. unfold heap_ext. tauto. Qed.

Lemma heap_ext_trans h1 h2 h3 : heap_ext h1 h2 -> heap_ext h2 h3 -> heap_ext h1 h3.
Proof.
  unfold heap_ext, heap_wf.
  intros (Hlen12 & Hobj12 & Hcur12 & Hwf2) (Hlen23 & Hobj23 & Hcur23 & Hwf3).
  repeat split; [lia| |lia|assumption].
  intros a Ha Hne. rewrite Hobj23; [auto|lia|lia].
Qed.

Lemma heap_table_copy h :
  heap_wf h -> heap_table (list_copy h).2 = heap_table h.
Proof.
  unfold heap_wf, heap_table. cbn. intros Hwf.
  now rewrite lookup_app_l by assumption.
Qed.

Lemma heap_ext_copy h : heap_wf h -> heap_ext h (list_copy h).2.
Proof.
  unfold heap_ext, heap_wf. cbn. intros Hwf. rewrite length_app. cbn.
  repeat split; [lia| |auto|lia].
  intros a Ha _. now rewrite lookup_app_l by assumption.
Qed.

(** Restoring a kept copy: the copy made in [h] is intact in every heap
    that extends the heap after the copy, and binding it gives back the
    table of [h]. *)
Lemma heap_table_restore h h' :
  heap_wf h -> heap_ext (list_copy h).2 h' ->
  heap_table (rebind (list_copy h).1 h') = heap_table h.
Proof.
  unfold heap_ext, heap_wf, heap_table. cbn.
  intros Hwf (_ & Hobj & _ & _). rewrite length_app in Hobj. cbn in Hobj.
  rewrite Hobj by lia. now rewrite lookup_app_r, Nat.sub_diag by lia.
Qed.

Lemma heap_ext_restore h h' :
  heap_wf h -> heap_ext (list_copy h).2 h' ->
  heap_ext h (rebind (list_copy h).1 h').
Proof.
  unfold heap_ext, heap_wf. cbn.
  intros Hwf (Hlen & Hobj & _ & Hwf'). rewrite length_app in Hlen, Hobj. cbn in Hlen, Hobj.
  repeat split; [lia| |lia|lia].
  intros a Ha Hne. rewrite Hobj by lia. now rewrite lookup_app_l by assumption.
Qed.

Lemma heap_setitem_spec i v h :
  heap_wf h ->
  match heap_setitem i v h with
  | Some h' => heap_ext h h' /\ value_setitem i v (heap_table h) = Some (heap_table h')
  | None => value_setitem i v (heap_table h) = None
  end.
Proof.
  unfold heap_setitem, value_setitem, heap_ext, heap_wf. intros Hwf.
  destruct (i <? length (heap_table h)); [|reflexivity].
  cbn. rewrite length_insert. split.
  - repeat split; [lia| |auto|assumption].
    intros a Ha Hne. now rewrite list_lookup_insert_ne by auto.
  - f_equal. unfold heap_table at 2. cbn [objs cur].
    now rewrite list_lookup_insert_eq by assumption.
Qed.

Lemma heap_rebind_new l h :
  heap_ext h (rebind_new l h) /\ heap_table (rebind_new l h) = l.
Proof.
  unfold heap_ext, heap_wf, heap_table. cbn. rewrite length_app. cbn. split.
  - repeat split; try lia.
    intros a Ha _. now rewrite lookup_app_l by assumption.
  - rewrite lookup_app_r by apply Nat.le_refl. now rewrite Nat.sub_diag.
Qed.

(** ** The simulation *)

Lemma sim_weaken h0 h1 oh ov : heap_ext h0 h1 -> sim h1 oh ov -> sim h0 oh ov.
Proof.
  intros Hext Hsim. induction Hsim as [h Hh|v h kh kv Hh _ IH|e h Hh].
  - constructor. eapply heap_ext_trans; eassumption.
  - constructor; [eapply heap_ext_trans; eassumption|]. exact IH.
  - constructor. eapply heap_ext_trans; eassumption.
Qed.

(** A [for] loop over a generator started in [h1], inside a generator
    started in [h0]. *)
Lemma sim_for_each h0 h1 oh ov bh bv ah av :
  heap_ext h0 h1 ->
  sim h1 oh ov ->
  (forall v h kh kv,
     heap_ext h1 h ->
     (forall h', heap_ext h h' -> sim h0 (kh h') (kv (heap_table h'))) ->
     sim h0 (bh v kh h) (bv v kv (heap_table h))) ->
  (forall h, heap_ext h1 h -> sim h0 (ah h) (av (heap_table h))) ->
  sim h0 (for_each oh bh ah) (for_each ov bv av).
Proof.
  intros H01 Hsim Hbody Hafter.
  induction Hsim as [h Hh|v h kh kv Hh _ IH|e h Hh]; cbn.
  - now apply Hafter.
  - apply Hbody; [assumption|]. exact IH.
  - constructor. eapply heap_ext_trans; eassumption.
Qed.

(** The loop [for ... in g: yield n + rest_len, rest_counter]. *)
Lemma sim_reyield h0 h1 oh ov n ah av :
  heap_ext h0 h1 ->
  sim h1 oh ov ->
  (forall h, heap_ext h1 h -> sim h0 (ah h) (av (heap_table h))) ->
  sim h0 (for_each oh (reyield n) ah) (for_each ov (reyield n) av).
Proof.
  intros H01 Hsim Hafter. eapply sim_for_each; try eassumption.
  intros [rest_len rest_counter] h kh kv Hh Hk. cbn.
  constructor; [eapply heap_ext_trans; eassumption|]. exact Hk.
Qed.

Section SimLocalGenerators.
Variable rec_h : str -> str -> nat -> gen heap.
Variable rec_v : str -> str -> nat -> gen caps.
Hypothesis sim_rec : forall inp alt gc h,
  heap_wf h -> sim h (rec_h inp alt gc h) (rec_v inp alt gc (heap_table h)).
Variable alternatives : list str.
Variable this_group_num : nat.

Lemma sim_group_content_once inp gc h :
  heap_wf h ->
  sim h (match_group_content_once rec_h alternatives this_group_num inp gc h)
        (match_group_content_once rec_v alternatives this_group_num inp gc (heap_table h)).
Proof.
  unfold match_group_content_once. revert h.
  induction alternatives as [|alt alts IH]; intros h Hwf; cbn [for_list].
  - constructor. now apply heap_ext_refl.
  - cbn [list_copy heap_store value_store].
    change (Heap (objs h ++ [heap_table h]) (cur h)) with (list_copy h).2.
    pose proof (heap_ext_copy h Hwf) as Hcopy.
    eapply sim_for_each with (h1 := (list_copy h).2).
    + exact Hcopy.
    + rewrite <- (heap_table_copy h Hwf). apply sim_rec.
      eapply heap_ext_wf, Hcopy.
    + intros [alt_len alt_counter] h1 kh kv Hh1 Hk.
      pose proof (heap_setitem_spec (this_group_num - 1) (Some (take alt_len inp)) h1
                    (heap_ext_wf _ _ Hh1)) as Hset.
      cbn [setitem heap_store value_store].
      destruct (heap_setitem _ _ h1) as [h2|].
      * destruct Hset as [Hh2 ->]. constructor.
        -- eapply heap_ext_trans; [exact Hcopy|]. eapply heap_ext_trans; eassumption.
        -- intros h' Hh'. apply Hk. eapply heap_ext_trans; eassumption.
      * rewrite Hset. constructor. eapply heap_ext_trans; eassumption.
    + intros h1 Hh1. cbn [rebind heap_store value_store].
      change (Heap (objs h1) (length (objs h))) with (rebind (list_copy h).1 h1).
      pose proof (heap_ext_restore h h1 Hwf Hh1) as Hrestore.
      apply sim_weaken with (h1 := rebind (list_copy h).1 h1); [exact Hrestore|].
      rewrite <- (heap_table_restore h h1 Hwf Hh1).
      apply IH. eapply heap_ext_wf, Hrestore.
Qed.

Lemma sim_plus_group depth inp gc h :
  heap_wf h ->
  sim h (match_plus_group rec_h alternatives this_group_num depth inp gc h)
        (match_plus_group rec_v alternatives this_group_num depth inp gc (heap_table h)).
Proof.
  revert inp h. induction depth as [|depth IH]; intros inp h Hwf; cbn [match_plus_group].
  - constructor. now apply heap_ext_refl.
  - eapply sim_for_each with (h1 := h).
    + now apply heap_ext_refl.
    + now apply sim_group_content_once.
    + intros [one_len one_counter] h1 kh kv Hh1 Hk.
      cbn [list_copy heap_store value_store].
      change (Heap (objs h1 ++ [heap_table h1]) (cur h1)) with (list_copy h1).2.
      pose proof (heap_ext_wf _ _ Hh1) as Hwf1.
      pose proof (heap_ext_copy h1 Hwf1) as Hcopy.
      eapply sim_reyield with (h1 := (list_copy h1).2).
      * eapply heap_ext_trans; eassumption.
      * rewrite <- (heap_table_copy h1 Hwf1). apply IH. eapply heap_ext_wf, Hcopy.
      * intros h2 Hh2. cbn [rebind heap_store value_store].
        change (Heap (objs h2) (length (objs h1))) with (rebind (list_copy h1).1 h2).
        pose proof (heap_ext_restore h1 h2 Hwf1 Hh2) as Hrestore.
        rewrite <- (heap_table_restore h1 h2 Hwf1 Hh2).
        constructor.
        -- eapply heap_ext_trans; eassumption.
        -- intros h' Hh'. apply Hk. eapply heap_ext_trans; eassumption.
    + intros h1 Hh1. now constructor.
Qed.
End SimLocalGenerators.

Lemma sim_range_loop h0 (l : list nat) (gh : nat -> gen heap) (gv : nat -> gen caps) :
  (forall k h, heap_wf h -> sim h (gh k h) (gv k (heap_table h))) ->
  forall h, heap_ext h0 h ->
  sim h0 (for_list l (fun k next st => for_each (gh k st) (reyield k) next) Stop h)
         (for_list l (fun k next st => for_each (gv k st) (reyield k) next) Stop (heap_table h)).
Proof.
  intros Hg. induction l as [|k l IH]; intros h Hh; cbn [for_list].
  - now constructor.
  - eapply sim_reyield with (h1 := h); [assumption| |].
    + apply Hg. eapply heap_ext_wf, Hh.
    + intros h1 Hh1. apply IH. eapply heap_ext_trans; eassumption.
Qed.

Lemma sim_stop_refl h : heap_wf h -> sim h (Stop h) (Stop (heap_table h)).
Proof. intros Hwf. constructor. now apply heap_ext_refl. Qed.

Lemma sim_tail h (gh : gen heap) (gv : gen caps) n :
  heap_wf h ->
  (forall h, heap_wf h -> sim h (gh h) (gv (heap_table h))) ->
  sim h (for_each (gh h) (reyield n) Stop) (for_each (gv (heap_table h)) (reyield n) Stop).
Proof.
  intros Hwf Hg. eapply sim_reyield with (h1 := h).
  - now apply heap_ext_refl.
  - now apply Hg.
  - intros h1 Hh1. now constructor.
Qed.

Lemma sim_match_inner fuel :
  forall inp pat gc h,
    heap_wf h ->
    sim h (match_inner fuel inp pat gc h) (match_inner fuel inp pat gc (heap_table h)).
Proof.
  induction fuel as [|fuel IH]; intros inp pat gc h Hwf; cbn [match_inner].
  { constructor. now apply heap_ext_refl. }
  destruct pat as [|p0 pat].
  { constructor; [now apply heap_ext_refl|]. intros h' Hh'. now constructor. }
  destruct (parse_expression (p0 :: pat)) as [[[e expr_len] negated]|err];
    [|constructor; now apply heap_ext_refl].
  set (quantifier := quantifier_at (p0 :: pat) expr_len).
  set (rest := rest_after (p0 :: pat) expr_len quantifier).
  assert (Hrest : forall h1 h2 kh kv n inp' gc',
             heap_ext h h1 -> heap_ext h1 h2 ->
             (forall h', heap_ext h1 h' -> sim h (kh h') (kv (heap_table h'))) ->
             sim h (for_each (match_inner fuel inp' rest gc' h2) (reyield n) kh)
                   (for_each (match_inner fuel inp' rest gc' (heap_table h2)) (reyield n) kv)).
  { intros h1 h2 kh kv n inp' gc' Hh1 Hh2 Hk.
    eapply sim_reyield with (h1 := h2).
    - eapply heap_ext_trans; eassumption.
    - apply IH. eapply heap_ext_wf, Hh2.
    - intros h3 Hh3. apply Hk. eapply heap_ext_trans; eassumption. }
  assert (Hrefl : heap_ext h h) by now apply heap_ext_refl.
  assert (Hstop : forall h', heap_ext h h' -> sim h (Stop h') (Stop (heap_table h')))
    by (intros; now constructor).
  assert (Hnext : forall kh kv n inp' gc',
             (forall h', heap_ext h h' -> sim h (kh h') (kv (heap_table h'))) ->
             sim h (for_each (match_inner fuel inp' rest gc' h) (reyield n) kh)
                   (for_each (match_inner fuel inp' rest gc' (heap_table h)) (reyield n) kv))
    by (intros; now apply Hrest with (h1 := h)).
  assert (Hbody : forall match_len next_counter h1 kh kv,
             heap_ext h h1 ->
             (forall h', heap_ext h1 h' -> sim h (kh h') (kv (heap_table h'))) ->
             sim h (for_each (match_inner fuel (drop match_len inp) rest next_counter h1)
                      (reyield match_len) kh)
                   (for_each (match_inner fuel (drop match_len inp) rest next_counter
                                (heap_table h1))
                      (reyield match_len) kv)).
  { intros match_len next_counter h1 kh kv Hh1 Hk.
    apply Hrest with (h1 := h1); [assumption| |assumption].
    eapply heap_ext_refl, heap_ext_wf, Hh1. }
  destruct e as [ref_num|kind|c|class_str| |alternatives];
    [ | | | | |cbv zeta; set (this_group_num := gc + 1)].
  1: { (* backreference *)
    cbn [table heap_store value_store].
    destruct (length (heap_table h) <? ref_num); [now apply Hstop|].
    destruct (getitem (heap_table h) (Z.of_nat ref_num - 1)) as [[captured_text|]|];
      [|now apply Hstop|now constructor].
    destruct (startswith inp captured_text); [|now apply Hstop].
    now apply Hnext. }
  5: { (* group *)
    destruct quantifier as [q|].
    - destruct (q =? "?")%char; [|destruct (q =? "+")%char; [|now apply Hstop]].
      + eapply sim_for_each with (h1 := h); [exact Hrefl| |intros [? ?]; apply Hbody|].
        * now apply sim_group_content_once.
        * intros h1 Hh1. apply Hrest with (h1 := h1); [assumption| |].
          -- eapply heap_ext_refl, heap_ext_wf, Hh1.
          -- intros h2 Hh2. apply Hstop. eapply heap_ext_trans; eassumption.
      + eapply sim_for_each with (h1 := h); [exact Hrefl| |intros [? ?]; apply Hbody|exact Hstop].
        now apply sim_plus_group.
    - eapply sim_for_each with (h1 := h); [exact Hrefl| |intros [? ?]; apply Hbody|exact Hstop].
      now apply sim_group_content_once. }
  (* the atoms *)
  all: destruct (get_match_fn _ negated) as [match_fn|]; [|now constructor].
  all: set (first_matches := match inp with [] => false | c :: _ => match_fn c end).
  all: destruct quantifier as [q|];
    [|destruct first_matches; [now apply Hnext|now apply Hstop]].
  all: destruct (q =? "+")%char;
    [destruct (negb first_matches); [now apply Hstop|];
     apply sim_range_loop; [intros; now apply IH|exact Hrefl]|].
  all: destruct (q =? "?")%char;
    [|destruct (q =? "*")%char; [|now apply Hstop];
      apply sim_range_loop; [intros; now apply IH|exact Hrefl]].
  all: destruct first_matches; apply Hnext; intros h1 Hh1.
  all: try (apply Hrest with (h1 := h1);
            [assumption|eapply heap_ext_refl, heap_ext_wf, Hh1|
             intros h2 Hh2; apply Hstop; eapply heap_ext_trans; eassumption]).
  all: now apply Hstop.
Qed.

(** ** The driver on the two semantics *)

Lemma sim_any_length wanted h0 oh ov :
  sim h0 oh ov ->
  (any_length wanted ov).1 = (any_length wanted oh).1
  /\ (any_length wanted ov).2 = heap_table (any_length wanted oh).2
  /\ heap_ext h0 (any_length wanted oh).2.
Proof.
  intros Hsim. induction Hsim as [h Hh|v h kh kv Hh _ IH|e h Hh]; cbn; auto.
  destruct (wanted v.1); cbn; auto.
  apply IH. eapply heap_ext_refl, heap_ext_wf, Hh.
Qed.

Lemma sim_next_exists h0 oh ov :
  sim h0 oh ov ->
  (next_exists ov).1 = (next_exists oh).1
  /\ (next_exists ov).2 = heap_table (next_exists oh).2
  /\ heap_ext h0 (next_exists oh).2.
Proof. intros Hsim. destruct Hsim; cbn; auto. Qed.

Lemma attempt_heap_value fuel end_anchored inp inner i h :
  heap_wf h ->
  (attempt fuel end_anchored inp inner i (heap_table h)).1
    = (attempt fuel end_anchored inp inner i h).1
  /\ (attempt fuel end_anchored inp inner i (heap_table h)).2
    = heap_table (attempt fuel end_anchored inp inner i h).2
  /\ heap_ext h (attempt fuel end_anchored inp inner i h).2.
Proof.
  intros Hwf. unfold attempt.
  pose proof (sim_match_inner fuel (drop i inp) inner 0 h Hwf) as Hsim.
  destruct end_anchored; [now apply sim_any_length|now apply sim_next_exists].
Qed.

Lemma try_offsets_heap_value fuel end_anchored inp inner offsets :
  forall h, heap_wf h ->
  (try_offsets fuel end_anchored inp inner offsets (heap_table h)).1
    = (try_offsets fuel end_anchored inp inner offsets h).1
  /\ (try_offsets fuel end_anchored inp inner offsets (heap_table h)).2
    = heap_table (try_offsets fuel end_anchored inp inner offsets h).2
  /\ heap_wf (try_offsets fuel end_anchored inp inner offsets h).2.
Proof.
  induction offsets as [|i offsets IH]; intros h Hwf; cbn [try_offsets]; [auto|].
  destruct (attempt_heap_value fuel end_anchored inp inner i h Hwf) as (H1 & H2 & H3).
  destruct (attempt fuel end_anchored inp inner i h) as [rh h'].
  destruct (attempt fuel end_anchored inp inner i (heap_table h)) as [rv c'].
  cbn in H1, H2, H3. subst rv c'. apply heap_ext_wf in H3.
  destruct rh as [[|]|e]; cbn; auto.
Qed.

(** [has_match] gives the same verdict (or raises the same exception)
    under both semantics, whatever the heap and the table it is called
    with, and it leaves the same table behind. *)
Lemma has_match_heap_value fuel n inp pat (h : heap) (c : caps) :
  (has_match fuel n inp pat c).1 = (has_match fuel n inp pat h).1
  /\ (has_match fuel n inp pat c).2 = heap_table (has_match fuel n inp pat h).2
  /\ heap_wf (has_match fuel n inp pat h).2.
Proof.
  unfold has_match.
  destruct (strip_anchors pat) as [[start_anchored end_anchored] inner].
  destruct (heap_rebind_new (replicate n None) h) as [Hext Htable].
  set (h1 := rebind_new (replicate n None) h) in *.
  change (rebind_new (replicate n None) c) with (replicate n (@None str)).
  rewrite <- Htable. apply heap_ext_wf in Hext.
  destruct start_anchored.
  - destruct (attempt_heap_value fuel end_anchored inp inner 0 h1 Hext) as (H1 & H2 & H3).
    apply heap_ext_wf in H3. auto.
  - now apply try_offsets_heap_value.
Qed.

Lemma verdict_heap_value fuel pat line :
  verdict heap fuel pat line = verdict caps fuel pat line.
Proof.
  unfold verdict, match_pattern, init. cbn [pattern captures num_capture_groups].
  pose proof (has_match_heap_value fuel (count_capture_groups pat) line pat
                (new_store []) (new_store [])) as (H1 & _).
  destruct (has_match _ _ _ _ (new_store [] : heap)).
  destruct (has_match _ _ _ _ (new_store [] : caps)).
  cbn in *. congruence.
Qed.

(** ** When the first attempt raises *)

Section FirstAttemptRaises.
Context {St : Type} `{!Store St}.

Lemma raises_in_for_each e (o : outcome St) body after :
  raises e o -> raises e (for_each o body after).
Proof. intros [st ->]. now exists st. Qed.

Lemma attempt_raises fuel end_anchored inp inner i e (st : St) :
  raises e (match_inner fuel (drop i inp) inner 0 st) ->
  (attempt fuel end_anchored inp inner i st).1 = Err e.
Proof. unfold attempt. intros [st' ->]. now destruct end_anchored. Qed.

(** An exception raised by every first [next] ends [has_match] at its
    first attempt, anchored or not. *)
Lemma has_match_raises_at_once fuel n inp pat e (st : St) :
  (forall inp', raises e (match_inner fuel inp' (strip_anchors pat).2 0
                            (rebind_new (replicate n None) st))) ->
  (has_match fuel n inp pat st).1 = Err e.
Proof.
  intros Hraise. unfold has_match.
  destruct (strip_anchors pat) as [[start_anchored end_anchored] inner].
  cbn [snd] in Hraise.
  destruct start_anchored; [now apply attempt_raises|].
  rewrite Nat.add_1_r. cbn [seq try_offsets].
  pose proof (attempt_raises fuel end_anchored inp inner 0 e
                (rebind_new (replicate n None) st) (Hraise _)) as Hfirst.
  destruct (attempt fuel end_anchored inp inner 0 _) as [r st'].
  cbn in Hfirst. subst r. reflexivity.
Qed.
End FirstAttemptRaises.

(** ** Generators give the table back (value semantics) *)

Lemma ends_at_restoring c o : ends_at c o -> restoring c o.
Proof. induction 1; constructor; auto. Qed.

Lemma ends_at_for_each c0 c o body after :
  ends_at c0 o ->
  (forall v resume c1, (forall c', ends_at c (resume c')) -> ends_at c (body v resume c1)) ->
  ends_at c (after c0) ->
  ends_at c (for_each o body after).
Proof.
  intros Ho Hbody Hafter. induction Ho as [|v c1 k _ IH|e c1]; cbn.
  - exact Hafter.
  - apply Hbody. exact IH.
  - constructor.
Qed.

Lemma ends_at_for_each_any c (o : outcome caps) body after :
  (forall v resume c1, (forall c', ends_at c (resume c')) -> ends_at c (body v resume c1)) ->
  (forall c1, ends_at c (after c1)) ->
  ends_at c (for_each o body after).
Proof.
  intros Hbody Hafter. induction o as [c1|v c1 k IH|e c1]; cbn.
  - apply Hafter.
  - apply Hbody. exact IH.
  - constructor.
Qed.

Lemma ends_at_reyield c n v resume c1 :
  (forall c', ends_at c (resume c')) -> ends_at c (reyield n v resume c1).
Proof. destruct v. cbn. now constructor. Qed.

Section LocalGeneratorsRestore.
Variable rec : str -> str -> nat -> gen caps.
Variable alternatives : list str.
Variable this_group_num : nat.

(** After the last alternative the table is the one the group was entered
    with, whatever the alternatives and the consumer did to it. *)
Lemma group_content_once_ends_at inp gc c :
  ends_at c (match_group_content_once rec alternatives this_group_num inp gc c).
Proof.
  unfold match_group_content_once.
  induction alternatives as [|alt alts IH]; cbn [for_list list_copy rebind value_store].
  - constructor.
  - apply ends_at_for_each_any.
    + intros [alt_len alt_counter] resume c1 Hresume.
      destruct (setitem _ _ c1); now constructor.
    + intros c1. exact IH.
Qed.

Lemma plus_group_ends_at depth :
  forall inp gc c,
    ends_at c (match_plus_group rec alternatives this_group_num depth inp gc c).
Proof.
  induction depth as [|depth IH]; intros inp gc c; cbn [match_plus_group].
  - constructor.
  - eapply ends_at_for_each; [apply group_content_once_ends_at| |constructor].
    intros [one_len one_counter] resume c1 Hresume.
    cbn [list_copy rebind value_store].
    apply ends_at_for_each_any.
    + intros v resume' c2 Hresume'. now apply ends_at_reyield.
    + intros c2. now constructor.
Qed.
End LocalGeneratorsRestore.

Lemma restoring_for_each c0 c o body after :
  restoring c0 o ->
  (forall v resume c1, restoring c (resume c1) -> restoring c (body v resume c1)) ->
  restoring c (after c0) ->
  restoring c (for_each o body after).
Proof.
  intros Ho Hbody Hafter. induction Ho as [|v c1 k _ IH|e c1]; cbn.
  - exact Hafter.
  - apply Hbody. exact IH.
  - constructor.
Qed.

Lemma restoring_reyield c n v resume c1 :
  restoring c (resume c1) -> restoring c (reyield n v resume c1).
Proof. destruct v. cbn. now constructor. Qed.

Lemma restoring_tail c0 c o n after :
  restoring c0 o -> restoring c (after c0) ->
  restoring c (for_each o (reyield n) after).
Proof.
  intros Ho Hafter. eapply restoring_for_each; [exact Ho| |exact Hafter].
  intros v resume c1. apply restoring_reyield.
Qed.

Lemma restoring_counts (g : nat -> gen caps) counts c :
  (forall k, restoring c (g k c)) ->
  restoring c
    (for_list counts (fun k next st => for_each (g k st) (reyield k) next) Stop c).
Proof.
  intros Hg. induction counts as [|k counts IH]; cbn [for_list]; [constructor|].
  eapply restoring_tail; [apply Hg|exact IH].
Qed.

(** A generator of [match_inner] that runs to its end, in the hands of a
    consumer that does not touch the table, leaves the table as it found
    it. *)
Lemma match_inner_restoring fuel :
  forall inp pat gc c, restoring c (match_inner fuel inp pat gc c).
Proof.
  induction fuel as [|fuel IH]; intros inp pat gc c; cbn [match_inner]; [constructor|].
  destruct pat as [|p0 pat]; [repeat constructor|].
  destruct (parse_expression (p0 :: pat)) as [[[e expr_len] negated]|err]; [|constructor].
  set (quantifier := quantifier_at (p0 :: pat) expr_len).
  set (rest := rest_after (p0 :: pat) expr_len quantifier).
  assert (Hnext : forall n inp' gc' after,
             restoring c (after c) ->
             restoring c (for_each (match_inner fuel inp' rest gc' c) (reyield n) after))
    by (intros; eapply restoring_tail; [apply IH|assumption]).
  assert (Hgroup : forall o after,
             ends_at c o -> restoring c (after c) ->
             restoring c
               (for_each o
                  (fun '(match_len, next_counter) resume st =>
                     for_each (match_inner fuel (drop match_len inp) rest next_counter st)
                       (reyield match_len) resume)
                  after)).
  { intros o after Ho Hafter. eapply restoring_for_each.
    - apply ends_at_restoring, Ho.
    - intros [match_len next_counter] resume c1 Hresume.
      eapply restoring_tail; [apply IH|exact Hresume].
    - exact Hafter. }
  destruct e as [ref_num|kind|ch|class_str| |alternatives]; [ | | | | |cbv zeta].
  1: { cbn [table value_store].
       destruct (length c <? ref_num); [constructor|].
       destruct (getitem c (Z.of_nat ref_num - 1)) as [[captured_text|]|]; try constructor.
       destruct (startswith inp captured_text); [|constructor].
       apply Hnext. constructor. }
  5: { destruct quantifier as [q|].
       - destruct (Ascii.eqb q "?"); [|destruct (Ascii.eqb q "+"); [|constructor]].
         + apply Hgroup; [apply group_content_once_ends_at|]. apply Hnext. constructor.
         + apply Hgroup; [apply plus_group_ends_at|constructor].
       - apply Hgroup; [apply group_content_once_ends_at|constructor]. }
  all: destruct (get_match_fn _ negated) as [match_fn|]; [|constructor].
  all: set (first_matches := match inp with [] => false | c0 :: _ => match_fn c0 end).
  all: destruct quantifier as [q|];
    [|destruct first_matches; [apply Hnext|]; constructor].
  all: destruct (Ascii.eqb q "+");
    [destruct (negb first_matches); [constructor|];
     apply restoring_counts; intros; apply IH|].
  all: destruct (Ascii.eqb q "?");
    [|destruct (Ascii.eqb q "*"); [|constructor];
      apply restoring_counts; intros; apply IH].
  all: destruct first_matches; repeat (apply Hnext); constructor.
Qed.

(** In particular a generator that yields nothing leaves the table as it
    found it. *)
Lemma match_inner_stops_with_table fuel inp pat gc (c : caps) :
  stops (match_inner fuel inp pat gc c) -> match_inner fuel inp pat gc c = Stop c.
Proof.
  intros [c' Hstop]. pose proof (match_inner_restoring fuel inp pat gc c) as Hres.
  rewrite Hstop in Hres |- *. now inversion Hres.
Qed.

(** ** The parser reads a prefix of the pattern *)

Lemma scan_bracket_bound l p : p <= scan_bracket l p <= p + length l.
Proof.
  revert p. induction l as [|c l IH]; intros p; cbn [scan_bracket length]; [lia|].
  destruct (Ascii.eqb c "]"); [lia|]. specialize (IH (S p)). lia.
Qed.

Lemma scan_bracket_app l s p :
  scan_bracket l p < p + length l -> scan_bracket (l ++ s) p = scan_bracket l p.
Proof.
  revert p. induction l as [|c l IH]; intros p; cbn [scan_bracket length app]; [lia|].
  destruct (Ascii.eqb c "]"); [reflexivity|]. intros H. apply IH. lia.
Qed.

Lemma paren_scan_bound l i d n : paren_scan l i d = Ok n -> i <= n < i + length l.
Proof.
  revert i d. induction l as [|c l IH]; intros i d; cbn [paren_scan length]; [discriminate|].
  destruct (Z.eqb _ 0).
  - intros [= <-]. lia.
  - intros H. apply IH in H. lia.
Qed.

Lemma paren_scan_app l s i d n :
  paren_scan l i d = Ok n -> paren_scan (l ++ s) i d = Ok n.
Proof.
  revert i d. induction l as [|c l IH]; intros i d; cbn [paren_scan app]; [discriminate|].
  destruct (Z.eqb _ 0); [auto|apply IH].
Qed.

Lemma slice_app {A} (l s : list A) a b : b <= length l -> slice (l ++ s) a b = slice l a b.
Proof.
  intros Hb. unfold slice.
  destruct (Nat.le_gt_cases a (length l)) as [Ha|Ha].
  - rewrite drop_app_le by assumption. rewrite take_app_le; [reflexivity|].
    rewrite length_drop. lia.
  - replace (b - a) with 0 by lia. reflexivity.
Qed.

Lemma parse_single_atom_app X s e len neg :
  parse_single_atom X = Ok (e, len, neg) ->
  len <= length X /\ parse_single_atom (X ++ s) = Ok (e, len, neg).
Proof.
  destruct X as [|c0 tl]; [discriminate|]. cbn [parse_single_atom app].
  destruct (Ascii.eqb c0 "\").
  { destruct tl as [|esc tl]; [discriminate|]. cbn [app length].
    intros H. split; [|exact H].
    destruct (isdigit esc); [destruct (int_of_char esc); cbn in H; [|discriminate]|];
      repeat (destruct (Ascii.eqb esc _)); injection H as <- <- <-; lia. }
  destruct (Ascii.eqb c0 "[").
  { set (negated := match tl with [] => false | c1 :: _ => Ascii.eqb c1 "^" end).
    set (start := if negated then 2 else 1).
    set (p := scan_bracket (drop start (c0 :: tl)) start).
    destruct (Nat.leb_spec (length (c0 :: tl)) p) as [|Hp]; [discriminate|].
    intros [= <- <- <-].
    assert (Hstart : start <= length (c0 :: tl)).
    { pose proof (scan_bracket_bound (drop start (c0 :: tl)) start). fold p in H. lia. }
    assert (Htl : match tl ++ s with [] => false | c1 :: _ => Ascii.eqb c1 "^" end = negated).
    { destruct tl; [|reflexivity]. cbn in Hp, Hstart. unfold p, start, negated in Hp.
      cbn in Hp. lia. }
    rewrite Htl. fold start.
    change (c0 :: tl ++ s) with ((c0 :: tl) ++ s).
    rewrite drop_app_le by assumption.
    rewrite scan_bracket_app; fold p.
    2: { rewrite length_drop. lia. }
    split; [lia|].
    destruct (Nat.leb_spec (length ((c0 :: tl) ++ s)) p) as [Hlen|_].
    - rewrite length_app in Hlen. lia.
    - rewrite slice_app by lia. reflexivity. }
  destruct (Ascii.eqb c0 "."); intros [= <- <- <-]; cbn [length]; split; (lia || reflexivity).
Qed.

(** If the expression at the head of [X] parses, it lies within [X], and
    whatever is appended to [X] leaves it the same. *)
Lemma parse_expression_app X s e len neg :
  parse_expression X = Ok (e, len, neg) ->
  len <= length X /\ parse_expression (X ++ s) = Ok (e, len, neg).
Proof.
  unfold parse_expression.
  destruct X as [|c0 tl]; [discriminate|]. cbn [startswith app].
  destruct (Ascii.eqb c0 "("); cbn [andb];
    [|intros H; change (c0 :: tl ++ s) with ((c0 :: tl) ++ s);
      now apply parse_single_atom_app].
  unfold find_matching_paren. cbn [Nat.add skipn].
  change (drop 0 tl) with tl. change (drop 0 (tl ++ s)) with (tl ++ s).
  destruct (paren_scan tl 1 1) as [n|err] eqn:Hscan; cbn [res_bind]; [|discriminate].
  intros [= <- <- <-].
  pose proof (paren_scan_bound _ _ _ _ Hscan) as Hn.
  rewrite (paren_scan_app _ s _ _ _ Hscan). cbn [res_bind length].
  split; [lia|].
  change (c0 :: tl ++ s) with ((c0 :: tl) ++ s).
  rewrite slice_app by (cbn [length]; lia). reflexivity.
Qed.

Lemma quantifier_at_app X s len :
  len < length X -> quantifier_at (X ++ s) len = quantifier_at X len.
Proof. intros Hlen. unfold quantifier_at. now rewrite lookup_app_l. Qed.

Lemma rest_after_app X s len q :
  len + match q with Some _ => 1 | None => 0 end <= length X ->
  rest_after (X ++ s) len q = rest_after X len q ++ s.
Proof. intros Hlen. unfold rest_after. now rewrite drop_app_le. Qed.

Lemma quantifier_at_Some X len q :
  quantifier_at X len = Some q -> len < length X /\ is_quantifier q = true.
Proof.
  unfold quantifier_at. destruct (X !! len) as [c|] eqn:Hlook; [|discriminate].
  apply lookup_lt_Some in Hlook.
  destruct (is_quantifier c) eqn:Hq; [|discriminate]. intros [= <-]. auto.
Qed.

Lemma rest_after_nonempty X len :
  rest_after X len (quantifier_at X len) <> [] ->
  len + match quantifier_at X len with Some _ => 1 | None => 0 end < length X.
Proof.
  unfold rest_after. intros Hrest.
  destruct (Nat.lt_ge_cases (len + match quantifier_at X len with Some _ => 1 | None => 0 end)
              (length X)) as [|Hge]; [assumption|].
  exfalso. apply Hrest. now apply drop_ge.
Qed.

(** ** Two runs of [match_inner] side by side *)

Section SideBySide.
Context {St : Type} `{!Store St}.

(** A relation between outcomes that holds between an outcome and itself
    and goes through the loop [for ... in g: yield n + ...]. *)
Variable related : outcome St -> outcome St -> Prop.
Hypothesis related_refl : forall o, related o o.
Hypothesis related_tail : forall o1 o2 n k1 k2,
  related o1 o2 ->
  (forall st, related (k1 st) (k2 st)) ->
  related (for_each o1 (reyield n) k1) (for_each o2 (reyield n) k2).

Lemma related_for_each (o : outcome St) b1 b2 a1 a2 :
  (forall v r1 r2 st,
     (forall st', related (r1 st') (r2 st')) ->
     related (b1 v r1 st) (b2 v r2 st)) ->
  (forall st, related (a1 st) (a2 st)) ->
  related (for_each o b1 a1) (for_each o b2 a2).
Proof.
  intros Hb Ha. induction o as [st|v st k IH|err st]; cbn; auto.
Qed.

Lemma related_counts counts (g1 g2 : nat -> gen St) :
  (forall k st, related (g1 k st) (g2 k st)) ->
  forall st,
    related
      (for_list counts (fun k next st => for_each (g1 k st) (reyield k) next) Stop st)
      (for_list counts (fun k next st => for_each (g2 k st) (reyield k) next) Stop st).
Proof.
  intros Hg. induction counts as [|k counts IH]; intros st; cbn [for_list]; [apply related_refl|].
  apply related_tail; auto.
Qed.

(** One level of [match_inner] on two patterns that parse alike at the
    head and go on with related remaining patterns. *)
Lemma related_step fuel inp pat1 pat2 gc e expr_len negated quantifier rest1 rest2 st :
  pat1 <> [] -> pat2 <> [] ->
  parse_expression pat1 = Ok (e, expr_len, negated) ->
  parse_expression pat2 = Ok (e, expr_len, negated) ->
  quantifier_at pat1 expr_len = quantifier ->
  quantifier_at pat2 expr_len = quantifier ->
  rest_after pat1 expr_len quantifier = rest1 ->
  rest_after pat2 expr_len quantifier = rest2 ->
  (forall inp' gc' st',
     related (match_inner fuel inp' rest1 gc' st') (match_inner fuel inp' rest2 gc' st')) ->
  related (match_inner (S fuel) inp pat1 gc st) (match_inner (S fuel) inp pat2 gc st).
Proof.
  intros Hne1 Hne2 Hparse1 Hparse2 Hq1 Hq2 Hrest1 Hrest2 Hrec.
  destruct pat1 as [|x1 pat1]; [congruence|]. destruct pat2 as [|x2 pat2]; [congruence|].
  cbn [match_inner]. rewrite Hparse1, Hparse2, Hq1, Hq2, Hrest1, Hrest2.
  assert (Hnext : forall n inp' gc' st' k1 k2,
             (forall st, related (k1 st) (k2 st)) ->
             related (for_each (match_inner fuel inp' rest1 gc' st') (reyield n) k1)
                            (for_each (match_inner fuel inp' rest2 gc' st') (reyield n) k2))
    by (intros; now apply related_tail).
  assert (Hstop : forall st : St, related (Stop st) (Stop st)) by (intros; apply related_refl).
  assert (Hgroup : forall (o : outcome St) a1 a2,
             (forall st, related (a1 st) (a2 st)) ->
             related
               (for_each o
                  (fun '(match_len, next_counter) resume st =>
                     for_each (match_inner fuel (drop match_len inp) rest1 next_counter st)
                       (reyield match_len) resume)
                  a1)
               (for_each o
                  (fun '(match_len, next_counter) resume st =>
                     for_each (match_inner fuel (drop match_len inp) rest2 next_counter st)
                       (reyield match_len) resume)
                  a2)).
  { intros o a1 a2 Ha. apply related_for_each; [|exact Ha].
    intros [match_len next_counter] r1 r2 st' Hr. now apply Hnext. }
  destruct e as [ref_num|kind|ch|class_str| |alternatives]; [ | | | | |cbv zeta].
  1: { destruct (length (table st) <? ref_num); [apply related_refl|].
       destruct (getitem (table st) (Z.of_nat ref_num - 1)) as [[captured_text|]|];
         try apply related_refl.
       destruct (startswith inp captured_text); [|apply related_refl].
       now apply Hnext. }
  5: { destruct quantifier as [q|].
       - destruct (Ascii.eqb q "?"); [|destruct (Ascii.eqb q "+"); [|apply related_refl]].
         + apply Hgroup. intros st'. now apply Hnext.
         + now apply Hgroup.
       - now apply Hgroup. }
  all: destruct (get_match_fn _ negated) as [match_fn|]; [|apply related_refl].
  all: set (first_matches := match inp with [] => false | c0 :: _ => match_fn c0 end).
  all: destruct quantifier as [q|];
    [|destruct first_matches; [now apply Hnext|apply related_refl]].
  all: destruct (Ascii.eqb q "+");
    [destruct (negb first_matches); [apply related_refl|];
     apply related_counts; intros; apply Hrec|].
  all: destruct (Ascii.eqb q "?");
    [|destruct (Ascii.eqb q "*"); [|apply related_refl];
      apply related_counts; intros; apply Hrec].
  all: destruct first_matches; apply Hnext; intros st'; try apply Hnext; auto.
Qed.
End SideBySide.

(** * Theorems *)

(** ** Bare anchors *)

Section BareAnchors.
Context {St : Type} `{!Store St}.

Lemma attempt_empty_pattern fuel (s : str) i (st : St) :
  attempt (S fuel) true s [] i st = (Ok (i =? length s), st).
Proof.
  unfold attempt. simpl. rewrite Nat.add_0_r.
  destruct (i =? length s); reflexivity.
Qed.

Lemma try_offsets_empty_pattern fuel (s : str) offsets (st : St) :
  try_offsets (S fuel) true s [] offsets st
  = (Ok (existsb (fun i => i =? length s) offsets), st).
Proof.
  induction offsets as [|i offsets IH]; [reflexivity|].
  cbn [try_offsets existsb]. rewrite attempt_empty_pattern.
  destruct (i =? length s); [reflexivity|]. exact IH.
Qed.

Lemma existsb_seq_last n : existsb (fun i => i =? n) (seq 0 (n + 1)) = true.
Proof.
  apply existsb_exists. exists n. split; [|apply Nat.eqb_refl].
  apply in_seq. lia.
Qed.
End BareAnchors.

(** C7. On a new engine and with any positive recursion limit, the pattern
    [^$] matches exactly the empty line, and each of the patterns [^] and
    [$] matches every line; this holds for both semantics of the table. *)
Theorem bare_anchor_patterns (St : Type) `{!Store St} (fuel : nat) (s : str) :
  verdict St (S fuel) (chars "^$") s = Ok (bool_decide (s = []))
  /\ verdict St (S fuel) (chars "^") s = Ok true
  /\ verdict St (S fuel) (chars "$") s = Ok true.
Proof.
  unfold verdict, match_pattern, init, has_match. cbn -[attempt try_offsets seq].
  split; [|split].
  - rewrite attempt_empty_pattern. cbn. destruct s; reflexivity.
  - unfold attempt. reflexivity.
  - rewrite try_offsets_empty_pattern. cbn [fst]. now rewrite existsb_seq_last.
Qed.

(** ** The escape [\0] *)

Section ZeroBackreference.
Context {St : Type} `{!Store St}.

(** Reaching [\0] with an empty table raises [IndexError]: the test
    [len(self.captures) < 0] fails and [self.captures[-1]] has nothing to
    index. *)
Lemma match_inner_backslash_zero fuel inp rest gc (st : St) :
  table st = [] ->
  match_inner (S fuel) inp (chars "\0" ++ rest) gc st = Raise IndexError st.
Proof.
  intros Htable.
  change (chars "\0" ++ rest) with ("\"%char :: "0"%char :: rest).
  cbn [match_inner].
  change (parse_expression ("\"%char :: "0"%char :: rest))
    with (Ok (Backreference 0, 2, false)).
  cbv beta iota. rewrite Htable. reflexivity.
Qed.
End ZeroBackreference.

(** What [strip_anchors] leaves of a pattern that begins with two
    characters other than [^], and of the same pattern after [^]. *)
Lemma strip_anchors_keeps2 c1 c2 rest :
  Ascii.eqb c1 "^" = false -> Ascii.eqb c2 "$" = false ->
  exists end_anchored rest',
    strip_anchors (c1 :: c2 :: rest) = (false, end_anchored, c1 :: c2 :: rest')
    /\ strip_anchors ("^"%char :: c1 :: c2 :: rest) = (true, end_anchored, c1 :: c2 :: rest').
Proof.
  intros Hc1 Hc2. unfold strip_anchors. cbn [startswith]. rewrite Hc1.
  change (endswith_char ("^"%char :: c1 :: c2 :: rest) "$")
    with (endswith_char (c1 :: c2 :: rest) "$").
  destruct (endswith_char (c1 :: c2 :: rest) "$") eqn:Hend.
  - destruct rest as [|c3 rest].
    + unfold endswith_char in Hend. cbn in Hend. congruence.
    + exists true, (take (length rest) (c3 :: rest)). unfold slice. cbn.
      now rewrite ?Nat.sub_0_r.
  - exists false, rest. split; reflexivity.
Qed.

Lemma verdict_value_backslash_zero fuel rest line :
  count_capture_groups (chars "\0" ++ rest) = 0 ->
  verdict caps (S fuel) (chars "\0" ++ rest) line = Err IndexError
  /\ verdict caps (S fuel) (chars "^\0" ++ rest) line = Err IndexError.
Proof.
  intros Hcount.
  assert (Hcount' : count_capture_groups (chars "^\0" ++ rest) = 0) by exact Hcount.
  unfold verdict, match_pattern, init, has_match.
  cbn [pattern captures num_capture_groups]. rewrite Hcount, Hcount'.
  destruct (strip_anchors_keeps2 "\" "0" rest eq_refl eq_refl) as (e & r & H1 & H2).
  change (chars "^\0" ++ rest) with ("^"%char :: "\"%char :: "0"%char :: rest).
  change (chars "\0" ++ rest) with ("\"%char :: "0"%char :: rest).
  rewrite H1, H2. 
  change (replicate 0 (@None str)) with (@nil (option str)).
  rewrite Nat.add_1_r.
  cbn [rebind_new value_store seq try_offsets].
  unfold attempt. cbn [drop].
  rewrite !(match_inner_backslash_zero (St := caps) fuel _ r 0 []) by reflexivity.
  now destruct e.
Qed.

(** C9. In a pattern without capture groups, reaching the escape [\0]
    raises [IndexError]: [match_inner] does so whenever it dispatches on
    [\0] with an empty table, and so the verdict of every pattern that
    begins with [\0] (or with [^\0]) and counts no group is [IndexError]
    on every line, for any positive recursion limit. *)
Theorem backslash_zero_raises_index_error fuel rest :
  count_capture_groups (chars "\0" ++ rest) = 0 ->
  (forall inp gc (h : heap),
     heap_table h = [] ->
     match_inner (S fuel) inp (chars "\0" ++ rest) gc h = Raise IndexError h)
  /\ (forall line,
        verdict heap (S fuel) (chars "\0" ++ rest) line = Err IndexError
        /\ verdict heap (S fuel) (chars "^\0" ++ rest) line = Err IndexError).
Proof.
  intros Hcount. split.
  - intros inp gc h Htable. now apply match_inner_backslash_zero.
  - intros line. rewrite !verdict_heap_value.
    now apply verdict_value_backslash_zero.
Qed.

Lemma backslash_zero_raises_index_error_witness :
  count_capture_groups (chars "\0" ++ chars "x") = 0
  /\ verdict heap 1 (chars "\0" ++ chars "x") (chars "ab") = Err IndexError.
Proof.
  split; [reflexivity|].
  apply (backslash_zero_raises_index_error 0 (chars "x")). reflexivity.
Defined.

(** ** A group with an empty alternative under [+] *)

Section EmptyAlternativeUnderPlus.
Variable rec : str -> str -> nat -> gen caps.

(** What the recursive calls on the two alternatives [a] and the empty
    pattern can do: exceed the recursion limit, or else match at most one
    way. *)
Hypothesis rec_a : forall inp c,
  raises RecursionError (rec inp (chars "a") 1 c)
  \/ rec inp (chars "a") 1 c = Stop c
  \/ exists k, rec inp (chars "a") 1 c = Yield (1, 1) c k.
Hypothesis rec_empty : forall inp c,
  raises RecursionError (rec inp [] 1 c)
  \/ exists k, rec inp [] 1 c = Yield (0, 1) c k.

Lemma plus_group_empty_alternative_diverges :
  forall depth inp (c : caps),
    length c = 1 ->
    raises RecursionError
      (match_plus_group rec [chars "a"; []] 1 depth inp 1 c).
Proof.
  induction depth as [|depth IH]; intros inp c Hlen; cbn [match_plus_group].
  { now exists c. }
  destruct c as [|slot [|? ?]]; try discriminate. clear Hlen.
  unfold match_group_content_once. cbn [for_list list_copy rebind value_store].
  assert (Hempty :
    raises RecursionError
      (for_each
         (for_each (rec inp [] 1 [slot])
            (fun '(alt_len, alt_counter) resume st =>
               match setitem (1 - 1) (Some (take alt_len inp)) st with
               | Some st0 => Yield (alt_len, alt_counter) st0 resume
               | None => Raise IndexError st
               end)
            (fun _ => Stop [slot]))
         (fun '(one_len, one_counter) resume st =>
            for_each (match_plus_group rec [chars "a"; []] 1 depth (drop one_len inp) 1 st)
              (reyield one_len)
              (fun _ => Yield (one_len, one_counter) st resume))
         Stop)).
  { destruct (rec_empty inp [slot]) as [[st ->]|[k ->]]; [now exists st|].
    cbn. now apply raises_in_for_each, IH. }
  destruct (rec_a inp [slot]) as [[st ->]|[->|[k ->]]].
  - now exists st.
  - exact Hempty.
  - cbn. now apply raises_in_for_each, IH.
Qed.
End EmptyAlternativeUnderPlus.

Lemma match_inner_literal_a n inp (c : caps) :
  raises RecursionError (match_inner n inp (chars "a") 1 c)
  \/ match_inner n inp (chars "a") 1 c = Stop c
  \/ exists k, match_inner n inp (chars "a") 1 c = Yield (1, 1) c k.
Proof.
  destruct n as [|n]; [left; now exists c|].
  cbn [match_inner chars list_ascii_of_string].
  change (parse_expression ["a"%char]) with (Ok (Literal "a", 1, false)).
  cbv beta iota. cbn [get_match_fn quantifier_at rest_after lookup list_lookup drop Nat.add].
  destruct inp as [|c0 inp]; [right; now left|].
  destruct (Ascii.eqb c0 "a"); [|right; now left].
  destruct n as [|n]; [left; now exists c|].
  right; right. cbn. eauto.
Qed.

Lemma match_inner_empty_pattern n inp (c : caps) :
  raises RecursionError (match_inner n inp [] 1 c)
  \/ exists k, match_inner n inp [] 1 c = Yield (0, 1) c k.
Proof. destruct n as [|n]; [left; now exists c|right; cbn; eauto]. Qed.

Lemma match_inner_empty_alternative_diverges fuel inp (c : caps) :
  length c = 1 ->
  raises RecursionError (match_inner fuel inp (chars "(a|)+") 0 c).
Proof.
  intros Hlen. destruct fuel as [|fuel]; [now exists c|].
  cbn [match_inner chars list_ascii_of_string].
  change (parse_expression _) with (Ok (Group [chars "a"; []], 4, false)).
  cbv beta iota zeta.
  cbn [quantifier_at rest_after lookup list_lookup is_quantifier Ascii.eqb Bool.eqb orb].
  cbn [Nat.add].
  apply raises_in_for_each, plus_group_empty_alternative_diverges;
    [apply match_inner_literal_a|apply match_inner_empty_pattern|exact Hlen].
Qed.

(** C4, at the pattern the claim names.  Whatever the recursion limit and
    the line, matching [(a|)+] ends in [RecursionError]: the empty
    alternative matches without consuming input, and [match_plus_group]
    re-enters itself on the same input before it yields anything. *)
Theorem empty_alternative_under_plus_never_returns fuel line :
  verdict heap fuel (chars "(a|)+") line = Err RecursionError.
Proof.
  rewrite verdict_heap_value.
  unfold verdict, match_pattern, init. cbn [pattern captures num_capture_groups].
  pose proof (has_match_raises_at_once fuel (count_capture_groups (chars "(a|)+")) line
                (chars "(a|)+") RecursionError (new_store [] : caps)) as Hraise.
  destruct (has_match _ _ _ _ _) as [r st]. apply Hraise.
  intros inp'. now apply match_inner_empty_alternative_diverges.
Qed.

(** ** Independence of earlier calls *)

Lemma has_match_any_heap fuel n inp pat (h1 h2 : heap) :
  (has_match fuel n inp pat h1).1 = (has_match fuel n inp pat h2).1.
Proof.
  destruct (has_match_heap_value fuel n inp pat h1 []) as (<- & _).
  destruct (has_match_heap_value fuel n inp pat h2 []) as (<- & _).
  reflexivity.
Qed.

Lemma match_pattern_fields `{!Store St} fuel (self : RegexEngine St) line :
  pattern (match_pattern fuel self line).2 = pattern self
  /\ num_capture_groups (match_pattern fuel self line).2 = num_capture_groups self.
Proof. unfold match_pattern. now destruct (has_match _ _ _ _ _). Qed.

Lemma after_calls_fields `{!Store St} earlier :
  forall self : RegexEngine St,
    pattern (after_calls self earlier) = pattern self
    /\ num_capture_groups (after_calls self earlier) = num_capture_groups self.
Proof.
  induction earlier as [|[fuel line] earlier IH]; intros self; cbn [after_calls]; [auto|].
  destruct (IH (match_pattern fuel self line).2) as [-> ->].
  apply match_pattern_fields.
Qed.

(** C8. [match_pattern] is a function of the engine and the line, and its
    verdict does not depend on what the engine did before: after any
    sequence of earlier calls on the same engine (whatever their lines,
    recursion limits and outcomes), it answers as a new engine for the same
    pattern does.  This is stated on the reference semantics of the table,
    where the earlier calls leave their list objects behind. *)
Theorem match_pattern_independent_of_earlier_calls fuel pat earlier line :
  (match_pattern fuel (after_calls (init (St := heap) pat) earlier) line).1
  = verdict heap fuel pat line.
Proof.
  unfold verdict.
  destruct (after_calls_fields earlier (init (St := heap) pat)) as [Hpat Hnum].
  unfold match_pattern. rewrite Hpat, Hnum.
  pose proof (has_match_any_heap fuel (num_capture_groups (init pat)) line
                (pattern (init pat)) (captures (after_calls (init pat) earlier))
                (captures (init pat))) as Hany.
  destruct (has_match _ _ _ _ (captures (after_calls _ _))).
  destruct (has_match _ _ _ _ (captures (init pat))).
  exact Hany.
Qed.

(** ** Malformed patterns *)

Lemma scan_bracket_no_close l p :
  ~ In "]"%char l -> scan_bracket l p = p + length l.
Proof.
  revert p. induction l as [|c l IH]; intros p Hnot; cbn [scan_bracket length]; [lia|].
  destruct (Ascii.eqb_spec c "]") as [->|_].
  - exfalso. apply Hnot. now left.
  - rewrite IH; [lia|]. intros Hin. apply Hnot. now right.
Qed.

Lemma in_drop {A} (x : A) n l : In x (drop n l) -> In x l.
Proof.
  revert l. induction n as [|n IH]; intros [|y l]; cbn; auto.
Qed.

Lemma parse_unclosed_class body :
  ~ In "]"%char body ->
  parse_expression ("["%char :: body)
  = Err (RuntimeError "Pattern missing closing bracket ']'").
Proof.
  intros Hnot. unfold parse_expression. cbn [startswith Ascii.eqb Bool.eqb andb].
  unfold parse_single_atom.
  cbn [Ascii.eqb Bool.eqb]. cbv beta iota zeta.
  set (negated := match body with [] => false | c1 :: _ => Ascii.eqb c1 "^" end).
  set (start := if negated then 2 else 1).
  assert (Hstart : 1 <= start <= 2) by (unfold start; destruct negated; lia).
  rewrite scan_bracket_no_close.
  - rewrite length_drop.
    destruct (Nat.leb_spec (length ("["%char :: body))
                (start + (length ("["%char :: body) - start))); [reflexivity|lia].
  - intros Hin. apply in_drop in Hin. destruct Hin as [Heq|Hin]; [discriminate|auto].
Qed.

Lemma paren_scan_unclosed l :
  forall i d,
    (forall k, 0 < k <= length l -> (d + paren_balance (take k l))%Z <> 0%Z) ->
    paren_scan l i d = Err (RuntimeError "Pattern missing closing parenthesis ')'").
Proof.
  induction l as [|c l IH]; intros i d Hopen; cbn [paren_scan]; [reflexivity|].
  set (d' := if Ascii.eqb c "(" then (d + 1)%Z
             else if Ascii.eqb c ")" then (d - 1)%Z else d).
  assert (Hd' : d' = (d + paren_balance [c])%Z).
  { unfold d'. cbn. destruct (Ascii.eqb c "("), (Ascii.eqb c ")"); lia. }
  destruct (Z.eqb_spec d' 0) as [Hzero|_].
  - exfalso. apply (Hopen 1); [cbn; lia|].
    change (take 1 (c :: l)) with [c]. now rewrite <- Hd'.
  - apply IH. intros k Hk. specialize (Hopen (S k)).
    change (take (S k) (c :: l)) with (c :: take k l) in Hopen.
    cbn [length paren_balance] in Hopen. cbn [paren_balance] in Hd'.
    rewrite Hd'. intros Hsum. apply Hopen; lia.
Qed.

Lemma parse_unclosed_group body :
  unclosed_group body ->
  parse_expression ("("%char :: body)
  = Err (RuntimeError "Pattern missing closing parenthesis ')'").
Proof.
  intros Hopen. unfold parse_expression, find_matching_paren.
  cbn [startswith Ascii.eqb Bool.eqb andb Nat.add drop].
  now rewrite paren_scan_unclosed.
Qed.

Lemma parse_head_malformed p :
  head_malformed p -> exists msg, parse_expression p = Err (RuntimeError msg).
Proof.
  intros [->|[(body & -> & Hnot)|(body & -> & Hopen)]].
  - eexists. reflexivity.
  - eexists. now apply parse_unclosed_class.
  - eexists. now apply parse_unclosed_group.
Qed.

Lemma match_inner_head_malformed `{!Store St} fuel inp p gc (st : St) :
  head_malformed p ->
  exists msg, match_inner (S fuel) inp p gc st = Raise (RuntimeError msg) st.
Proof.
  intros Hbad. destruct (parse_head_malformed p Hbad) as [msg Hparse].
  exists msg. cbn [match_inner]. rewrite Hparse.
  destruct p; [|reflexivity].
  destruct Hbad as [?|[(? & ? & _)|(? & ? & _)]]; discriminate.
Qed.

(** C3, the claim as it stands fails: a malformed expression that the
    matcher does not reach raises nothing.  [a\] on the line [b] and [a(b]
    on the line [x] give the verdict false, and [(a|[)] on the line [a]
    even matches. *)
Lemma malformed_pattern_without_error :
  verdict heap 5 (chars "a\") (chars "b") = Ok false
  /\ verdict heap 5 (chars "a(b") (chars "x") = Ok false
  /\ verdict heap 5 (chars "(a|[)") (chars "a") = Ok true.
Proof. repeat split; vm_compute; reflexivity. Qed.

(** C3, amended.  A malformed expression raises [RuntimeError] when the
    matcher dispatches on it: [match_inner] raises on every pattern whose
    head is malformed, whatever the input, the group counter and the table;
    therefore a pattern whose inner part (after the anchors) begins with a
    malformed expression makes [has_match] raise on every line, for any
    positive recursion limit. *)
Theorem malformed_head_raises_runtime_error fuel pat :
  head_malformed (strip_anchors pat).2 ->
  (forall inp gc (h : heap),
     exists msg,
       match_inner (S fuel) inp (strip_anchors pat).2 gc h = Raise (RuntimeError msg) h)
  /\ (forall line, exists msg, verdict heap (S fuel) pat line = Err (RuntimeError msg)).
Proof.
  intros Hbad. split.
  - intros inp gc h. now apply match_inner_head_malformed.
  - intros line. destruct (parse_head_malformed _ Hbad) as [msg Hparse].
    exists msg. unfold verdict, match_pattern, init.
    cbn [pattern captures num_capture_groups].
    pose proof (has_match_raises_at_once (St := heap) (S fuel) (count_capture_groups pat)
                  line pat (RuntimeError msg) (new_store [])) as Hraise.
    destruct (has_match _ _ _ _ _) as [r st]. apply Hraise.
    intros inp'. destruct (match_inner_head_malformed fuel inp' _ 0
                             (rebind_new (replicate (count_capture_groups pat) None)
                                (new_store [] : heap)) Hbad) as [msg' Hmsg].
    exists (rebind_new (replicate (count_capture_groups pat) None) (new_store [])).
    rewrite Hmsg. f_equal.
    cbn [match_inner] in Hmsg. rewrite Hparse in Hmsg.
    destruct ((strip_anchors pat).2); [discriminate|]. congruence.
Qed.

Lemma malformed_head_raises_runtime_error_witness :
  head_malformed (strip_anchors (chars "^[abc$")).2
  /\ exists msg, verdict heap 1 (chars "^[abc$") (chars "abc") = Err (RuntimeError msg).
Proof.
  assert (Hbad : head_malformed (strip_anchors (chars "^[abc$")).2).
  { right. left. exists (chars "abc"). split; [reflexivity|].
    cbn. intros [H|[H|[H|[]]]]; discriminate. }
  split; [exact Hbad|].
  apply (malformed_head_raises_runtime_error 0 (chars "^[abc$") Hbad).
Defined.

(** ** Backreferences *)

Lemma startswith_spec s t : startswith s t = true <-> exists u, s = t ++ u.
Proof.
  revert s. induction t as [|y t IH]; intros s; cbn [startswith].
  - split; [now exists s|reflexivity].
  - destruct s as [|x s].
    + split; [discriminate|]. intros [u Hu]. discriminate.
    + rewrite andb_true_iff, IH. split.
      * intros [Hxy [u ->]]. apply Ascii.eqb_eq in Hxy. subst. now exists u.
      * intros [u Hu]. injection Hu as -> ->. split; [apply Ascii.eqb_refl|now exists u].
Qed.

Lemma parse_backreference n tail :
  n <= 9 ->
  parse_expression ("\"%char :: digit n :: tail) = Ok (Backreference n, 2, false).
Proof.
  intros Hn. do 10 (destruct n as [|n]; [reflexivity|]). lia.
Qed.

(** The test [len(self.captures) < n or self.captures[n - 1] is None]
    for [n >= 1] reads the slot [n - 1] of the table. *)
Lemma getitem_slot {A} (l : list A) n :
  1 <= n ->
  (if length l <? n then None else getitem l (Z.of_nat n - 1)) = l !! (n - 1).
Proof.
  intros Hn. unfold getitem.
  destruct (Nat.ltb_spec (length l) n) as [Hlt|Hge].
  - symmetry. apply lookup_ge_None. lia.
  - destruct (Z.ltb_spec (Z.of_nat n - 1) 0); [lia|].
    destruct (Z.leb_spec 0 (Z.of_nat n - 1)); [|lia].
    destruct (Z.ltb_spec (Z.of_nat n - 1) (Z.of_nat (length l))); [|lia].
    cbn [andb]. f_equal. lia.
Qed.

Section BackreferenceDispatch.
Context {St : Type} `{!Store St}.

Lemma match_inner_backreference fuel inp n tail gc (st : St) :
  1 <= n <= 9 ->
  let pattern := "\"%char :: digit n :: tail in
  let rest := rest_after pattern 2 (quantifier_at pattern 2) in
  match_inner (S fuel) inp pattern gc st
  = match table st !! (n - 1) with
    | Some (Some s) =>
        if startswith inp s
        then for_each (match_inner fuel (drop (length s) inp) rest gc st)
               (reyield (length s)) Stop
        else Stop st
    | _ => Stop st
    end.
Proof.
  intros [Hn1 Hn9] pattern rest. subst pattern rest. cbn [match_inner].
  rewrite parse_backreference by assumption. cbv beta iota.
  rewrite <- (getitem_slot (table st) n Hn1).
  destruct (length (table st) <? n) eqn:Hlen; [reflexivity|].
  destruct (getitem (table st) (Z.of_nat n - 1)) as [[s|]|] eqn:Hget; try reflexivity.
  exfalso. pose proof (getitem_slot (table st) n Hn1) as Hslot.
  rewrite Hlen, Hget in Hslot. symmetry in Hslot. apply lookup_ge_None in Hslot.
  apply Nat.ltb_ge in Hlen. lia.
Qed.
End BackreferenceDispatch.

Lemma items_of_reyield {St} n (o : outcome St) :
  items_of (for_each o (reyield n) Stop)
  = map (fun '(r, rest_counter) => (n + r, rest_counter)) (items_of o).
Proof.
  induction o as [st|[r rest_counter] st k IH|e st]; cbn [for_each items_of map reyield];
    [reflexivity| |reflexivity].
  f_equal. apply IH.
Qed.

(** C6. When the matcher dispatches on the backreference [\n], [n] from 1
    to 9, with the table [st]: if the slot [n] is beyond the table or unset,
    the generator stops at once, without an item and without an exception;
    if the slot holds [s] and the input is [s ++ u], it runs the remaining
    pattern on [u] and its items are [(len(s) + r, counter)] for the items
    [(r, counter)] of the remaining pattern on [u], one for one and in
    their order; if the slot holds [s] and the input does not begin with
    [s], it stops at once.  The remaining pattern is what follows the
    backreference and the quantifier character after it, if there is one.
    It holds for both semantics of the table. *)
Theorem backreference_semantics `{!Store St} fuel inp n tail gc (st : St) :
  1 <= n <= 9 ->
  let pattern := "\"%char :: digit n :: tail in
  let rest := rest_after pattern 2 (quantifier_at pattern 2) in
  (table st !! (n - 1) = None \/ table st !! (n - 1) = Some None ->
   match_inner (S fuel) inp pattern gc st = Stop st)
  /\ (forall s u,
        table st !! (n - 1) = Some (Some s) -> inp = s ++ u ->
        match_inner (S fuel) inp pattern gc st
        = for_each (match_inner fuel u rest gc st) (reyield (length s)) Stop)
  /\ (forall s u,
        table st !! (n - 1) = Some (Some s) -> inp = s ++ u ->
        items_of (match_inner (S fuel) inp pattern gc st)
        = map (fun '(r, rest_counter) => (length s + r, rest_counter))
            (items_of (match_inner fuel u rest gc st)))
  /\ (forall s,
        table st !! (n - 1) = Some (Some s) -> ~ (exists u, inp = s ++ u) ->
        match_inner (S fuel) inp pattern gc st = Stop st).
Proof.
  intros Hn pattern rest.
  pose proof (match_inner_backreference fuel inp n tail gc st Hn) as Heq.
  cbv zeta in Heq. fold pattern in Heq. fold rest in Heq.
  assert (Hbegins : forall s u,
            table st !! (n - 1) = Some (Some s) -> inp = s ++ u ->
            match_inner (S fuel) inp pattern gc st
            = for_each (match_inner fuel u rest gc st) (reyield (length s)) Stop).
  { intros s u Hslot ->. rewrite Heq, Hslot.
    destruct (startswith (s ++ u) s) eqn:Hstart.
    + now rewrite drop_app_length.
    + exfalso. apply not_true_iff_false in Hstart. apply Hstart.
      apply startswith_spec. now exists u. }
  split; [|split; [|split]].
  - intros [Hslot|Hslot]; rewrite Heq, Hslot; reflexivity.
  - exact Hbegins.
  - intros s u Hslot Hinp. rewrite (Hbegins s u Hslot Hinp). apply items_of_reyield.
  - intros s Hslot Hnot. rewrite Heq, Hslot.
    destruct (startswith inp s) eqn:Hstart; [|reflexivity].
    exfalso. apply Hnot. now apply startswith_spec.
Qed.

Lemma backreference_semantics_witness :
  1 <= 1 <= 9
  /\ items_of (match_inner (S 3) (chars "ababcab") ("\"%char :: digit 1 :: chars "+.*b") 1
                [Some (chars "ab")])
     = [(2 + 5, 1); (2 + 2, 1)].
Proof.
  assert (Hn : 1 <= 1 <= 9) by lia. split; [exact Hn|].
  pose proof (backreference_semantics (St := caps) 3 (chars "ababcab") 1 (chars "+.*b") 1
                [Some (chars "ab")] Hn) as H.
  cbv zeta in H. destruct H as (_ & _ & Hitems & _).
  rewrite (Hitems (chars "ab") (chars "abcab") eq_refl eq_refl).
  vm_compute. reflexivity.
Defined.

(** ** Greedy enumeration for quantified atoms *)

Lemma greedy_reps_leading match_fn l reps :
  greedy_reps match_fn l reps = reps + leading match_fn l.
Proof.
  revert reps. induction l as [|c l IH]; intros reps; cbn; [lia|].
  destruct (match_fn c); [rewrite IH|]; lia.
Qed.

Lemma leading_all match_fn l :
  Forall (fun c => match_fn c = true) (take (leading match_fn l) l).
Proof.
  induction l as [|c l IH]; cbn; [constructor|].
  destruct (match_fn c) eqn:Hc; cbn; constructor; assumption.
Qed.

Lemma leading_stops match_fn l c :
  l !! leading match_fn l = Some c -> match_fn c = false.
Proof.
  induction l as [|c0 l IH]; cbn; [discriminate|].
  destruct (match_fn c0) eqn:Hc0; cbn; [exact IH|congruence].
Qed.

Lemma range_down_to_1_counts k : range_down_to_1 k = counts_down k 1.
Proof.
  unfold counts_down. replace (k + 1 - 1) with k by lia.
  induction k as [|k IH]; [reflexivity|].
  cbn [range_down_to_1]. rewrite seq_S, rev_app_distr, <- IH. reflexivity.
Qed.

Lemma range_down_to_0_counts k : range_down_to_0 k = counts_down k 0.
Proof.
  unfold range_down_to_0, counts_down. rewrite range_down_to_1_counts.
  unfold counts_down. replace (k + 1 - 1) with k by lia.
  replace (k + 1 - 0) with (S k) by lia. reflexivity.
Qed.

Lemma counts_down_split hi lo j :
  lo <= j <= hi ->
  counts_down hi lo = counts_down hi (S j) ++ j :: rev (seq lo (j - lo)).
Proof.
  intros Hj. unfold counts_down.
  replace (hi + 1 - lo) with ((j - lo) + S (hi - j)) by lia.
  rewrite seq_app. replace (lo + (j - lo)) with j by lia.
  cbn [seq]. rewrite rev_app_distr. cbn [rev].
  replace (hi + 1 - S j) with (hi - j) by lia.
  now rewrite <- app_assoc.
Qed.

Lemma in_counts_down hi lo k' : In k' (counts_down hi lo) -> lo <= k' <= hi.
Proof. unfold counts_down. rewrite <- in_rev, in_seq. lia. Qed.

Section GreedyAtoms.
Context {St : Type} `{!Store St}.
Variables (fuel : nat) (inp pat : str) (gc : nat).
Variables (e : expr) (expr_len : nat) (negated : bool) (match_fn : ascii -> bool).
Hypothesis parsed : parse_expression pat = Ok (e, expr_len, negated).
Hypothesis predicate : get_match_fn e negated = Some match_fn.

Lemma match_inner_atom :
  match_inner (St := St) (S fuel) inp pat gc
  = let first_matches := match inp with c :: _ => match_fn c | [] => false end in
    let rest_of_pattern := rest_after pat expr_len (quantifier_at pat expr_len) in
    match quantifier_at pat expr_len with
    | None => fun st =>
        if first_matches
        then for_each (match_inner fuel (drop 1 inp) rest_of_pattern gc st) (reyield 1) Stop
        else Stop st
    | Some q =>
        if Ascii.eqb q "+" then
          if negb first_matches then Stop
          else for_list (range_down_to_1 (greedy_reps match_fn (drop 1 inp) 1))
                 (fun curr_reps next_reps st =>
                    for_each (match_inner fuel (drop curr_reps inp) rest_of_pattern gc st)
                      (reyield curr_reps) next_reps)
                 Stop
        else if Ascii.eqb q "?" then
          let zero_times : gen St := fun st =>
            for_each (match_inner fuel inp rest_of_pattern gc st) (reyield 0) Stop in
          fun st =>
            if first_matches
            then for_each (match_inner fuel (drop 1 inp) rest_of_pattern gc st)
                   (reyield 1) zero_times
            else zero_times st
        else if Ascii.eqb q "*" then
          for_list (range_down_to_0 (greedy_reps match_fn inp 0))
            (fun curr_reps next_reps st =>
               for_each (match_inner fuel (drop curr_reps inp) rest_of_pattern gc st)
                 (reyield curr_reps) next_reps)
            Stop
        else Stop
    end.
Proof.
  cbn [match_inner]. destruct pat as [|p0 pat']; [discriminate|].
  rewrite parsed. cbv beta iota.
  destruct e; try discriminate; rewrite predicate; reflexivity.
Qed.

Lemma match_inner_atom_plus :
  quantifier_at pat expr_len = Some "+"%char ->
  match_inner (S fuel) inp pat gc
  = greedy_enumeration fuel inp (drop (expr_len + 1) pat) gc (leading match_fn inp) 1.
Proof.
  intros Hq. rewrite match_inner_atom, Hq. cbv zeta. cbn [Ascii.eqb Bool.eqb].
  unfold greedy_enumeration, rest_after.
  destruct inp as [|c inp']; [reflexivity|]. cbn [leading negb].
  destruct (match_fn c); [|reflexivity]. cbn [negb drop].
  now rewrite greedy_reps_leading, range_down_to_1_counts.
Qed.

Lemma match_inner_atom_star :
  quantifier_at pat expr_len = Some "*"%char ->
  match_inner (S fuel) inp pat gc
  = greedy_enumeration fuel inp (drop (expr_len + 1) pat) gc (leading match_fn inp) 0.
Proof.
  intros Hq. rewrite match_inner_atom, Hq. cbv zeta. cbn [Ascii.eqb Bool.eqb].
  unfold greedy_enumeration, rest_after.
  now rewrite greedy_reps_leading, range_down_to_0_counts.
Qed.
End GreedyAtoms.

Lemma first_item_after_stops fuel inp rest gc (c : caps) counts j counts' r cnt :
  (forall k', In k' counts -> stops (match_inner fuel (drop k' inp) rest gc c)) ->
  first_item (match_inner fuel (drop j inp) rest gc c) = Some (r, cnt) ->
  first_item
    (for_list (counts ++ j :: counts')
       (fun k' next st =>
          for_each (match_inner fuel (drop k' inp) rest gc st) (reyield k') next)
       Stop c)
  = Some (j + r, cnt).
Proof.
  intros Hstops Hfirst. induction counts as [|k0 counts IH]; cbn [app for_list].
  - destruct (match_inner fuel (drop j inp) rest gc c) as [|[r' cnt'] c1 k|]; try discriminate.
    cbn in Hfirst |- *. congruence.
  - rewrite (match_inner_stops_with_table fuel (drop k0 inp) rest gc c)
      by (apply Hstops; now left).
    cbn [for_each]. apply IH. intros k' Hk'. apply Hstops. now right.
Qed.

(** C5. Let the pattern begin with an atom of predicate [match_fn]
    followed by a quantifier, and let [k] be the number of leading
    characters of the input that satisfy [match_fn]: they all do, and the
    character after them, if any, does not.  Under [+] the generator
    enumerates, for [k'] from [k] down to 1, the items [k' + r] for the
    items [r] of the remaining pattern on [input[k':]] (so nothing when
    the first character fails, [k = 0]); under [*] the same from [k] down
    to 0.  Hence the first item uses the largest repetition count [j] for
    which the remaining pattern has an item: if it has none for the counts
    above [j] and its first item at [j] is [r], the first item of the
    enumeration is [j + r]. *)
Theorem greedy_first_atom_quantifiers fuel inp pat gc e expr_len negated match_fn :
  parse_expression pat = Ok (e, expr_len, negated) ->
  get_match_fn e negated = Some match_fn ->
  let k := leading match_fn inp in
  let rest := drop (expr_len + 1) pat in
  (Forall (fun c => match_fn c = true) (take k inp)
   /\ forall c, inp !! k = Some c -> match_fn c = false)
  /\ (quantifier_at pat expr_len = Some "+"%char ->
      forall St (HSt : Store St),
        match_inner (St := St) (S fuel) inp pat gc = greedy_enumeration fuel inp rest gc k 1)
  /\ (quantifier_at pat expr_len = Some "*"%char ->
      forall St (HSt : Store St),
        match_inner (St := St) (S fuel) inp pat gc = greedy_enumeration fuel inp rest gc k 0)
  /\ (forall lo j r cnt (c : caps),
        lo <= j <= k ->
        (forall k', j < k' <= k -> stops (match_inner fuel (drop k' inp) rest gc c)) ->
        first_item (match_inner fuel (drop j inp) rest gc c) = Some (r, cnt) ->
        first_item (greedy_enumeration fuel inp rest gc k lo c) = Some (j + r, cnt)).
Proof.
  intros Hparse Hfn k rest. split; [|split; [|split]].
  - split; [apply leading_all|apply leading_stops].
  - intros Hq St HSt. now apply match_inner_atom_plus with (e := e) (negated := negated).
  - intros Hq St HSt. now apply match_inner_atom_star with (e := e) (negated := negated).
  - intros lo j r cnt c Hj Hstops Hfirst. unfold greedy_enumeration.
    rewrite (counts_down_split k lo j Hj).
    apply first_item_after_stops; [|exact Hfirst].
    intros k' Hk'. apply in_counts_down in Hk'. apply Hstops. lia.
Qed.

Lemma greedy_first_atom_quantifiers_witness :
  parse_expression (chars "a+ab") = Ok (Literal "a", 1, false)
  /\ get_match_fn (Literal "a") false = Some (fun c => Ascii.eqb c "a")
  /\ first_item (match_inner (St := caps) 5 (chars "aaab") (chars "a+ab") 0 [])
     = Some (4, 0).
Proof.
  split; [reflexivity|]. split; [reflexivity|].
  pose proof (greedy_first_atom_quantifiers 4 (chars "aaab") (chars "a+ab") 0
                (Literal "a") 1 false (fun c => Ascii.eqb c "a") eq_refl eq_refl)
    as (_ & Hplus & _ & Hfirst).
  rewrite (Hplus eq_refl caps _).
  apply (Hfirst 1 2 2 0 []).
  - cbn. lia.
  - intros k' Hk'. assert (k' = 3) as -> by (cbn in Hk'; lia).
    eexists. vm_compute. reflexivity.
  - vm_compute. reflexivity.
Defined.

(** ** [+] against [*] at the end of a pattern *)

Section PlusAgainstStar.
Context {St : Type} `{!Store St}.

Lemma yields_or_same_refl (o : outcome St) : yields_or_same o o.
Proof. now destruct o. Qed.

Lemma yields_or_same_tail (o1 o2 : outcome St) n k1 k2 :
  yields_or_same o1 o2 ->
  (forall st, yields_or_same (k1 st) (k2 st)) ->
  yields_or_same (for_each o1 (reyield n) k1) (for_each o2 (reyield n) k2).
Proof.
  intros Ho Hk. destruct o2 as [st|[r cnt] st k|err st]; cbn in Ho; subst; cbn; auto.
Qed.

Lemma yields_or_same_step fuel inp pat1 pat2 gc e expr_len negated quantifier rest1 rest2 st :
  pat1 <> [] -> pat2 <> [] ->
  parse_expression pat1 = Ok (e, expr_len, negated) ->
  parse_expression pat2 = Ok (e, expr_len, negated) ->
  quantifier_at pat1 expr_len = quantifier ->
  quantifier_at pat2 expr_len = quantifier ->
  rest_after pat1 expr_len quantifier = rest1 ->
  rest_after pat2 expr_len quantifier = rest2 ->
  (forall inp' gc' st',
     yields_or_same (match_inner fuel inp' rest1 gc' st') (match_inner fuel inp' rest2 gc' st')) ->
  yields_or_same (match_inner (S fuel) inp pat1 gc st) (match_inner (S fuel) inp pat2 gc st).
Proof.
  apply (related_step yields_or_same yields_or_same_refl yields_or_same_tail).
Qed.
End PlusAgainstStar.

Lemma ends_in_atom_nonempty d X : ends_in_atom d X -> X <> [].
Proof. destruct 1; intros ->; discriminate. Qed.

Lemma counts_down_head k : counts_down k 0 = k :: rev (seq 0 k).
Proof.
  unfold counts_down. replace (k + 1 - 0) with (S k) by lia.
  now rewrite seq_S, rev_app_distr.
Qed.

Lemma snoc_nonempty {A} (X : list A) q : X ++ [q] <> [].
Proof. now destruct X. Qed.

Section PlusAgainstStarPatterns.
Context {St : Type} `{!Store St}.

(** With enough recursion depth for the [d] expressions of [X] and the
    empty remainder, [X+] and [X*] go the same way until [X*] yields. *)
Lemma plus_star_lockstep d X :
  ends_in_atom d X ->
  forall fuel inp gc (st : St),
    d < fuel ->
    yields_or_same (match_inner fuel inp (X ++ chars "+") gc st)
                   (match_inner fuel inp (X ++ chars "*") gc st).
Proof.
  induction 1 as [X e negated Hparse Hatom|d X e expr_len negated Hparse Hrest IH];
    intros fuel inp gc st Hfuel.
  - destruct fuel as [|[|fuel]]; try lia.
    destruct (parse_expression_app X (chars "+") _ _ _ Hparse) as [_ Hplus].
    destruct (parse_expression_app X (chars "*") _ _ _ Hparse) as [_ Hstar].
    assert (Hqplus : quantifier_at (X ++ chars "+") (length X) = Some "+"%char).
    { unfold quantifier_at. rewrite lookup_app_r, Nat.sub_diag by lia. reflexivity. }
    assert (Hqstar : quantifier_at (X ++ chars "*") (length X) = Some "*"%char).
    { unfold quantifier_at. rewrite lookup_app_r, Nat.sub_diag by lia. reflexivity. }
    assert (Hrplus : drop (length X + 1) (X ++ chars "+") = []).
    { apply drop_ge. rewrite length_app. cbn. lia. }
    assert (Hrstar : drop (length X + 1) (X ++ chars "*") = []).
    { apply drop_ge. rewrite length_app. cbn. lia. }
    destruct (get_match_fn e negated) as [match_fn|] eqn:Hfn.
    + rewrite (match_inner_atom_plus (S fuel) inp _ gc e _ negated match_fn Hplus Hfn Hqplus).
      rewrite (match_inner_atom_star (S fuel) inp _ gc e _ negated match_fn Hstar Hfn Hqstar).
      rewrite Hrplus, Hrstar. unfold greedy_enumeration at 2.
      rewrite counts_down_head. reflexivity.
    + destruct e as [ref_num|[|]| | | |alternatives]; try discriminate;
        [|exfalso; eapply Hatom; reflexivity].
      pose proof (snoc_nonempty X "+"%char) as Hne1.
      pose proof (snoc_nonempty X "*"%char) as Hne2.
      unfold chars in *. cbn [list_ascii_of_string] in *.
      destruct (X ++ ["+"%char]) as [|x1 pat1] eqn:E1; [congruence|].
      destruct (X ++ ["*"%char]) as [|x2 pat2] eqn:E2; [congruence|].
      cbn [match_inner]. rewrite Hplus, Hstar. cbv beta iota.
      rewrite Hqplus, Hqstar. unfold rest_after. rewrite Hrplus, Hrstar.
      apply yields_or_same_refl.
  - destruct fuel as [|fuel]; [lia|].
    pose proof (ends_in_atom_nonempty _ _ Hrest) as Hne.
    pose proof (rest_after_nonempty _ _ Hne) as Hlen.
    destruct (parse_expression_app X (chars "+") _ _ _ Hparse) as [_ Hplus].
    destruct (parse_expression_app X (chars "*") _ _ _ Hparse) as [_ Hstar].
    eapply yields_or_same_step with (quantifier := quantifier_at X expr_len);
      try eassumption; try apply snoc_nonempty.
    + apply quantifier_at_app. lia.
    + apply quantifier_at_app. lia.
    + apply rest_after_app. lia.
    + apply rest_after_app. lia.
    + intros inp' gc' st'. apply IH. lia.
Qed.

Lemma no_item_tail (o : outcome St) n k :
  first_item o = None ->
  (forall st, first_item (k st) = None) ->
  first_item (for_each o (reyield n) k) = None.
Proof. destruct o as [st|v st k'|err st]; cbn; auto. discriminate. Qed.

Lemma no_item_for_each (o : outcome St) body after :
  (forall v resume st,
     (forall st', first_item (resume st') = None) -> first_item (body v resume st) = None) ->
  (forall st, first_item (after st) = None) ->
  first_item (for_each o body after) = None.
Proof. intros Hbody Hafter. induction o as [st|v st k IH|err st]; cbn; auto. Qed.

Lemma no_item_counts counts (g : nat -> gen St) :
  (forall k st, first_item (g k st) = None) ->
  forall st,
    first_item
      (for_list counts (fun k next st => for_each (g k st) (reyield k) next) Stop st) = None.
Proof.
  intros Hg. induction counts as [|k counts IH]; intros st; cbn [for_list]; [reflexivity|].
  apply no_item_tail; auto.
Qed.

(** If the remaining pattern never yields at once, neither does the
    pattern. *)
Lemma no_item_step fuel inp pat gc e expr_len negated (st : St) :
  pat <> [] ->
  parse_expression pat = Ok (e, expr_len, negated) ->
  (forall inp' gc' st',
     first_item (match_inner fuel inp'
                   (rest_after pat expr_len (quantifier_at pat expr_len)) gc' st') = None) ->
  first_item (match_inner (S fuel) inp pat gc st) = None.
Proof.
  intros Hne Hparse Hrec. destruct pat as [|x pat]; [congruence|].
  cbn [match_inner]. rewrite Hparse.
  set (quantifier := quantifier_at (x :: pat) expr_len) in *.
  set (rest := rest_after (x :: pat) expr_len quantifier) in *.
  assert (Hnext : forall n inp' gc' st' k,
             (forall st, first_item (k st) = None) ->
             first_item (for_each (match_inner fuel inp' rest gc' st') (reyield n) k) = None)
    by (intros; now apply no_item_tail).
  assert (Hgroup : forall (o : outcome St) after,
             (forall st, first_item (after st) = None) ->
             first_item
               (for_each o
                  (fun '(match_len, next_counter) resume st =>
                     for_each (match_inner fuel (drop match_len inp) rest next_counter st)
                       (reyield match_len) resume)
                  after) = None).
  { intros o after Hafter. apply no_item_for_each; [|exact Hafter].
    intros [match_len next_counter] resume st' Hresume. now apply Hnext. }
  destruct e as [ref_num|kind|ch|class_str| |alternatives]; [ | | | | |cbv zeta].
  1: { destruct (length (table st) <? ref_num); [reflexivity|].
       destruct (getitem (table st) (Z.of_nat ref_num - 1)) as [[captured_text|]|];
         try reflexivity.
       destruct (startswith inp captured_text); [|reflexivity].
       now apply Hnext. }
  5: { destruct quantifier as [q|].
       - destruct (Ascii.eqb q "?"); [|destruct (Ascii.eqb q "+"); [|reflexivity]].
         + apply Hgroup. intros st'. now apply Hnext.
         + now apply Hgroup.
       - now apply Hgroup. }
  all: destruct (get_match_fn _ negated) as [match_fn|]; [|reflexivity].
  all: set (first_matches := match inp with [] => false | c0 :: _ => match_fn c0 end).
  all: destruct quantifier as [q|];
    [|destruct first_matches; [now apply Hnext|reflexivity]].
  all: destruct (Ascii.eqb q "+");
    [destruct (negb first_matches); [reflexivity|];
     apply no_item_counts; intros; apply Hrec|].
  all: destruct (Ascii.eqb q "?");
    [|destruct (Ascii.eqb q "*"); [|reflexivity];
      apply no_item_counts; intros; apply Hrec].
  all: destruct first_matches; apply Hnext; intros st'; try apply Hnext; auto.
Qed.

(** Without that depth nothing is ever yielded. *)
Lemma low_fuel_no_item d X :
  ends_in_atom d X ->
  forall fuel s inp gc (st : St),
    fuel <= d -> first_item (match_inner fuel inp (X ++ s) gc st) = None.
Proof.
  induction 1 as [X e negated Hparse Hatom|d X e expr_len negated Hparse Hrest IH];
    intros fuel s inp gc st Hfuel.
  - destruct fuel as [|[|fuel]]; [reflexivity| |lia].
    destruct (parse_expression_app X s _ _ _ Hparse) as [_ Hparse'].
    eapply no_item_step; [|exact Hparse'|reflexivity].
    intros Hnil. apply app_eq_nil in Hnil as [-> _]. discriminate.
  - destruct fuel as [|fuel]; [reflexivity|].
    pose proof (ends_in_atom_nonempty _ _ Hrest) as Hne.
    pose proof (rest_after_nonempty _ _ Hne) as Hlen.
    destruct (parse_expression_app X s _ _ _ Hparse) as [_ Hparse'].
    eapply no_item_step; [|exact Hparse'|].
    + intros Hnil. apply app_eq_nil in Hnil as [-> _]. discriminate.
    + intros inp' gc' st'. rewrite quantifier_at_app by lia.
      rewrite rest_after_app by lia. apply IH. lia.
Qed.

Lemma try_offsets_yields_or_same fuel inp inner1 inner2 offsets :
  (forall i (st : St),
     yields_or_same (match_inner fuel (drop i inp) inner1 0 st)
                    (match_inner fuel (drop i inp) inner2 0 st)) ->
  forall st,
    (try_offsets fuel false inp inner1 offsets st).1 = Ok true ->
    (try_offsets fuel false inp inner2 offsets st).1 = Ok true.
Proof.
  intros Hrel. induction offsets as [|i offsets IH]; intros st; cbn [try_offsets]; [auto|].
  unfold attempt. specialize (Hrel i st).
  destruct (match_inner fuel (drop i inp) inner2 0 st) as [st2|v2 st2 k2|err2 st2];
    cbn in Hrel; [rewrite Hrel|reflexivity|rewrite Hrel]; cbn; auto.
Qed.

Lemma try_offsets_no_item fuel inp inner offsets :
  (forall i (st : St), first_item (match_inner fuel (drop i inp) inner 0 st) = None) ->
  forall st, (try_offsets fuel false inp inner offsets st).1 <> Ok true.
Proof.
  intros Hnone. induction offsets as [|i offsets IH]; intros st; cbn [try_offsets];
    [discriminate|].
  unfold attempt. specialize (Hnone i st).
  destruct (match_inner fuel (drop i inp) inner 0 st) as [st2|v2 st2 k2|err2 st2];
    cbn in Hnone |- *; [apply IH|discriminate|discriminate].
Qed.
End PlusAgainstStarPatterns.

Lemma count_capture_groups_cons c tl :
  count_capture_groups (c :: tl)
  = if Ascii.eqb c "\" then match tl with [] => 0 | _ :: tl' => count_capture_groups tl' end
    else if Ascii.eqb c "(" then S (count_capture_groups tl)
    else count_capture_groups tl.
Proof. reflexivity. Qed.

Lemma count_capture_groups_snoc q1 q2 :
  is_quantifier q1 = true -> is_quantifier q2 = true ->
  forall p,
    count_capture_groups (p ++ [q1]) = count_capture_groups (p ++ [q2])
    /\ forall c, count_capture_groups (c :: p ++ [q1]) = count_capture_groups (c :: p ++ [q2]).
Proof.
  intros Hq1 Hq2.
  assert (Hlast : forall q, is_quantifier q = true -> count_capture_groups [q] = 0).
  { intros q Hq. rewrite count_capture_groups_cons.
    destruct (Ascii.eqb q "\") eqn:E1;
      [apply Ascii.eqb_eq in E1; subst q; discriminate|].
    destruct (Ascii.eqb q "(") eqn:E2;
      [apply Ascii.eqb_eq in E2; subst q; discriminate|reflexivity]. }
  induction p as [|c0 p [IH1 IH2]].
  - split; [cbn [app]; now rewrite !Hlast|].
    intros c. cbn [app]. rewrite !(count_capture_groups_cons c).
    destruct (Ascii.eqb c "\"); [reflexivity|]. now rewrite !Hlast.
  - split; [apply IH2|].
    intros c. cbn [app]. rewrite !(count_capture_groups_cons c).
    destruct (Ascii.eqb c "\"); [exact IH1|].
    specialize (IH2 c0).
    destruct (Ascii.eqb c "("); [f_equal|]; exact IH2.
Qed.

Lemma strip_anchors_snoc p q :
  p <> [] -> Ascii.eqb q "$" = false ->
  strip_anchors (p ++ [q]) = (startswith p ["^"%char], false, unanchored p ++ [q]).
Proof.
  intros Hne Hq. unfold strip_anchors, unanchored, endswith_char.
  rewrite last_snoc, Hq.
  destruct p as [|c p]; [congruence|]. cbn [app startswith].
  destruct (Ascii.eqb c "^"); reflexivity.
Qed.

Lemma verdict_value_plus_implies_star fuel p line d :
  ends_in_atom d (unanchored p) ->
  verdict caps fuel (p ++ chars "+") line = Ok true ->
  verdict caps fuel (p ++ chars "*") line = Ok true.
Proof.
  intros Hends.
  assert (Hp : p <> []).
  { intros ->. apply ends_in_atom_nonempty in Hends. now apply Hends. }
  unfold verdict, match_pattern, init, has_match.
  cbn [pattern captures num_capture_groups].
  unfold chars. cbn [list_ascii_of_string].
  rewrite !strip_anchors_snoc by (assumption || reflexivity).
  rewrite (proj1 (count_capture_groups_snoc "+" "*" eq_refl eq_refl p)).
  generalize (@rebind_new _ value_store
                (replicate (count_capture_groups (p ++ ["*"%char])) None) (new_store [])).
  intros st.
  destruct (Nat.le_gt_cases fuel d) as [Hlow|Hfuel].
  - (* too little depth for any item *)
    intros Htrue. exfalso.
    pose proof (fun i st => low_fuel_no_item (St := caps) d _ Hends fuel ["+"%char]
                              (drop i line) 0 st Hlow) as Hnone.
    destruct (startswith p ["^"%char]).
    + unfold attempt in Htrue. specialize (Hnone 0 st).
      destruct (match_inner fuel (drop 0 line) (unanchored p ++ ["+"%char]) 0 st);
        cbn in *; congruence.
    + pose proof (try_offsets_no_item fuel line _ (seq 0 (length line + 1)) Hnone st) as Hno.
      destruct (try_offsets _ _ _ _ _ _). cbn in *. congruence.
  - pose proof (fun i st => plus_star_lockstep (St := caps) d _ Hends fuel
                              (drop i line) 0 st Hfuel) as Hrel.
    unfold chars in Hrel. cbn [list_ascii_of_string] in Hrel.
    destruct (startswith p ["^"%char]).
    + unfold attempt. specialize (Hrel 0 st).
      destruct (match_inner fuel (drop 0 line) (unanchored p ++ ["*"%char]) 0 st);
        cbn in Hrel; [rewrite Hrel|reflexivity|rewrite Hrel]; cbn; auto.
    + pose proof (try_offsets_yields_or_same fuel line _ _ (seq 0 (length line + 1)) Hrel st)
        as Himp.
      destruct (try_offsets fuel false line (unanchored p ++ ["+"%char]) _ st).
      destruct (try_offsets fuel false line (unanchored p ++ ["*"%char]) _ st).
      cbn in *. exact Himp.
Qed.

(** C2, the claim as it stands fails when [p] is a group: [*] after a
    group is none of the quantifiers the group branch handles, so [(a)*]
    matches nothing, while [(a)+] matches the line [a]. *)
Lemma plus_without_star_on_group :
  verdict heap 9 (chars "(a)" ++ chars "+") (chars "a") = Ok true
  /\ verdict heap 9 (chars "(a)" ++ chars "*") (chars "a") = Ok false.
Proof. split; vm_compute; reflexivity. Qed.

(** C2, amended.  Let the pattern [p], without its start anchor, be a
    sequence of expressions of which the last is an atom or a backreference
    without a quantifier.  Then on every line and with every recursion
    limit, if [p+] matches, so does [p*]. *)
Theorem plus_implies_star_after_atom fuel p line d :
  ends_in_atom d (unanchored p) ->
  verdict heap fuel (p ++ chars "+") line = Ok true ->
  verdict heap fuel (p ++ chars "*") line = Ok true.
Proof.
  intros Hends. rewrite !verdict_heap_value.
  now apply verdict_value_plus_implies_star with (d := d).
Qed.

Lemma plus_implies_star_after_atom_witness :
  ends_in_atom 2 (unanchored (chars "^x[ab]"))
  /\ verdict heap 7 (chars "^x[ab]" ++ chars "+") (chars "xba!") = Ok true
  /\ verdict heap 7 (chars "^x[ab]" ++ chars "*") (chars "xba!") = Ok true.
Proof.
  assert (Hends : ends_in_atom 2 (unanchored (chars "^x[ab]"))).
  { eapply ends_in_atom_later with (e := Literal "x") (expr_len := 1) (negated := false);
      [reflexivity|].
    eapply ends_in_atom_last with (e := Class (chars "ab")) (negated := false);
      [reflexivity|discriminate]. }
  assert (Hplus : verdict heap 7 (chars "^x[ab]" ++ chars "+") (chars "xba!") = Ok true)
    by (vm_compute; reflexivity).
  split; [exact Hends|]. split; [exact Hplus|].
  exact (plus_implies_star_after_atom 7 (chars "^x[ab]") (chars "xba!") 2 Hends Hplus).
Defined.

(** ** Capture assignments are path-local *)

Lemma sim_ends_at h0 c oh ov : sim h0 oh ov -> ends_at c ov -> heap_ends_at c oh.
Proof.
  intros Hsim. induction Hsim as [h Hh|v h kh kv Hh _ IH|e h Hh]; intros Hends.
  - inversion Hends. now constructor.
  - inversion Hends as [|v' c1 k' Hk|]; subst. constructor.
    intros h' Hh'. apply IH; [assumption|]. apply Hk.
  - constructor.
Qed.

(** A loop whose generator gives the table [c] back goes on, after the
    loop, from [c]. *)
Lemma for_each_after_ends_at c (o : outcome caps) body after :
  ends_at c o -> for_each o body after = for_each o body (fun _ => after c).
Proof.
  induction 1 as [|v c1 k _ IH|e c1]; cbn; [reflexivity| |reflexivity].
  f_equal. apply functional_extensionality. exact IH.
Qed.

Section PathLocalValue.
Variable rec : str -> str -> nat -> gen caps.
Variable alternatives : list str.
Variable this_group_num : nat.

(** The alternatives are explored one after the other, each from the
    table [c] the group was entered with. *)
Lemma group_content_once_unfold alt alts inp gc (c : caps) :
  match_group_content_once rec (alt :: alts) this_group_num inp gc c
  = for_each (rec inp alt gc c)
      (fun '(alt_len, alt_counter) resume st =>
         match setitem (this_group_num - 1) (Some (take alt_len inp)) st with
         | Some st' => Yield (alt_len, alt_counter) st' resume
         | None => Raise IndexError st
         end)
      (fun _ => match_group_content_once rec alts this_group_num inp gc c).
Proof. reflexivity. Qed.

(** The next iterations are explored from the table [c1] that the
    iteration just matched has left, and the item that ends the
    repetition there is yielded with [c1] again. *)
Lemma plus_group_unfold depth inp gc (c : caps) :
  match_plus_group rec alternatives this_group_num (S depth) inp gc c
  = for_each (match_group_content_once rec alternatives this_group_num inp gc c)
      (fun '(one_len, one_counter) resume c1 =>
         for_each (match_plus_group rec alternatives this_group_num depth
                     (drop one_len inp) gc c1)
           (reyield one_len)
           (fun _ => Yield (one_len, one_counter) c1 resume))
      Stop.
Proof. reflexivity. Qed.
End PathLocalValue.

(** What the alternatives of a group do depends on the recursive calls
    only through what these do when started with the table [c]: they are
    never started with another table. *)
Lemma group_content_once_entered_with rec rec' alternatives this_group_num inp gc (c : caps) :
  (forall alt, rec' inp alt gc c = rec inp alt gc c) ->
  match_group_content_once rec' alternatives this_group_num inp gc c
  = match_group_content_once rec alternatives this_group_num inp gc c.
Proof.
  intros Hrec. induction alternatives as [|alt alts IH]; [reflexivity|].
  rewrite !group_content_once_unfold, Hrec, IH. reflexivity.
Qed.

(** A group under [?]: the zero-match branch is entered with the table
    [c] the group was entered with. *)
Lemma optional_group_zero_branch fuel inp pat gc alternatives expr_len negated (c : caps) :
  parse_expression pat = Ok (Group alternatives, expr_len, negated) ->
  quantifier_at pat expr_len = Some "?"%char ->
  let rest := drop (expr_len + 1) pat in
  match_inner (S fuel) inp pat gc c
  = for_each
      (match_group_content_once (match_inner fuel) alternatives (gc + 1) inp (gc + 1) c)
      (fun '(match_len, next_counter) resume st =>
         for_each (match_inner fuel (drop match_len inp) rest next_counter st)
           (reyield match_len) resume)
      (fun _ => for_each (match_inner fuel inp rest gc c) (reyield 0) Stop).
Proof.
  intros Hparse Hq rest. destruct pat as [|x pat]; [discriminate|].
  cbn [match_inner]. rewrite Hparse. cbv beta iota zeta. rewrite Hq.
  cbn [Ascii.eqb Bool.eqb]. unfold rest_after. fold rest.
  apply (for_each_after_ends_at c). apply group_content_once_ends_at.
Qed.

(** C1. Capture assignments are path-local.

    - Under the reference semantics of [self.captures] (list objects,
      copies kept in local variables, updates in place), the engine is
      simulated by the engine on table values, where a kept copy is the
      table [C] itself: no update in place reaches a kept copy before it is
      restored.  So [has_match] gives the same verdict under both.
    - Between alternatives: under the reference semantics, when the
      alternatives of a group are abandoned the table is again the table
      [C] the group was entered with; on values, every alternative is
      explored from [C], whatever the earlier ones and the consumer did.
    - Between iterations of [+]: when the repetition is abandoned the
      table is again the one it was entered with; after an iteration that
      left the table [C1], the further iterations are explored from [C1],
      and the item that stops there is yielded with [C1] again.
    - A group under [?]: the zero-match branch is explored from the table
      [C] the group was entered with.
    - Every exploration gives the table back: a generator of [match_inner]
      entered with the table [C] and run to its end by a consumer that does
      the same returns with the table [C]; so the table is [C] again when
      the exploration of a choice is abandoned. *)
Theorem capture_assignments_are_path_local :
  (forall fuel inp pat gc h,
     heap_wf h ->
     sim h (match_inner fuel inp pat gc h) (match_inner fuel inp pat gc (heap_table h)))
  /\ (forall fuel n inp pat (h : heap) (c : caps),
        (has_match fuel n inp pat h).1 = (has_match fuel n inp pat c).1)
  /\ (forall fuel alternatives this_group_num inp gc,
        (forall h, heap_wf h ->
           heap_ends_at (heap_table h)
             (match_group_content_once (match_inner fuel) alternatives this_group_num inp gc h))
        /\ (forall rec (c : caps),
              ends_at c (match_group_content_once rec alternatives this_group_num inp gc c)
              /\ (forall rec',
                    (forall alt, rec' inp alt gc c = rec inp alt gc c) ->
                    match_group_content_once rec' alternatives this_group_num inp gc c
                    = match_group_content_once rec alternatives this_group_num inp gc c)))
  /\ (forall fuel alternatives this_group_num depth inp gc,
        (forall h, heap_wf h ->
           heap_ends_at (heap_table h)
             (match_plus_group (match_inner fuel) alternatives this_group_num depth inp gc h))
        /\ (forall rec (c : caps),
              ends_at c (match_plus_group rec alternatives this_group_num depth inp gc c)
              /\ match_plus_group rec alternatives this_group_num (S depth) inp gc c
                 = for_each (match_group_content_once rec alternatives this_group_num inp gc c)
                     (fun '(one_len, one_counter) resume c1 =>
                        for_each (match_plus_group rec alternatives this_group_num depth
                                    (drop one_len inp) gc c1)
                          (reyield one_len)
                          (fun _ => Yield (one_len, one_counter) c1 resume))
                     Stop))
  /\ (forall fuel inp pat gc alternatives expr_len negated (c : caps),
        parse_expression pat = Ok (Group alternatives, expr_len, negated) ->
        quantifier_at pat expr_len = Some "?"%char ->
        match_inner (S fuel) inp pat gc c
        = for_each
            (match_group_content_once (match_inner fuel) alternatives (gc + 1) inp (gc + 1) c)
            (fun '(match_len, next_counter) resume st =>
               for_each (match_inner fuel (drop match_len inp) (drop (expr_len + 1) pat)
                           next_counter st)
                 (reyield match_len) resume)
            (fun _ =>
               for_each (match_inner fuel inp (drop (expr_len + 1) pat) gc c)
                 (reyield 0) Stop))
  /\ (forall fuel inp pat gc (c : caps), restoring c (match_inner fuel inp pat gc c)).
Proof.
  split; [|split; [|split; [|split; [|split]]]].
  - intros fuel inp pat gc h Hwf. now apply sim_match_inner.
  - intros fuel n inp pat h c. symmetry. apply has_match_heap_value.
  - intros fuel alternatives this_group_num inp gc. split.
    + intros h Hwf. eapply sim_ends_at.
      * apply sim_group_content_once; [|exact Hwf]. intros. now apply sim_match_inner.
      * apply group_content_once_ends_at.
    + intros rec c. split; [apply group_content_once_ends_at|].
      intros rec' Hrec. now apply group_content_once_entered_with.
  - intros fuel alternatives this_group_num depth inp gc. split.
    + intros h Hwf. eapply sim_ends_at.
      * apply sim_plus_group; [|exact Hwf]. intros. now apply sim_match_inner.
      * apply plus_group_ends_at.
    + intros rec c. split; [apply plus_group_ends_at|apply plus_group_unfold].
  - intros fuel inp pat gc alternatives expr_len negated c Hparse Hq.
    now apply (optional_group_zero_branch fuel inp pat gc alternatives expr_len negated c).
  - intros fuel inp pat gc c. apply match_inner_restoring.
Qed.

Lemma capture_assignments_are_path_local_witness :
  heap_wf (new_store [None; None])
  /\ sim (new_store [None; None])
       (match_inner 6 (chars "abab") (chars "(a|(b))+") 0 (new_store [None; None]))
       (match_inner 6 (chars "abab") (chars "(a|(b))+") 0 [None; None])
  /\ heap_ends_at [None; None]
       (match_group_content_once (match_inner 6) [chars "a"; chars "(b)"] 1 (chars "abab") 1
          (new_store [None; None])).
Proof.
  assert (Hwf : heap_wf (new_store [None; None])) by (unfold heap_wf; cbn; lia).
  pose proof capture_assignments_are_path_local as (Hsim & _ & Halt & _).
  split; [exact Hwf|]. split.
  - exact (Hsim 6 (chars "abab") (chars "(a|(b))+") 0 (new_store [None; None]) Hwf).
  - exact (proj1 (Halt 6 [chars "a"; chars "(b)"] 1 (chars "abab") 1)
             (new_store [None; None]) Hwf).
Defined.

(** ** A quantifier after a backreference *)

Section DroppedQuantifier.
Context {St : Type} `{!Store St}.

Lemma equal_tail (o1 o2 : outcome St) n k1 k2 :
  o1 = o2 -> (forall st, k1 st = k2 st) ->
  for_each o1 (reyield n) k1 = for_each o2 (reyield n) k2.
Proof.
  intros -> Hk. apply functional_extensionality in Hk. now subst.
Qed.

Lemma group_content_once_ext (rec : str -> str -> nat -> gen St) alts1 alts2 :
  Forall2 (fun a1 a2 => forall inp gc, rec inp a1 gc = rec inp a2 gc) alts1 alts2 ->
  forall this_group_num inp gc,
    match_group_content_once rec alts1 this_group_num inp gc
    = match_group_content_once rec alts2 this_group_num inp gc.
Proof.
  intros Halts this_group_num inp gc. unfold match_group_content_once.
  induction Halts as [|a1 a2 alts1 alts2 Ha _ IH]; [reflexivity|].
  cbn [for_list]. rewrite IH, Ha. reflexivity.
Qed.

Lemma plus_group_ext (rec : str -> str -> nat -> gen St) alts1 alts2 this_group_num :
  (forall inp gc,
     match_group_content_once rec alts1 this_group_num inp gc
     = match_group_content_once rec alts2 this_group_num inp gc) ->
  forall depth inp gc,
    match_plus_group rec alts1 this_group_num depth inp gc
    = match_plus_group rec alts2 this_group_num depth inp gc.
Proof.
  intros Honce. induction depth as [|depth IH]; intros inp gc; [reflexivity|].
  cbn [match_plus_group]. apply functional_extensionality. intros st.
  rewrite Honce.
  apply (related_for_each eq (@eq_refl _)); [|reflexivity].
  intros [one_len one_counter] r1 r2 st' Hr.
  apply functional_extensionality in Hr. subst r2. now rewrite IH.
Qed.

Lemma Forall2_insert {A} (R : A -> A -> Prop) (l : list A) i x y :
  (forall a, R a a) -> l !! i = Some x -> R x y -> Forall2 R l (<[i := y]> l).
Proof.
  intros Hrefl. revert i. induction l as [|a l IH]; intros [|i]; cbn; try discriminate.
  - intros [= ->] Hxy. constructor; [assumption|]. now apply Forall_Forall2_diag, Forall_forall.
  - intros Hlook Hxy. constructor; auto.
Qed.

(** One level of [match_inner] on two patterns that begin with groups
    whose alternatives behave alike, and go on with the same remaining
    pattern. *)
Lemma group_alternatives_step fuel inp pat1 pat2 gc alts1 alts2 len1 len2 neg1 neg2
    quantifier rest :
  parse_expression pat1 = Ok (Group alts1, len1, neg1) ->
  parse_expression pat2 = Ok (Group alts2, len2, neg2) ->
  quantifier_at pat1 len1 = quantifier ->
  quantifier_at pat2 len2 = quantifier ->
  rest_after pat1 len1 quantifier = rest ->
  rest_after pat2 len2 quantifier = rest ->
  Forall2 (fun a1 a2 => forall inp gc, match_inner fuel inp a1 gc = match_inner fuel inp a2 gc)
    alts1 alts2 ->
  match_inner (S fuel) inp pat1 gc = match_inner (S fuel) inp pat2 gc.
Proof.
  intros Hparse1 Hparse2 Hq1 Hq2 Hrest1 Hrest2 Halts.
  destruct pat1 as [|x1 pat1]; [discriminate|]. destruct pat2 as [|x2 pat2]; [discriminate|].
  cbn [match_inner]. rewrite Hparse1, Hparse2, Hq1, Hq2, Hrest1, Hrest2. cbv beta iota zeta.
  pose proof (group_content_once_ext (match_inner fuel) alts1 alts2 Halts (gc + 1)) as Honce.
  pose proof (plus_group_ext (match_inner fuel) alts1 alts2 (gc + 1) Honce) as Hplus.
  rewrite Hplus, Honce. reflexivity.
Qed.

(** The matcher does the same on both patterns. *)
Lemma dropped_quantifier_same_generator P P' :
  quantifier_dropped P P' ->
  forall fuel inp gc, match_inner fuel inp P gc = match_inner fuel inp P' gc.
Proof.
  induction 1 as [d q post Hd Hq Hpost
                 |P P' e expr_len negated Hparse Hparse' Hquant _ IH
                 |P P' alternatives expr_len negated expr_len' negated' i alt alt'
                    Hparse Hparse' Hlook _ IH Hquant Hrest];
    intros [|fuel] inp gc; try reflexivity.
  - cbn [match_inner]. unfold parse_expression, parse_single_atom.
    cbn [startswith Ascii.eqb Bool.eqb andb]. rewrite Hd.
    destruct (int_of_char d) as [n|err]; [|reflexivity]. cbn [res_bind].
    unfold quantifier_at in *. cbn [lookup list_lookup] in *. rewrite Hq.
    change (("\"%char :: d :: post) !! 2) with (post !! 0).
    destruct (post !! 0) as [c|]; [destruct (is_quantifier c); [discriminate|]|]; reflexivity.
  - apply functional_extensionality. intros st.
    eapply (related_step eq (@eq_refl _)); try eassumption; try reflexivity.
    + intros; now apply equal_tail.
    + intros ->. discriminate.
    + intros ->. discriminate.
    + intros inp' gc' st'. now rewrite IH.
  - eapply group_alternatives_step; try eassumption; try reflexivity.
    eapply Forall2_insert; [reflexivity|eassumption|].
    intros inp' gc'. apply IH.
Qed.

Lemma attempt_same_generator fuel end_anchored inp inner inner' i (st : St) :
  (forall inp gc, match_inner fuel inp inner gc = match_inner fuel inp inner' gc) ->
  attempt fuel end_anchored inp inner i st = attempt fuel end_anchored inp inner' i st.
Proof. intros Hsame. unfold attempt. now rewrite Hsame. Qed.

Lemma try_offsets_same_generator fuel end_anchored inp inner inner' offsets :
  (forall inp gc, match_inner fuel inp inner gc = match_inner fuel inp inner' gc) ->
  forall st : St,
    try_offsets fuel end_anchored inp inner offsets st
    = try_offsets fuel end_anchored inp inner' offsets st.
Proof.
  intros Hsame. induction offsets as [|i offsets IH]; intros st; cbn [try_offsets]; [reflexivity|].
  rewrite (attempt_same_generator _ _ _ inner inner') by assumption.
  destruct (attempt _ _ _ _ _ _) as [[[|]|] ?]; auto.
Qed.
End DroppedQuantifier.

Lemma count_capture_groups_drop d q post :
  Ascii.eqb d "\" = false -> is_quantifier q = true ->
  forall pre,
    count_capture_groups (pre ++ d :: q :: post) = count_capture_groups (pre ++ d :: post)
    /\ forall c, count_capture_groups (c :: pre ++ d :: q :: post)
                 = count_capture_groups (c :: pre ++ d :: post).
Proof.
  intros Hd Hq.
  assert (Hskip : count_capture_groups (q :: post) = count_capture_groups post).
  { rewrite count_capture_groups_cons.
    destruct (Ascii.eqb q "\") eqn:E1;
      [apply Ascii.eqb_eq in E1; subst q; discriminate|].
    destruct (Ascii.eqb q "(") eqn:E2;
      [apply Ascii.eqb_eq in E2; subst q; discriminate|reflexivity]. }
  assert (Hbase : count_capture_groups (d :: q :: post) = count_capture_groups (d :: post)).
  { rewrite !(count_capture_groups_cons d), Hd, Hskip. reflexivity. }
  induction pre as [|x pre [IH1 IH2]].
  - split; [exact Hbase|].
    intros c. cbn [app]. rewrite !(count_capture_groups_cons c).
    destruct (Ascii.eqb c "\"); [exact Hskip|]. now rewrite Hbase.
  - split; [apply IH2|].
    intros c. cbn [app]. rewrite !(count_capture_groups_cons c).
    destruct (Ascii.eqb c "\"); [exact IH1|]. now rewrite (IH2 x).
Qed.

Lemma isdigit_not_special d :
  isdigit d = true -> Ascii.eqb d "\" = false /\ Ascii.eqb d "$" = false.
Proof.
  intros Hd. split.
  - destruct (Ascii.eqb_spec d "\") as [->|]; [discriminate|reflexivity].
  - destruct (Ascii.eqb_spec d "$") as [->|]; [discriminate|reflexivity].
Qed.

Lemma is_quantifier_not_dollar q : is_quantifier q = true -> Ascii.eqb q "$" = false.
Proof.
  intros Hq. destruct (Ascii.eqb_spec q "$") as [->|]; [discriminate|reflexivity].
Qed.

Lemma anchor_flags_drop pre d q post :
  isdigit d = true -> is_quantifier q = true ->
  (strip_anchors (pre ++ "\"%char :: d :: q :: post)).1
  = (strip_anchors (pre ++ "\"%char :: d :: post)).1.
Proof.
  intros Hd Hq. unfold strip_anchors. cbn [fst]. f_equal.
  - destruct pre; reflexivity.
  - unfold endswith_char. rewrite !last_app, !last_cons.
    destruct (last post); [reflexivity|].
    rewrite (is_quantifier_not_dollar q Hq). now destruct (isdigit_not_special d Hd) as [_ ->].
Qed.

(** The relation reaches into groups: the backreference of [(a)(b\1?|c)d]
    stands in the first alternative of the second group. *)
Example dropped_inside_a_group :
  quantifier_dropped (chars "(a)(b\1?|c)d") (chars "(a)(b\1|c)d").
Proof.
  eapply dropped_later with (e := Group [chars "a"]) (expr_len := 3) (negated := false);
    [reflexivity|reflexivity|reflexivity|].
  eapply dropped_inside with (alternatives := [chars "b\1?"; chars "c"]) (i := 0)
    (alt := chars "b\1?") (alt' := chars "b\1") (expr_len := 8) (expr_len' := 7);
    [reflexivity|reflexivity|reflexivity| |reflexivity|reflexivity].
  eapply dropped_later with (e := Literal "b") (expr_len := 1) (negated := false);
    [reflexivity|reflexivity|reflexivity|].
  apply (dropped_here "1" "?" []); reflexivity.
Qed.

(** C10, the claim as it stands fails when the quantifier is followed by
    another quantifier character: in [(a)\1++] the second [+] is a literal,
    and after deleting the first it becomes the ignored quantifier. *)
Lemma dropped_quantifier_changes_verdict :
  verdict heap 9 (chars "(a)\1++") (chars "aa") = Ok false
  /\ verdict heap 9 (chars "(a)\1+") (chars "aa") = Ok true.
Proof. split; vm_compute; reflexivity. Qed.

(** C10, amended.  Let the pattern have a backreference directly followed
    by a quantifier character [q], where the matcher reads it as a
    backreference, and let the character after [q] not be a quantifier
    character.  Deleting [q] changes nothing: the matcher enumerates the
    same items in the same way on the two inner patterns, and
    [match_pattern] gives the same verdict (or raises the same exception)
    on every line, for every recursion limit. *)
Theorem quantifier_after_backreference_ignored fuel pre d q post line :
  isdigit d = true -> is_quantifier q = true ->
  let F := pre ++ "\"%char :: d :: q :: post in
  let F' := pre ++ "\"%char :: d :: post in
  quantifier_dropped (strip_anchors F).2 (strip_anchors F').2 ->
  (forall St (HSt : Store St) inp gc,
     match_inner (St := St) fuel inp (strip_anchors F).2 gc
     = match_inner fuel inp (strip_anchors F').2 gc)
  /\ verdict heap fuel F line = verdict heap fuel F' line.
Proof.
  intros Hd Hq F F' Hdropped. split.
  - intros St HSt inp gc. now apply dropped_quantifier_same_generator.
  - rewrite !verdict_heap_value.
    unfold verdict, match_pattern, init, has_match.
    cbn [pattern captures num_capture_groups].
    assert (Hflags : (strip_anchors F).1 = (strip_anchors F').1)
      by now apply anchor_flags_drop.
    assert (Hcount : count_capture_groups F = count_capture_groups F').
    { pose proof (proj1 (count_capture_groups_drop d q post
                           (proj1 (isdigit_not_special d Hd)) Hq (pre ++ ["\"%char])))
        as Hcount.
      now rewrite <- !app_assoc in Hcount. }
    pose proof (dropped_quantifier_same_generator (St := caps) _ _ Hdropped fuel) as Hsame.
    clearbody F F'. rewrite Hcount.
    destruct (strip_anchors F) as [[a e] P]. destruct (strip_anchors F') as [[a' e'] P'].
    cbn [fst snd] in *. injection Hflags as <- <-.
    rewrite (attempt_same_generator fuel e line P P') by assumption.
    rewrite (try_offsets_same_generator fuel e line P P') by assumption.
    destruct a.
    + now destruct (attempt _ _ _ _ _ _).
    + now destruct (try_offsets _ _ _ _ _ _).
Qed.

Lemma quantifier_after_backreference_ignored_witness :
  isdigit "1" = true /\ is_quantifier "*" = true
  /\ quantifier_dropped (strip_anchors (chars "^(a|b)" ++ "\"%char :: "1"%char :: "*"%char :: chars "c$")).2
       (strip_anchors (chars "^(a|b)" ++ "\"%char :: "1"%char :: chars "c$")).2
  /\ verdict heap 9 (chars "^(a|b)" ++ "\"%char :: "1"%char :: "*"%char :: chars "c$") (chars "bbc")
     = verdict heap 9 (chars "^(a|b)" ++ "\"%char :: "1"%char :: chars "c$") (chars "bbc").
Proof.
  assert (Hdropped :
    quantifier_dropped
      (strip_anchors (chars "^(a|b)" ++ "\"%char :: "1"%char :: "*"%char :: chars "c$")).2
      (strip_anchors (chars "^(a|b)" ++ "\"%char :: "1"%char :: chars "c$")).2).
  { eapply dropped_later with (e := Group [chars "a"; chars "b"]) (expr_len := 5)
      (negated := false); [reflexivity|reflexivity|reflexivity|].
    apply (dropped_here "1" "*" (chars "c")); reflexivity. }
  split; [reflexivity|]. split; [reflexivity|]. split; [exact Hdropped|].
  exact (proj2 (quantifier_after_backreference_ignored 9 (chars "^(a|b)") "1" "*" (chars "c$")
                  (chars "bbc") eq_refl eq_refl Hdropped)).
Defined.

(** * Further properties of the parser and the driver *)

(** ** [strip_anchors] *)

Lemma last_take_all {A} (l : list A) x :
  last l = Some x -> l = take (length l - 1) l ++ [x].
Proof.
  intros Hlast. apply last_Some in Hlast as [l' ->].
  rewrite length_app. cbn [length]. replace (length l' + 1 - 1) with (length l') by lia.
  now rewrite take_app_length.
Qed.

Lemma strip_anchors_between pattern :
  let '(start_anchored, end_anchored, inner) := strip_anchors pattern in
  pattern
  = (if start_anchored then ["^"%char] else []) ++ inner
    ++ (if end_anchored then ["$"%char] else []).
Proof.
  unfold strip_anchors, endswith_char.
  destruct (last pattern) as [x|] eqn:Hlast.
  - destruct pattern as [|c tl]; [discriminate|]. cbn [startswith].
    rewrite andb_true_r.
    destruct (Ascii.eqb_spec x "$") as [->|Hx].
    + pose proof (last_take_all _ _ Hlast) as Hsplit. unfold slice.
      destruct (Ascii.eqb_spec c "^") as [->|Hc].
      * destruct tl as [|c' tl]; [discriminate|].
        cbn [length Nat.sub app] in *. rewrite Nat.sub_0_r in *.
        change (drop 1 ("^"%char :: c' :: tl)) with (c' :: tl).
        rewrite firstn_cons in Hsplit.
        injection Hsplit as Hsplit. rewrite Hsplit at 1. reflexivity.
      * cbn [app]. rewrite Nat.sub_0_r. change (drop 0 (c :: tl)) with (c :: tl).
        exact Hsplit.
    + rewrite app_nil_r. now destruct (Ascii.eqb_spec c "^") as [->|Hc].
  - destruct pattern; [reflexivity|]. now apply last_None in Hlast.
Qed.

Lemma strip_anchors_parts pattern :
  exists pre post,
    pattern = pre ++ (strip_anchors pattern).2 ++ post
    /\ (pre = [] \/ pre = ["^"%char]) /\ (post = [] \/ post = ["$"%char]).
Proof.
  pose proof (strip_anchors_between pattern) as H.
  destruct (strip_anchors pattern) as [[start_anchored end_anchored] inner].
  exists (if start_anchored then ["^"%char] else []),
         (if end_anchored then ["$"%char] else []).
  split; [exact H|]. destruct start_anchored, end_anchored; auto.
Qed.

(** [strip_anchors] reports a start anchor exactly when the pattern
    begins with [^] and an end anchor exactly when it ends with [$], and it
    removes these anchors and nothing else: the pattern is its inner part
    between the anchors that were reported.  This includes the patterns
    [^], [$] and [^$], whose inner part is empty. *)
Theorem strip_anchors_round_trip pattern :
  let '(start_anchored, end_anchored, inner) := strip_anchors pattern in
  (start_anchored = true <-> exists tl, pattern = "^"%char :: tl)
  /\ (end_anchored = true <-> exists l, pattern = l ++ ["$"%char])
  /\ pattern
     = (if start_anchored then ["^"%char] else []) ++ inner
       ++ (if end_anchored then ["$"%char] else []).
Proof.
  pose proof (strip_anchors_between pattern) as Hbetween.
  unfold strip_anchors in *. split; [|split; [|exact Hbetween]].
  - destruct pattern as [|c tl]; cbn [startswith].
    + split; [discriminate|]. intros [tl Htl]. discriminate.
    + rewrite andb_true_r. split.
      * intros Hc. apply Ascii.eqb_eq in Hc. subst c. now exists tl.
      * intros [tl' [= -> _]]. reflexivity.
  - unfold endswith_char. destruct (last pattern) as [x|] eqn:Hlast.
    + apply last_Some in Hlast as [l ->]. split.
      * intros Hx. apply Ascii.eqb_eq in Hx. subst x. now exists l.
      * intros [l' Hl']. apply app_inj_tail in Hl' as [_ ->]. reflexivity.
    + apply last_None in Hlast. subst pattern. split; [discriminate|].
      intros [l Hl]. now destruct l.
Qed.

(** ** The parser reads exactly the expression it returns *)

Lemma scan_bracket_take l p m :
  scan_bracket l p < p + m -> scan_bracket (take m l) p = scan_bracket l p.
Proof.
  revert p m. induction l as [|c l IH]; intros p m H; [now rewrite take_nil|].
  destruct m as [|m].
  { pose proof (scan_bracket_bound (c :: l) p). lia. }
  cbn [take scan_bracket] in *. destruct (Ascii.eqb c "]"); [reflexivity|].
  apply IH. lia.
Qed.

Lemma paren_scan_take l i d n m :
  paren_scan l i d = Ok n -> n < i + m -> paren_scan (take m l) i d = Ok n.
Proof.
  revert i d m. induction l as [|c l IH]; intros i d m; [discriminate|].
  destruct m as [|m].
  { intros H Hn. apply paren_scan_bound in H. lia. }
  cbn [take paren_scan]. destruct (Z.eqb _ 0); [auto|].
  intros H Hn. apply IH; [assumption|lia].
Qed.

Lemma slice_take {A} (l : list A) a b m :
  b <= m -> slice (take m l) a b = slice l a b.
Proof.
  intros Hb. unfold slice. rewrite skipn_firstn_comm, take_take. f_equal. lia.
Qed.

Lemma parse_single_atom_take X e len neg :
  parse_single_atom X = Ok (e, len, neg) ->
  1 <= len /\ parse_single_atom (take len X) = Ok (e, len, neg).
Proof.
  destruct X as [|c0 tl]; [discriminate|]. cbn [parse_single_atom].
  destruct (Ascii.eqb c0 "\") eqn:E0.
  { destruct tl as [|esc tl]; [discriminate|].
    intros H.
    assert (len = 2) as ->.
    { destruct (isdigit esc); [destruct (int_of_char esc); cbn in H; [|discriminate]|];
        repeat (destruct (Ascii.eqb esc _)); now injection H as <- <- <-. }
    split; [lia|]. cbn [take parse_single_atom]. now rewrite E0. }
  destruct (Ascii.eqb c0 "[") eqn:E1.
  { set (negated := match tl with [] => false | c1 :: _ => Ascii.eqb c1 "^" end).
    set (start := if negated then 2 else 1).
    set (p := scan_bracket (drop start (c0 :: tl)) start).
    destruct (Nat.leb_spec (length (c0 :: tl)) p) as [|Hp]; [discriminate|].
    intros [= <- <- <-]. split; [lia|].
    assert (Hstart : 1 <= start <= p).
    { pose proof (scan_bracket_bound (drop start (c0 :: tl)) start). fold p in H.
      unfold start. destruct negated; lia. }
    replace (p + 1) with (S p) by lia. cbn [take parse_single_atom].
    rewrite E0, E1.
    assert (Htl : match take p tl with [] => false | c1 :: _ => Ascii.eqb c1 "^" end
                  = negated).
    { destruct tl as [|c1 tl]; [cbn in Hp; lia|].
      destruct p as [|p]; [lia|]. reflexivity. }
    rewrite Htl. fold start.
    change (c0 :: take p tl) with (take (S p) (c0 :: tl)).
    rewrite skipn_firstn_comm, scan_bracket_take; fold p; [|lia].
    destruct (Nat.leb_spec (length (take (S p) (c0 :: tl))) p) as [Hlen|_].
    - rewrite length_take in Hlen. lia.
    - rewrite slice_take by lia. now rewrite Nat.add_1_r. }
  destruct (Ascii.eqb c0 ".") eqn:E2; intros [= <- <- <-]; split; try lia;
    cbn [take parse_single_atom]; now rewrite E0, E1, E2.
Qed.

Lemma parse_expression_take X e len neg :
  parse_expression X = Ok (e, len, neg) ->
  1 <= len /\ parse_expression (take len X) = Ok (e, len, neg).
Proof.
  unfold parse_expression.
  destruct X as [|c0 tl]; [discriminate|]. cbn [startswith].
  destruct (Ascii.eqb c0 "(") eqn:E0; cbn [andb].
  2: { intros H. apply parse_single_atom_take in H as [Hlen H]. split; [assumption|].
       destruct len as [|len]; [lia|]. cbn [take startswith] in *.
       now rewrite E0. }
  unfold find_matching_paren. cbn [Nat.add skipn].
  change (drop 0 tl) with tl.
  destruct (paren_scan tl 1 1) as [n|err] eqn:Hscan; cbn [res_bind]; [|discriminate].
  intros [= <- <- <-]. split; [lia|].
  replace (n + 1) with (S n) by lia. cbn [take startswith]. rewrite E0. cbn [andb skipn].
  change (drop 0 (take n tl)) with (take n tl).
  rewrite (paren_scan_take _ _ _ _ n Hscan) by lia. cbn [res_bind].
  change (c0 :: take n tl) with (take (S n) (c0 :: tl)).
  rewrite slice_take by lia. now replace (n + 1) with (S n) by lia.
Qed.

(** The expression at the head of a pattern, when it parses, is made of
    at least one and at most all characters of the pattern, and it is
    determined by these characters alone: whatever follows them, the
    parser returns the same expression, length and negation flag. *)
Theorem parse_expression_reads_its_expression pattern e expr_len negated :
  parse_expression pattern = Ok (e, expr_len, negated) ->
  1 <= expr_len <= length pattern
  /\ forall s, parse_expression (take expr_len pattern ++ s) = Ok (e, expr_len, negated).
Proof.
  intros H. pose proof (parse_expression_app _ [] _ _ _ H) as [Hle _].
  apply parse_expression_take in H as [Hge H].
  split; [lia|]. intros s. now apply parse_expression_app.
Qed.

Lemma parse_expression_reads_its_expression_witness :
  1 <= 4 <= length (chars "[ab]+c")
  /\ forall s, parse_expression (take 4 (chars "[ab]+c") ++ s)
               = Ok (Class (chars "ab"), 4, false).
Proof. apply (parse_expression_reads_its_expression (chars "[ab]+c")). reflexivity. Defined.

(** ** [find_matching_paren] *)

Lemma paren_scan_spec l : forall i d n,
  paren_scan l i d = Ok n
  <-> exists k, n = i + k /\ k < length l
      /\ (d + paren_balance (take (S k) l))%Z = 0%Z
      /\ forall j, j < k -> (d + paren_balance (take (S j) l))%Z <> 0%Z.
Proof.
  induction l as [|c l IH]; intros i d n.
  { split; [discriminate|]. intros (k & _ & Hk & _). cbn in Hk. lia. }
  cbn [paren_scan].
  set (d' := if Ascii.eqb c "(" then (d + 1)%Z
             else if Ascii.eqb c ")" then (d - 1)%Z else d).
  assert (Hd' : forall k, (d + paren_balance (take (S k) (c :: l)))%Z
                          = (d' + paren_balance (take k l))%Z).
  { intros k. cbn [take paren_balance]. unfold d'.
    destruct (Ascii.eqb c "("), (Ascii.eqb c ")"); lia. }
  destruct (Z.eqb_spec d' 0) as [Hzero|Hnz].
  - split.
    + intros [= <-]. exists 0. repeat split; try (cbn [length]; lia).
      rewrite Hd', take_0. cbn [paren_balance]. lia.
    + intros (k & -> & _ & _ & Hfirst). destruct k as [|k]; [f_equal; lia|].
      exfalso. apply (Hfirst 0); [lia|]. rewrite Hd', take_0. cbn [paren_balance]. lia.
  - rewrite IH. split.
    + intros (k & -> & Hk & Hz & Hfirst). exists (S k).
      repeat split; try (cbn [length]; lia).
      * now rewrite Hd'.
      * intros [|j] Hj; rewrite Hd'; [rewrite take_0; cbn [paren_balance]; lia|]. apply Hfirst. lia.
    + intros (k & -> & Hk & Hz & Hfirst). destruct k as [|k].
      { exfalso. apply Hnz. rewrite Hd', take_0 in Hz. cbn [paren_balance] in Hz. lia. }
      exists k. cbn [length] in Hk. repeat split; try lia.
      * now rewrite <- Hd'.
      * intros j Hj. rewrite <- Hd'. apply Hfirst. lia.
Qed.

(** [find_matching_paren] returns the first index after [start_index]
    at which the parentheses opened from [start_index] on are all closed;
    it finds one exactly when there is one.  Every ["("] and [")"] counts, a
    parenthesis after a backslash too. *)
Theorem find_matching_paren_first_balanced pattern start_index n :
  find_matching_paren pattern start_index = Ok n
  <-> start_index < n < length pattern
      /\ (1 + paren_balance (slice pattern (start_index + 1) (n + 1)))%Z = 0%Z
      /\ forall m, start_index < m < n ->
           (1 + paren_balance (slice pattern (start_index + 1) (m + 1)))%Z <> 0%Z.
Proof.
  unfold find_matching_paren, slice. rewrite paren_scan_spec, length_drop. split.
  - intros (k & -> & Hk & Hz & Hfirst). repeat split; try lia.
    + now replace (start_index + 1 + k + 1 - (start_index + 1)) with (S k) by lia.
    + intros m Hm.
      replace (m + 1 - (start_index + 1)) with (S (m - (start_index + 1))) by lia.
      apply Hfirst. lia.
  - intros (Hn & Hz & Hfirst). exists (n - (start_index + 1)). repeat split; try lia.
    + now replace (S (n - (start_index + 1))) with (n + 1 - (start_index + 1)) by lia.
    + intros j Hj. specialize (Hfirst (start_index + 1 + j)).
      replace (start_index + 1 + j + 1 - (start_index + 1)) with (S j) in Hfirst by lia.
      apply Hfirst. lia.
Qed.

Lemma paren_balance_app l1 l2 :
  paren_balance (l1 ++ l2) = (paren_balance l1 + paren_balance l2)%Z.
Proof. induction l1 as [|c l1 IH]; cbn [app paren_balance]; lia. Qed.

Lemma paren_balance_step l k c :
  l !! k = Some c ->
  paren_balance (take (S k) l)
  = (paren_balance (take k l) + paren_balance [c])%Z.
Proof.
  intros Hc. rewrite (take_S_r _ _ _ Hc). apply paren_balance_app.
Qed.

Lemma find_matching_paren_index pattern start_index n :
  find_matching_paren pattern start_index = Ok n ->
  start_index < n < length pattern
  /\ pattern !! n = Some ")"%char
  /\ paren_balance (slice pattern (start_index + 1) n) = 0%Z.
Proof.
  unfold find_matching_paren, slice. intros H.
  apply paren_scan_spec in H as (k & -> & Hk & Hz & Hfirst).
  rewrite length_drop in Hk. split; [lia|].
  replace (start_index + 1 + k - (start_index + 1)) with k by lia.
  destruct (drop (start_index + 1) pattern !! k) as [c|] eqn:Hc.
  2: { apply lookup_ge_None in Hc. rewrite length_drop in Hc. lia. }
  rewrite (paren_balance_step _ _ _ Hc) in Hz.
  assert (Hprev : (1 + paren_balance (take k (drop (start_index + 1) pattern)))%Z <> 0%Z
                  \/ k = 0).
  { destruct k as [|k]; [now right|left]. apply Hfirst. lia. }
  rewrite lookup_drop in Hc. rewrite Hc.
  cbn [paren_balance] in Hz.
  destruct (Ascii.eqb c "(") eqn:E1.
  { exfalso. destruct Hprev as [Hprev| ->]; [|rewrite take_0 in Hz; cbn [paren_balance] in Hz; lia].
    (* the depth is positive before position [k] *)
    assert (Hpos : forall j, j <= k ->
              (0 < 1 + paren_balance (take j (drop (start_index + 1) pattern)))%Z).
    { induction j as [|j IHj]; intros Hj; [rewrite take_0; cbn [paren_balance]; lia|].
      destruct (drop (start_index + 1) pattern !! j) as [c'|] eqn:Hc'.
      2: { apply lookup_ge_None in Hc'. rewrite length_drop in Hc'. lia. }
      rewrite (paren_balance_step _ _ _ Hc').
      specialize (Hfirst j ltac:(lia)). rewrite (paren_balance_step _ _ _ Hc') in Hfirst.
      specialize (IHj ltac:(lia)). cbn [paren_balance] in *.
      destruct (Ascii.eqb c' "("), (Ascii.eqb c' ")"); lia. }
    specialize (Hpos k ltac:(lia)). lia. }
  destruct (Ascii.eqb c ")") eqn:E2.
  - apply Ascii.eqb_eq in E2. subst c. split; [reflexivity|lia].
  - exfalso. destruct Hprev as [Hprev| ->]; [|rewrite take_0 in Hz; cbn [paren_balance] in Hz; lia]. lia.
Qed.

(** What [find_matching_paren] returns is the index of a [")"], and the
    text between the two parentheses (the group content that
    [parse_expression] hands to [split_alternatives]) has as many opening
    as closing parentheses. *)
Theorem find_matching_paren_closes pattern start_index n :
  find_matching_paren pattern start_index = Ok n ->
  pattern !! n = Some ")"%char
  /\ paren_balance (slice pattern (start_index + 1) n) = 0%Z.
Proof. intros H. now apply find_matching_paren_index in H as (_ & H1 & H2). Qed.

Lemma find_matching_paren_closes_witness :
  chars "(a(b)c)d" !! 6 = Some ")"%char
  /\ paren_balance (slice (chars "(a(b)c)d") (0 + 1) 6) = 0%Z.
Proof. apply (find_matching_paren_closes (chars "(a(b)c)d") 0 6). reflexivity. Defined.

(** ** [split_alternatives] *)

Lemma split_scan_nonempty l : forall lvl cur, split_scan l lvl cur <> [].
Proof.
  induction l as [|c l IH]; intros lvl cur; cbn [split_scan]; [discriminate|].
  destruct (Ascii.eqb c "("); [apply IH|].
  destruct (Ascii.eqb c ")"); [apply IH|].
  destruct (Ascii.eqb c "|" && (lvl =? 0)%Z); [discriminate|apply IH].
Qed.

Lemma join_bar_cons alt alts :
  alts <> [] -> join_bar (alt :: alts) = alt ++ "|"%char :: join_bar alts.
Proof. destruct alts; [congruence|reflexivity]. Qed.

Lemma split_scan_join l : forall lvl cur, join_bar (split_scan l lvl cur) = cur ++ l.
Proof.
  induction l as [|c l IH]; intros lvl cur; cbn [split_scan].
  { cbn. now rewrite app_nil_r. }
  destruct (Ascii.eqb c "("); [rewrite IH; now rewrite <- app_assoc|].
  destruct (Ascii.eqb c ")"); [rewrite IH; now rewrite <- app_assoc|].
  destruct (Ascii.eqb c "|" && (lvl =? 0)%Z) eqn:Hbar.
  - rewrite join_bar_cons by apply split_scan_nonempty. rewrite IH.
    apply andb_prop in Hbar as [Hbar _]. apply Ascii.eqb_eq in Hbar. now subst c.
  - rewrite IH. now rewrite <- app_assoc.
Qed.

Lemma split_alternatives_join_bar group_content :
  join_bar (split_alternatives group_content) = group_content.
Proof. apply (split_scan_join group_content 0 []). Qed.

(** [split_alternatives] only cuts: there is always at least one
    alternative (the empty one for an empty group content), and joining
    the alternatives with ["|"] gives the group content back. *)
Theorem split_alternatives_join group_content :
  split_alternatives group_content <> []
  /\ join_bar (split_alternatives group_content) = group_content.
Proof.
  split; [apply split_scan_nonempty|apply split_alternatives_join_bar].
Qed.

Lemma split_scan_indivisible l : forall lvl cur,
  (forall rest, split_scan (cur ++ rest) 0 [] = split_scan rest lvl cur) ->
  Forall (fun alt => split_alternatives alt = [alt]) (split_scan l lvl cur).
Proof.
  assert (Hsnoc : forall lvl lvl' cur c,
            (forall rest, split_scan (c :: rest) lvl cur
                          = split_scan rest lvl' (cur ++ [c])) ->
            (forall rest, split_scan (cur ++ rest) 0 [] = split_scan rest lvl cur) ->
            forall rest, split_scan ((cur ++ [c]) ++ rest) 0 []
                         = split_scan rest lvl' (cur ++ [c])).
  { intros lvl lvl' cur c Hstep Hinv rest. rewrite <- app_assoc. cbn [app].
    now rewrite Hinv, Hstep. }
  induction l as [|c l IH]; intros lvl cur Hinv; cbn [split_scan].
  { constructor; [|constructor]. unfold split_alternatives.
    specialize (Hinv []). now rewrite app_nil_r in Hinv. }
  destruct (Ascii.eqb c "(") eqn:E1.
  { apply IH, (Hsnoc lvl); [|assumption]. intros rest. cbn [split_scan]. now rewrite E1. }
  destruct (Ascii.eqb c ")") eqn:E2.
  { apply IH, (Hsnoc lvl); [|assumption]. intros rest. cbn [split_scan].
    now rewrite E1, E2. }
  destruct (Ascii.eqb c "|" && (lvl =? 0)%Z) eqn:E3.
  - constructor.
    + unfold split_alternatives. specialize (Hinv []). now rewrite app_nil_r in Hinv.
    + apply IH. apply andb_prop in E3 as [_ Hlvl]. apply Z.eqb_eq in Hlvl. now subst lvl.
  - apply IH, (Hsnoc lvl); [|assumption]. intros rest. cbn [split_scan].
    now rewrite E1, E2, E3.
Qed.

(** The alternatives are cut at every top-level ["|"]: none of them can
    be split any further. *)
Theorem split_alternatives_indivisible group_content :
  Forall (fun alt => split_alternatives alt = [alt]) (split_alternatives group_content).
Proof. apply split_scan_indivisible. reflexivity. Qed.

(** ** Invariants of the generators *)

Section Guarded.
Variable E : exn -> Prop.
Variable T : caps -> Prop.

Lemma guarded_mono (G G' : nat -> Prop) o :
  (forall g, G g -> G' g) -> guarded E T G o -> guarded E T G' o.
Proof. intros HG. induction 1; constructor; auto. Qed.

Lemma guarded_for_each (G1 G : nat -> Prop) o body after :
  guarded E T G1 o ->
  (forall v resume c,
     G1 v.2 -> T c -> (forall c', T c' -> guarded E T G (resume c')) ->
     guarded E T G (body v resume c)) ->
  (forall c, T c -> guarded E T G (after c)) ->
  guarded E T G (for_each o body after).
Proof.
  intros Ho Hbody Hafter. induction Ho as [c Hc|v c k Hv Hc _ IH|e c He]; cbn.
  - now apply Hafter.
  - now apply Hbody.
  - now constructor.
Qed.

Lemma guarded_tail (G1 G : nat -> Prop) o n after :
  guarded E T G1 o -> (forall g, G1 g -> G g) ->
  (forall c, T c -> guarded E T G (after c)) ->
  guarded E T G (for_each o (reyield n) after).
Proof.
  intros Ho HG Hafter. eapply guarded_for_each; [exact Ho| |exact Hafter].
  intros [rest_len rest_counter] resume c Hv Hc Hresume. cbn.
  constructor; auto.
Qed.

Lemma guarded_counts (G : nat -> Prop) (g : nat -> gen caps) counts :
  (forall k c, T c -> guarded E T G (g k c)) ->
  forall c, T c ->
    guarded E T G
      (for_list counts (fun k next st => for_each (g k st) (reyield k) next) Stop c).
Proof.
  intros Hg. induction counts as [|k counts IH]; intros c Hc; cbn [for_list].
  - now constructor.
  - eapply guarded_tail; [now apply Hg|auto|exact IH].
Qed.

Section LocalGenerators.
Variable rec : str -> str -> nat -> gen caps.
Variable alternatives : list str.
Variable this_group_num : nat.
Variable G : nat -> Prop.
Variable gc : nat.
Hypothesis rec_guarded :
  forall inp alt c, In alt alternatives -> T c -> guarded E T G (rec inp alt gc c).
Hypothesis slot_written :
  forall v c, T c ->
    match value_setitem (this_group_num - 1) v c with
    | Some c' => T c'
    | None => E IndexError
    end.

Lemma group_content_once_guarded inp c :
  T c -> guarded E T G (match_group_content_once rec alternatives this_group_num inp gc c).
Proof.
  unfold match_group_content_once. revert c.
  induction alternatives as [|alt alts IH]; intros c Hc;
    cbn [for_list list_copy rebind value_store].
  - now constructor.
  - eapply guarded_for_each.
    + apply rec_guarded; [now left|assumption].
    + intros [alt_len alt_counter] resume c1 Hv Hc1 Hresume. cbn [setitem value_store].
      pose proof (slot_written (Some (take alt_len inp)) c1 Hc1) as Hslot.
      destruct (value_setitem _ _ c1); now constructor.
    + intros _ _. apply IH; [|assumption].
      intros inp' alt' c' Hin. apply rec_guarded. now right.
Qed.

Lemma plus_group_guarded depth :
  E RecursionError ->
  forall inp c,
    T c -> guarded E T G (match_plus_group rec alternatives this_group_num depth inp gc c).
Proof.
  intros Hdeep. induction depth as [|depth IH]; intros inp c Hc; cbn [match_plus_group].
  - now constructor.
  - eapply guarded_for_each; [now apply group_content_once_guarded| |now constructor].
    intros [one_len one_counter] resume c1 Hv Hc1 Hresume.
    cbn [list_copy rebind value_store].
    eapply guarded_tail; [now apply IH|auto|].
    intros _ _. now constructor.
Qed.
End LocalGenerators.

Lemma getitem_in_range {A} (l : list A) n :
  n <= length l -> getitem l (Z.of_nat n - 1) = None -> n = 0 /\ l = [].
Proof.
  unfold getitem. intros Hn.
  destruct (Z.ltb_spec (Z.of_nat n - 1) 0) as [Hneg|Hpos].
  - assert (n = 0) as -> by lia. destruct l as [|x l]; [auto|].
    cbn [length]. replace (Z.of_nat 0 - 1 + Z.of_nat (S (length l)))%Z
      with (Z.of_nat (length l)) by lia.
    destruct (Z.leb_spec 0 (Z.of_nat (length l))); [|lia].
    destruct (Z.ltb_spec (Z.of_nat (length l)) (Z.of_nat (S (length l)))); [|lia].
    cbn [andb]. rewrite Nat2Z.id. intros Hnone. apply lookup_ge_None in Hnone.
    cbn [length] in Hnone. lia.
  - destruct (Z.leb_spec 0 (Z.of_nat n - 1)); [|lia].
    destruct (Z.ltb_spec (Z.of_nat n - 1) (Z.of_nat (length l))); [|lia].
    cbn [andb]. intros Hnone. apply lookup_ge_None in Hnone. lia.
Qed.

(** One level of [match_inner]. *)
Lemma match_inner_guarded_step (G : nat -> Prop) fuel inp pat gc c :
  T c ->
  (pat = [] -> G gc) ->
  (forall err, pat <> [] -> parse_expression pat = Err err -> E err) ->
  (forall e expr_len negated,
     parse_expression pat = Ok (e, expr_len, negated) ->
     head_guarded E T G fuel gc e (quantifier_at pat expr_len)
       (rest_after pat expr_len (quantifier_at pat expr_len))) ->
  guarded E T G (match_inner (S fuel) inp pat gc c).
Proof.
  intros Hc Hempty Herr Hhead. cbn [match_inner].
  destruct pat as [|p0 pat]; [constructor; auto; intros; now constructor|].
  destruct (parse_expression (p0 :: pat)) as [[[e expr_len] negated]|err] eqn:Hparse;
    [|constructor; now apply Herr].
  specialize (Hhead e expr_len negated eq_refl). clear Hparse.
  set (quantifier := quantifier_at (p0 :: pat) expr_len) in *.
  set (rest := rest_after (p0 :: pat) expr_len quantifier) in *.
  destruct Hhead as [Hrest Hhead].
  assert (Hstop : forall c', T c' -> guarded E T G (Stop c')) by (intros; now constructor).
  assert (Hnext : forall n inp' c' after,
             T c' -> (forall c'', T c'' -> guarded E T G (after c'')) ->
             guarded E T G (for_each (match_inner fuel inp' rest gc c') (reyield n) after))
    by (intros; eapply guarded_tail; [now apply Hrest|auto|assumption]).
  destruct e as [ref_num|kind|ch|class_str| |alternatives]; [ | | | | |cbv zeta].
  1: { cbn [table value_store].
       destruct (Nat.ltb_spec (length c) ref_num) as [|Hlen]; [now constructor|].
       destruct (getitem c (Z.of_nat ref_num - 1)) as [[captured_text|]|] eqn:Hget.
       - destruct (startswith inp captured_text); [|now constructor].
         now apply Hnext.
       - now constructor.
       - apply getitem_in_range in Hget as [-> ->]; [|assumption].
         constructor. now apply Hhead. }
  5: { destruct Hhead as (G1 & Halts & Hafter & Hslot & Hplus).
       assert (Hgroup : forall o after,
                  guarded E T G1 o ->
                  (forall c', T c' -> guarded E T G (after c')) ->
                  guarded E T G
                    (for_each o
                       (fun '(match_len, next_counter) resume st =>
                          for_each (match_inner fuel (drop match_len inp) rest
                                      next_counter st)
                            (reyield match_len) resume)
                       after)).
       { intros o after Ho Hafter'. eapply guarded_for_each; [exact Ho| |exact Hafter'].
         intros [match_len next_counter] resume c1 Hv Hc1 Hresume.
         eapply guarded_tail; [now apply Hafter|auto|assumption]. }
       assert (Hslot' : forall v c', T c' ->
                  match value_setitem (gc + 1 - 1) v c' with
                  | Some c'' => T c''
                  | None => E IndexError
                  end)
         by (intros; rewrite Nat.add_sub; now apply Hslot).
       assert (Honce : forall c', T c' ->
                  guarded E T G1
                    (match_group_content_once (match_inner fuel) alternatives (gc + 1)
                       inp (gc + 1) c')).
       { intros c' Hc'. apply group_content_once_guarded; auto.
         intros inp' alt c'' Hin Hc''. now apply Halts. }
       destruct quantifier as [q|] eqn:Hq.
       - destruct (Ascii.eqb q "?"); [|destruct (Ascii.eqb q "+") eqn:Hqplus; [|auto]].
         + apply Hgroup; [auto|]. intros c' Hc'. now apply Hnext.
         + apply Hgroup; [|auto]. apply plus_group_guarded; auto.
           * intros inp' alt c'' Hin Hc''. now apply Halts.
           * apply Hplus. apply Ascii.eqb_eq in Hqplus. now subst q.
       - apply Hgroup; auto. }
  all: destruct (get_match_fn _ negated) as [match_fn|] eqn:Hfn;
    [|exfalso; clear -Hfn; try destruct kind; discriminate].
  all: set (first_matches := match inp with [] => false | c0 :: _ => match_fn c0 end).
  all: destruct quantifier as [q|];
    [|destruct first_matches; [apply Hnext|]; auto].
  all: destruct (Ascii.eqb q "+");
    [destruct (negb first_matches); [auto|];
     apply guarded_counts; [intros; now apply Hrest|assumption]|].
  all: destruct (Ascii.eqb q "?");
    [|destruct (Ascii.eqb q "*"); [|auto];
      apply guarded_counts; [intros; now apply Hrest|assumption]].
  all: destruct first_matches; repeat (apply Hnext; [assumption|intros]); auto.
Qed.

Lemma guarded_from_mono (G G' : nat -> Prop) fuel pat gc :
  (forall g, G g -> G' g) -> guarded_from E T G fuel pat gc -> guarded_from E T G' fuel pat gc.
Proof. intros HG H inp c Hc. eapply guarded_mono; [exact HG|now apply H]. Qed.

(** *** The driver *)

Lemma any_length_guarded (G : nat -> Prop) wanted o :
  guarded E T G o ->
  match any_length wanted o with
  | (Ok false, c) => T c
  | (Ok true, _) => True
  | (Err e, _) => E e
  end.
Proof.
  induction 1 as [c Hc|v c k Hv Hc _ IH|e c He]; cbn [any_length]; auto.
  destruct (wanted v.1); [exact I|now apply IH].
Qed.

Lemma attempt_guarded (G : nat -> Prop) fuel end_anchored inp inner i c :
  guarded_from E T G fuel inner 0 -> T c ->
  match attempt fuel end_anchored inp inner i c with
  | (Ok false, c) => T c
  | (Ok true, _) => True
  | (Err e, _) => E e
  end.
Proof.
  intros Hinner Hc. unfold attempt. specialize (Hinner (drop i inp) c Hc).
  destruct end_anchored; [exact (any_length_guarded G _ _ Hinner)|].
  destruct Hinner; cbn [next_exists]; auto.
Qed.

Lemma try_offsets_guarded (G : nat -> Prop) fuel end_anchored inp inner offsets :
  guarded_from E T G fuel inner 0 ->
  forall c, T c ->
    match (try_offsets fuel end_anchored inp inner offsets c).1 with
    | Ok _ => True
    | Err e => E e
    end.
Proof.
  intros Hinner. induction offsets as [|i offsets IH]; intros c Hc; cbn [try_offsets];
    [exact I|].
  pose proof (attempt_guarded G fuel end_anchored inp inner i c Hinner Hc) as Hattempt.
  destruct (attempt fuel end_anchored inp inner i c) as [[[|]|e] c'];
    [exact I|now apply IH|exact Hattempt].
Qed.

Lemma has_match_guarded (G : nat -> Prop) fuel n inp pat c :
  guarded_from E T G fuel (strip_anchors pat).2 0 ->
  T (replicate n None) ->
  match (has_match fuel n inp pat c).1 with
  | Ok _ => True
  | Err e => E e
  end.
Proof.
  unfold has_match. destruct (strip_anchors pat) as [[start_anchored end_anchored] inner].
  cbn [snd rebind_new value_store]. intros Hinner Hnew.
  destruct start_anchored; [|exact (try_offsets_guarded G _ _ _ _ _ Hinner _ Hnew)].
  pose proof (attempt_guarded G fuel end_anchored inp inner 0 _ Hinner Hnew) as Hattempt.
  destruct (attempt fuel end_anchored inp inner 0 _) as [[[|]|e] c']; cbn; auto.
Qed.
End Guarded.

(** What holds of the exceptions of every call on the inner pattern holds
    of the exception of [match_pattern], on the engine as the program runs
    it (with the table a shared list object). *)
Lemma verdict_guarded (E : exn -> Prop) (T : caps -> Prop) (G : nat -> Prop) fuel pat line :
  guarded_from E T G fuel (strip_anchors pat).2 0 ->
  T (replicate (count_capture_groups pat) None) ->
  match verdict heap fuel pat line with
  | Ok _ => True
  | Err e => E e
  end.
Proof.
  intros Hinner Hnew. rewrite verdict_heap_value.
  unfold verdict, match_pattern, init. cbn [pattern captures num_capture_groups].
  pose proof (has_match_guarded E T G fuel (count_capture_groups pat) line pat
                (new_store []) Hinner Hnew) as H.
  destruct (has_match _ _ _ _ _) as [r c]. exact H.
Qed.

(** ** The parts of a pattern *)

Lemma substring_refl p : substring p p.
Proof. exists [], []. now rewrite app_nil_r. Qed.

Lemma substring_trans s t p : substring s t -> substring t p -> substring s p.
Proof.
  intros (u & v & ->) (u' & v' & ->). exists (u' ++ u), (v ++ v').
  now rewrite <- !app_assoc.
Qed.

Lemma substring_length s p : substring s p -> length s <= length p.
Proof. intros (u & v & ->). rewrite !length_app. lia. Qed.

Lemma substring_drop n p : substring (drop n p) p.
Proof. exists (take n p), []. now rewrite app_nil_r, take_drop. Qed.

Lemma never_adjacent_substring a b s p :
  substring s p -> never_adjacent a b p -> never_adjacent a b s.
Proof.
  intros (u & v & ->) Hp i Hi Hi'. apply (Hp (length u + i)).
  - rewrite lookup_app_r by lia. replace (length u + i - length u) with i by lia.
    now apply lookup_app_l_Some.
  - rewrite lookup_app_r by lia. replace (S (length u + i) - length u) with (S i) by lia.
    now apply lookup_app_l_Some.
Qed.

Lemma adjacent_never a b p : adjacent a b p = false -> never_adjacent a b p.
Proof.
  induction p as [|x tl IH]; intros Hadj i Hi Hi'; [discriminate|].
  cbn [adjacent] in Hadj. destruct tl as [|y tl]; [destruct i; discriminate|].
  apply orb_false_iff in Hadj as [Hhere Hlater].
  destruct i as [|i].
  - cbn in Hi, Hi'. injection Hi as ->. injection Hi' as ->.
    now rewrite !Ascii.eqb_refl in Hhere.
  - now apply (IH Hlater i).
Qed.

Lemma never_escapes_substring test s p :
  substring s p -> never_escapes test p -> never_escapes test s.
Proof.
  intros (u & v & ->) Hp i c Hi Hi'. apply (Hp (length u + i)).
  - rewrite lookup_app_r by lia. replace (length u + i - length u) with i by lia.
    now apply lookup_app_l_Some.
  - rewrite lookup_app_r by lia. replace (S (length u + i) - length u) with (S i) by lia.
    now apply lookup_app_l_Some.
Qed.

Lemma escapes_never test p : escapes test p = false -> never_escapes test p.
Proof.
  induction p as [|x tl IH]; intros Hesc i c Hi Hi'; [discriminate|].
  cbn [escapes] in Hesc. destruct tl as [|y tl]; [destruct i; discriminate|].
  apply orb_false_iff in Hesc as [Hhere Hlater].
  destruct i as [|i].
  - cbn in Hi, Hi'. injection Hi as ->. injection Hi' as ->.
    now rewrite Ascii.eqb_refl in Hhere.
  - now apply (IH Hlater i c).
Qed.

Lemma rest_after_substring pat expr_len q : substring (rest_after pat expr_len q) pat.
Proof. apply substring_drop. Qed.

Lemma join_bar_substring alt alts : In alt alts -> substring alt (join_bar alts).
Proof.
  induction alts as [|a alts IH]; [contradiction|].
  destruct alts as [|a' alts].
  { intros [->|[]]. apply substring_refl. }
  rewrite join_bar_cons by discriminate. intros [->|Hin].
  - now exists [], ("|"%char :: join_bar (a' :: alts)).
  - destruct (IH Hin) as (u & v & Huv). rewrite Huv.
    exists (a ++ "|"%char :: u), v. now rewrite <- app_assoc.
Qed.

Lemma split_alternatives_substring alt group_content :
  In alt (split_alternatives group_content) -> substring alt group_content.
Proof.
  intros Hin. apply join_bar_substring in Hin.
  now rewrite split_alternatives_join_bar in Hin.
Qed.

(** A group at the head of a pattern: the pattern is the group content
    between its parentheses, followed by what comes after the group. *)
Lemma parse_group_structure pat alternatives expr_len negated :
  parse_expression pat = Ok (Group alternatives, expr_len, negated) ->
  exists group_content,
    pat = "("%char :: group_content ++ ")"%char :: drop expr_len pat
    /\ alternatives = split_alternatives group_content
    /\ expr_len = length group_content + 2.
Proof.
  intros Hparse. unfold parse_expression in Hparse.
  destruct (startswith pat ["("%char]) eqn:Hopen.
  2: { exfalso. unfold parse_single_atom in Hparse.
       destruct pat as [|c0 tl]; [discriminate|].
       destruct (Ascii.eqb c0 "\").
       { destruct tl as [|esc tl]; [discriminate|].
         destruct (isdigit esc); [destruct (int_of_char esc); discriminate|].
         repeat (destruct (Ascii.eqb esc _)); discriminate. }
       destruct (Ascii.eqb c0 "[").
       { destruct (_ <=? _); discriminate. }
       destruct (Ascii.eqb c0 "."); discriminate. }
  destruct (find_matching_paren pat 0) as [n|] eqn:Hfind; [|discriminate].
  cbn [res_bind] in Hparse. injection Hparse as <- <- <-.
  apply startswith_spec in Hopen as [tl ->]. cbn [app] in *.
  apply find_matching_paren_index in Hfind as (Hn & Hclose & _). cbn [length] in Hn.
  destruct n as [|n]; [lia|]. change (tl !! n = Some ")"%char) in Hclose.
  exists (take n tl). unfold slice.
  replace (S n + 1) with (S (S n)) by lia.
  change (drop 1 ("("%char :: tl)) with tl.
  change (drop (S (S n)) ("("%char :: tl)) with (drop (S n) tl).
  replace (S n - 1) with n by lia.
  repeat split.
  - f_equal. rewrite <- (take_drop n tl) at 1. f_equal.
    now apply drop_S.
  - rewrite length_take. lia.
Qed.

(** *** Counting the groups of the parts *)

Lemma count_capture_groups_sep c v :
  Ascii.eqb c "\" = false -> Ascii.eqb c "(" = false ->
  forall u,
    count_capture_groups (u ++ c :: v) = count_capture_groups u + count_capture_groups v
    /\ forall x, count_capture_groups (x :: u ++ c :: v)
                 = count_capture_groups (x :: u) + count_capture_groups v.
Proof.
  intros Hc1 Hc2.
  assert (Hc : count_capture_groups (c :: v) = count_capture_groups v).
  { rewrite count_capture_groups_cons. now rewrite Hc1, Hc2. }
  induction u as [|y u [IH1 IH2]].
  - split; [exact Hc|]. intros x. cbn [app]. rewrite !(count_capture_groups_cons x).
    destruct (Ascii.eqb x "\"); [reflexivity|].
    destruct (Ascii.eqb x "("); rewrite Hc; reflexivity.
  - split; [apply IH2|]. intros x. cbn [app].
    rewrite !(count_capture_groups_cons x).
    destruct (Ascii.eqb x "\"); [exact IH1|].
    destruct (Ascii.eqb x "("); rewrite IH2; reflexivity.
Qed.

Lemma count_capture_groups_alternative alt alts :
  In alt alts -> count_capture_groups alt <= count_capture_groups (join_bar alts).
Proof.
  induction alts as [|a alts IH]; [contradiction|].
  destruct alts as [|a' alts].
  { intros [->|[]]. reflexivity. }
  rewrite join_bar_cons by discriminate.
  rewrite (proj1 (count_capture_groups_sep "|" _ eq_refl eq_refl a)).
  intros [->|Hin]; [lia|]. specialize (IH Hin). lia.
Qed.

Lemma scan_bracket_closes l : forall start,
  scan_bracket l start < start + length l ->
  l !! (scan_bracket l start - start) = Some "]"%char.
Proof.
  induction l as [|c l IH]; intros start; cbn [scan_bracket length]; [lia|].
  destruct (Ascii.eqb_spec c "]") as [->|_].
  - intros _. now rewrite Nat.sub_diag.
  - intros Hlt. pose proof (scan_bracket_bound l (S start)).
    replace (scan_bracket l (S start) - start)
      with (S (scan_bracket l (S start) - S start)) by lia.
    apply IH. lia.
Qed.

(** The groups counted in a pattern are those of the expression at its
    head and those after it. *)
Lemma count_capture_groups_expression pat e expr_len negated :
  parse_expression pat = Ok (e, expr_len, negated) ->
  count_capture_groups (drop expr_len pat) <= count_capture_groups pat
  /\ forall alternatives alt,
       e = Group alternatives -> In alt alternatives ->
       1 + count_capture_groups alt + count_capture_groups (drop expr_len pat)
       <= count_capture_groups pat.
Proof.
  intros Hparse.
  destruct (startswith pat ["("%char]) eqn:Hopen.
  { assert (exists alternatives, e = Group alternatives) as [alternatives ->].
    { unfold parse_expression in Hparse. rewrite Hopen in Hparse.
      destruct (find_matching_paren pat 0); [|discriminate].
      injection Hparse as <- _ _. eauto. }
    apply parse_group_structure in Hparse as (content & Hpat & -> & ->).
    set (post := drop (length content + 2) pat) in *. clearbody post. subst pat.
    rewrite count_capture_groups_cons. cbn [Ascii.eqb Bool.eqb].
    rewrite (proj1 (count_capture_groups_sep ")" post eq_refl eq_refl content)).
    split; [lia|]. intros alts alt [= <-] Hin.
    apply count_capture_groups_alternative in Hin.
    rewrite split_alternatives_join_bar in Hin. lia. }
  unfold parse_expression in Hparse. rewrite Hopen in Hparse.
  destruct pat as [|c0 tl]; [discriminate|].
  cbn [startswith] in Hopen. rewrite andb_true_r in Hopen.
  cbn [parse_single_atom] in Hparse.
  rewrite count_capture_groups_cons.
  destruct (Ascii.eqb c0 "\") eqn:E0.
  { destruct tl as [|esc tl]; [discriminate|].
    destruct (isdigit esc); [destruct (int_of_char esc); cbn in Hparse; [|discriminate]|];
      repeat (destruct (Ascii.eqb esc _)); injection Hparse as <- <- <-;
      (split; [reflexivity|discriminate]). }
  rewrite Hopen.
  destruct (Ascii.eqb c0 "[") eqn:E1.
  2: { destruct (Ascii.eqb c0 "."); injection Hparse as <- <- <-;
         (split; [reflexivity|discriminate]). }
  set (neg := match tl with [] => false | c1 :: _ => Ascii.eqb c1 "^" end) in *.
  set (start := if neg then 2 else 1) in *.
  set (p := scan_bracket (drop start (c0 :: tl)) start) in *.
  destruct (Nat.leb_spec (length (c0 :: tl)) p) as [|Hp]; [discriminate|].
  injection Hparse as <- <- <-. split; [|discriminate].
  pose proof (scan_bracket_bound (drop start (c0 :: tl)) start) as Hbound. fold p in Hbound.
  assert (Hstart : 1 <= start) by (unfold start; destruct neg; lia).
  assert (Hclose : (c0 :: tl) !! p = Some "]"%char).
  { pose proof (scan_bracket_closes (drop start (c0 :: tl)) start) as Hc.
    fold p in Hc. rewrite length_drop, lookup_drop in Hc.
    replace (start + (p - start)) with p in Hc by lia. apply Hc. lia. }
  destruct p as [|p]; [lia|]. change (tl !! p = Some "]"%char) in Hclose.
  replace (S p + 1) with (S (S p)) by lia.
  change (drop (S (S p)) (c0 :: tl)) with (drop (S p) tl).
  rewrite <- (take_drop p tl) at 2. rewrite (drop_S _ _ _ Hclose).
  rewrite (proj1 (count_capture_groups_sep "]" _ eq_refl eq_refl (take p tl))). lia.
Qed.

Lemma count_capture_groups_rest pat expr_len :
  count_capture_groups (rest_after pat expr_len (quantifier_at pat expr_len))
  = count_capture_groups (drop expr_len pat).
Proof.
  unfold rest_after, quantifier_at.
  destruct (pat !! expr_len) as [q|] eqn:Hq; [|now rewrite Nat.add_0_r].
  destruct (is_quantifier q) eqn:Hquant; [|now rewrite Nat.add_0_r].
  rewrite (drop_S _ _ _ Hq), count_capture_groups_cons, Nat.add_1_r.
  destruct (Ascii.eqb_spec q "\") as [->|_]; [discriminate|].
  destruct (Ascii.eqb_spec q "(") as [->|_]; [discriminate|reflexivity].
Qed.

(** ** Capture slots are written inside the table *)

Lemma paren_scan_error l err : forall i d,
  paren_scan l i d = Err err -> exists msg, err = RuntimeError msg.
Proof.
  induction l as [|c l IH]; intros i d; cbn [paren_scan].
  - intros H. inversion H. eauto.
  - destruct (Z.eqb _ 0); [discriminate|apply IH].
Qed.

Lemma parse_expression_error pat err :
  pat <> [] -> parse_expression pat = Err err ->
  err = ValueError \/ exists msg, err = RuntimeError msg.
Proof.
  intros Hne. unfold parse_expression.
  destruct (startswith pat ["("%char]).
  { unfold find_matching_paren.
    destruct (paren_scan _ _ _) eqn:Hscan; cbn [res_bind]; [discriminate|].
    intros H. inversion H. subst. right. now apply paren_scan_error in Hscan. }
  destruct pat as [|c0 tl]; [congruence|]. cbn [parse_single_atom].
  destruct (Ascii.eqb c0 "\").
  { destruct tl as [|esc tl]; [intros H; inversion H; eauto|].
    destruct (isdigit esc).
    - unfold int_of_char. destruct (_ && _); cbn [res_bind]; [discriminate|].
      intros H. inversion H. auto.
    - repeat (destruct (Ascii.eqb esc _)); discriminate. }
  destruct (Ascii.eqb c0 "[").
  { destruct (_ <=? _); [intros H; inversion H; eauto|discriminate]. }
  destruct (Ascii.eqb c0 "."); discriminate.
Qed.

Lemma parse_backreference_zero pat expr_len negated :
  parse_expression pat = Ok (Backreference 0, expr_len, negated) ->
  exists d, pat !! 0 = Some "\"%char /\ pat !! 1 = Some d /\ reads_as_zero d = true.
Proof.
  unfold parse_expression.
  destruct (startswith pat ["("%char]);
    [destruct (find_matching_paren pat 0); discriminate|].
  destruct pat as [|c0 tl]; [discriminate|]. cbn [parse_single_atom].
  destruct (Ascii.eqb_spec c0 "\") as [->|_].
  { destruct tl as [|esc tl]; [discriminate|].
    destruct (isdigit esc) eqn:Hdigit.
    - destruct (int_of_char esc) as [n|] eqn:Hint; cbn [res_bind]; [|discriminate].
      intros [= -> _ _]. exists esc. repeat split.
      unfold reads_as_zero. now rewrite Hdigit, Hint.
    - repeat (destruct (Ascii.eqb esc _)); discriminate. }
  destruct (Ascii.eqb c0 "[").
  { destruct (_ <=? _); discriminate. }
  destruct (Ascii.eqb c0 "."); discriminate.
Qed.

(** Entered with the group counter [gc] where [gc] plus the number of
    groups counted in the pattern fits the table of [N] slots, a generator
    of [match_inner] writes inside the table, hands out final counters that
    fit as well, and raises no [IndexError]. *)
Lemma match_inner_slots N fuel :
  forall pat gc,
    gc + count_capture_groups pat <= N ->
    1 <= N \/ never_escapes reads_as_zero pat ->
    guarded_from (fun e => e <> IndexError) (fun c => length c = N)
      (fun g => g <= gc + count_capture_groups pat) fuel pat gc.
Proof.
  induction fuel as [|fuel IH]; intros pat gc Hfit Hzero inp c Hc.
  { cbn. now constructor. }
  apply match_inner_guarded_step; [assumption|intros ->; cbn; lia| |].
  { intros err Hne Herr. destruct (parse_expression_error _ _ Hne Herr) as [->|[msg ->]];
      discriminate. }
  intros e expr_len negated Hparse.
  set (quantifier := quantifier_at pat expr_len).
  set (rest := rest_after pat expr_len quantifier).
  pose proof (count_capture_groups_expression _ _ _ _ Hparse) as [Hcount Hgroup].
  rewrite <- count_capture_groups_rest in Hcount, Hgroup. fold quantifier rest in Hcount, Hgroup.
  assert (Hzero' : forall s, substring s pat -> 1 <= N \/ never_escapes reads_as_zero s).
  { intros s Hs. destruct Hzero as [|Hzero]; [now left|right].
    now apply (never_escapes_substring _ s pat). }
  assert (Hrest : forall g, g + count_capture_groups rest <= gc + count_capture_groups pat ->
            guarded_from (fun e => e <> IndexError) (fun c => length c = N)
              (fun g => g <= gc + count_capture_groups pat) fuel rest g).
  { intros g Hg. eapply guarded_from_mono; [|apply IH].
    - cbn beta. intros g' Hg'. lia.
    - lia.
    - apply Hzero', rest_after_substring. }
  split; [apply Hrest; lia|].
  destruct e as [[|ref_num]|kind|ch|class_str| |alternatives]; try exact I.
  - intros Hempty. exfalso. cbn in Hempty. subst N.
    destruct Hzero as [|Hzero]; [lia|].
    apply parse_backreference_zero in Hparse as (d & H0 & H1 & Hd).
    rewrite (Hzero 0 d H0 H1) in Hd. discriminate.
  - exists (fun g => g + count_capture_groups rest <= gc + count_capture_groups pat).
    repeat split.
    + intros alt Hin. specialize (Hgroup _ _ eq_refl Hin).
      eapply guarded_from_mono; [|apply IH].
      * cbn beta. intros g Hg. lia.
      * lia.
      * apply Hzero'. apply parse_group_structure in Hparse as (content & Hpat & -> & _).
        apply (substring_trans _ content); [now apply split_alternatives_substring|].
        exists ["("%char], (")"%char :: drop expr_len pat).
        exact Hpat.
    + exact Hrest.
    + intros v c' Hc'. unfold value_setitem.
      assert (Hone : 1 <= count_capture_groups pat).
      { apply parse_group_structure in Hparse as (content & Hpat & -> & _).
        destruct (split_alternatives content) as [|alt alts] eqn:Halts.
        - now destruct (split_scan_nonempty content 0 []).
        - specialize (Hgroup _ alt eq_refl (or_introl eq_refl)). lia. }
      destruct (Nat.ltb_spec gc (length c')) as [_|Hge]; [|lia].
      now rewrite length_insert.
    + discriminate.
Qed.

Lemma strip_anchors_substring pat : substring (strip_anchors pat).2 pat.
Proof. destruct (strip_anchors_parts pat) as (pre & post & H & _). now exists pre, post. Qed.

Lemma count_capture_groups_inner pat :
  count_capture_groups (strip_anchors pat).2 = count_capture_groups pat.
Proof.
  destruct (strip_anchors_parts pat) as (pre & post & H & Hpre & Hpost).
  rewrite H at 2.
  assert (Hend : count_capture_groups ((strip_anchors pat).2 ++ post)
                 = count_capture_groups (strip_anchors pat).2).
  { destruct Hpost as [->| ->]; [now rewrite app_nil_r|].
    rewrite (proj1 (count_capture_groups_sep "$" [] eq_refl eq_refl _)). cbn. lia. }
  destruct Hpre as [->| ->]; [now symmetry|].
  cbn [app]. rewrite count_capture_groups_cons. now symmetry.
Qed.

(** The assignment [self.captures[this_group_num - 1] = ...] never falls
    outside the table, although groups are numbered as they are met and
    the table is sized by [_count_capture_groups]: [match_pattern] raises
    no [IndexError] on a pattern in which a group is counted, nor on a
    pattern in which no backslash is followed by a digit that [int] reads
    as 0 (the backreference that reads the slot [-1], which an empty table
    does not have). *)
Theorem capture_writes_stay_in_table fuel pat line :
  1 <= count_capture_groups pat \/ escapes reads_as_zero pat = false ->
  verdict heap fuel pat line <> Err IndexError.
Proof.
  intros Hzero.
  assert (Hzero' : 1 <= count_capture_groups pat \/ never_escapes reads_as_zero pat)
    by (destruct Hzero; [now left|right; now apply escapes_never]).
  clear Hzero. rename Hzero' into Hzero.
  pose proof (verdict_guarded (fun e => e <> IndexError)
                (fun c => length c = count_capture_groups pat)
                (fun g => g <= 0 + count_capture_groups (strip_anchors pat).2)
                fuel pat line) as H.
  destruct (verdict heap fuel pat line) as [b|e]; [discriminate|].
  intros [= ->]. apply H; [|apply length_replicate|reflexivity].
  apply match_inner_slots.
  - rewrite count_capture_groups_inner. lia.
  - destruct Hzero as [|Hzero]; [now left|right].
    eapply never_escapes_substring; [apply strip_anchors_substring|exact Hzero].
Qed.

Lemma capture_writes_stay_in_table_witness :
  verdict heap 10 (chars "(a|(b))(c)\0") (chars "ac") <> Err IndexError.
Proof. apply capture_writes_stay_in_table. left. cbn. lia. Defined.

(** ** The nesting of [match_inner] *)

Lemma rest_after_shorter pat e expr_len negated q :
  parse_expression pat = Ok (e, expr_len, negated) ->
  length (rest_after pat expr_len q) < length pat.
Proof.
  intros Hparse. destruct pat as [|c0 tl]; [discriminate|].
  apply parse_expression_take in Hparse as [Hlen _].
  unfold rest_after. rewrite length_drop. cbn [length]. lia.
Qed.

Lemma parse_expression_nonempty pat e expr_len negated :
  parse_expression pat = Ok (e, expr_len, negated) -> pat <> [].
Proof. intros H ->. discriminate. Qed.

Lemma alternative_shorter pat alternatives expr_len negated alt :
  parse_expression pat = Ok (Group alternatives, expr_len, negated) ->
  In alt alternatives ->
  substring alt pat /\ length alt + 2 <= length pat.
Proof.
  intros Hparse Hin.
  apply parse_group_structure in Hparse as (content & Hpat & -> & ->).
  apply split_alternatives_substring in Hin.
  split.
  - apply (substring_trans _ content); [assumption|].
    now exists ["("%char], (")"%char :: drop (length content + 2) pat).
  - apply substring_length in Hin. rewrite Hpat. cbn [length].
    rewrite length_app. cbn [length]. lia.
Qed.

Lemma group_then_quantifier pat alternatives expr_len negated q :
  parse_expression pat = Ok (Group alternatives, expr_len, negated) ->
  quantifier_at pat expr_len = Some q ->
  exists i, pat !! i = Some ")"%char /\ pat !! S i = Some q.
Proof.
  intros Hparse Hq.
  apply parse_group_structure in Hparse as (content & Hpat & _ & ->).
  exists (length content + 1). split.
  - rewrite Hpat.
    apply (list_lookup_middle ("("%char :: content)). cbn [length]. lia.
  - unfold quantifier_at in Hq. replace (S (length content + 1)) with (length content + 2) by lia.
    destruct (pat !! (length content + 2)) as [q'|]; [|discriminate].
    destruct (is_quantifier q'); congruence.
Qed.

Lemma match_inner_depth fuel :
  forall pat gc,
    never_adjacent ")" "+" pat -> length pat < fuel ->
    guarded_from (fun e => e <> RecursionError) (fun _ => True) (fun _ => True) fuel pat gc.
Proof.
  induction fuel as [|fuel IH]; intros pat gc Hplus Hlen inp c _; [lia|].
  apply match_inner_guarded_step; [exact I|auto| |].
  { intros err Hne Herr. destruct (parse_expression_error _ _ Hne Herr) as [->|[msg ->]];
      discriminate. }
  intros e expr_len negated Hparse.
  set (quantifier := quantifier_at pat expr_len).
  set (rest := rest_after pat expr_len quantifier).
  assert (Hrest : forall g,
            guarded_from (fun e => e <> RecursionError) (fun _ => True) (fun _ => True)
              fuel rest g).
  { intros g. apply IH.
    - eapply never_adjacent_substring; [apply rest_after_substring|exact Hplus].
    - pose proof (rest_after_shorter _ _ _ _ quantifier Hparse). fold rest in H. lia. }
  split; [apply Hrest|].
  destruct e as [[|ref_num]|kind|ch|class_str| |alternatives]; try exact I.
  - discriminate.
  - exists (fun _ => True). repeat split.
    + intros alt Hin. destruct (alternative_shorter _ _ _ _ _ Hparse Hin) as [Hsub Hshort].
      apply IH; [|lia]. exact (never_adjacent_substring _ _ _ _ Hsub Hplus).
    + intros g _. apply Hrest.
    + intros v c' _. destruct (value_setitem gc v c'); [exact I|discriminate].
    + intros Hq. exfalso.
      destruct (group_then_quantifier _ _ _ _ _ Hparse Hq) as (i & Hi & Hi').
      now apply (Hplus i).
Qed.

(** Unless a group stands under [+], the nesting of the calls of
    [match_inner] is bounded by the pattern, whatever the line: a limit of
    one more call than the pattern has characters is never reached, and
    [match_pattern] raises no [RecursionError]. *)
Theorem recursion_bounded_by_pattern_length fuel pat line :
  adjacent ")" "+" pat = false -> length pat < fuel ->
  verdict heap fuel pat line <> Err RecursionError.
Proof.
  intros Hplus Hlen. apply adjacent_never in Hplus.
  pose proof (verdict_guarded (fun e => e <> RecursionError) (fun _ => True) (fun _ => True)
                fuel pat line) as H.
  destruct (verdict heap fuel pat line) as [b|e]; [discriminate|].
  intros [= ->]. apply H; [|exact I|reflexivity].
  apply match_inner_depth.
  - eapply never_adjacent_substring; [apply strip_anchors_substring|exact Hplus].
  - pose proof (substring_length _ _ (strip_anchors_substring pat)). lia.
Qed.

Lemma recursion_bounded_by_pattern_length_witness :
  verdict heap 10 (chars "(a|b)?c*d") (chars "abcccd") <> Err RecursionError.
Proof.
  apply recursion_bounded_by_pattern_length.
  - reflexivity.
  - cbn. lia.
Defined.

Lemma parse_plain c0 tl :
  opens_nothing c0 = true ->
  exists e, parse_expression (c0 :: tl) = Ok (e, 1, false)
            /\ (e = Wildcard \/ e = Literal c0).
Proof.
  intros Hc0. unfold opens_nothing in Hc0. apply negb_true_iff in Hc0.
  apply orb_false_iff in Hc0 as [Hc0 Hparen]. apply orb_false_iff in Hc0 as [Hbs Hbr].
  unfold parse_expression. cbn [startswith parse_single_atom].
  rewrite Hparen, Hbs, Hbr. cbn [andb].
  destruct (Ascii.eqb c0 "."); eauto.
Qed.

Lemma match_inner_plain fuel :
  forall pat gc,
    forallb opens_nothing pat = true -> length pat < fuel ->
    guarded_from (fun _ => False) (fun _ => True) (fun _ => True) fuel pat gc.
Proof.
  induction fuel as [|fuel IH]; intros pat gc Hplain Hlen inp c _; [lia|].
  apply match_inner_guarded_step; [exact I|auto| |].
  { intros err Hne Herr. destruct pat as [|c0 tl]; [congruence|].
    cbn [forallb] in Hplain. apply andb_prop in Hplain as [Hc0 _].
    destruct (parse_plain c0 tl Hc0) as (e & He & _). congruence. }
  intros e expr_len negated Hparse.
  set (quantifier := quantifier_at pat expr_len).
  split.
  - apply IH.
    + unfold rest_after. rewrite forallb_forall in *. intros x Hx. apply Hplain.
      rewrite <- (take_drop (expr_len + match quantifier with Some _ => 1 | None => 0 end) pat).
      apply in_or_app. now right.
    + pose proof (rest_after_shorter _ _ _ _ quantifier Hparse). lia.
  - destruct pat as [|c0 tl]; [discriminate|].
    cbn [forallb] in Hplain. apply andb_prop in Hplain as [Hc0 _].
    destruct (parse_plain c0 tl Hc0) as (e' & He' & [->| ->]);
      rewrite He' in Hparse; injection Hparse as <- _ _; exact I.
Qed.

(** A pattern without backslash, bracket and opening parenthesis (plain
    characters, [.], quantifiers, anchors) has nothing that can fail:
    with a recursion limit above its length, [match_pattern] returns a
    verdict on every line. *)
Theorem plain_patterns_always_answer fuel pat line :
  forallb opens_nothing pat = true -> length pat < fuel ->
  exists b, verdict heap fuel pat line = Ok b.
Proof.
  intros Hplain Hlen.
  pose proof (verdict_guarded (fun _ => False) (fun _ => True) (fun _ => True)
                fuel pat line) as H.
  destruct (verdict heap fuel pat line) as [b|e]; [now exists b|].
  exfalso. apply H; [|exact I].
  apply match_inner_plain.
  - destruct (strip_anchors_substring pat) as (u & v & Hpat).
    rewrite forallb_forall in *. intros x Hx. apply Hplain. rewrite Hpat.
    apply in_or_app. right. apply in_or_app. now left.
  - pose proof (substring_length _ _ (strip_anchors_substring pat)). lia.
Qed.

Lemma plain_patterns_always_answer_witness :
  exists b, verdict heap 10 (chars "^a.*b+c?$") (chars "axxbb") = Ok b.
Proof. apply plain_patterns_always_answer; [reflexivity|cbn; lia]. Defined.

(** ** Patterns of plain characters *)

Lemma literal_char_parse c0 tl :
  literal_char c0 = true ->
  parse_expression (c0 :: tl) = Ok (Literal c0, 1, false) /\ is_quantifier c0 = false
  /\ Ascii.eqb c0 "^" = false /\ Ascii.eqb c0 "$" = false.
Proof.
  unfold literal_char, is_quantifier. cbn [chars existsb].
  change (chars "\[(.+?*^$") with ["\"; "["; "("; "."; "+"; "?"; "*"; "^"; "$"]%char.
  cbn [existsb]. intros H. apply negb_true_iff in H.
  repeat (apply orb_false_iff in H as [?H H]).
  unfold parse_expression. cbn [startswith parse_single_atom].
  repeat match goal with Heq : Ascii.eqb c0 _ = false |- _ => rewrite Heq; clear Heq end.
  auto.
Qed.

Lemma match_inner_literal p : forall fuel inp gc (c : caps),
  forallb literal_char p = true -> length p < fuel ->
  match_inner fuel inp p gc c
  = if startswith inp p then Yield (length p, gc) c Stop else Stop c.
Proof.
  induction p as [|x p IH]; intros [|fuel] inp gc c Hlit Hlen; cbn [length] in Hlen; try lia.
  { reflexivity. }
  cbn [forallb] in Hlit. apply andb_prop in Hlit as [Hx Hlit].
  destruct (literal_char_parse x p Hx) as (Hparse & _).
  cbn [match_inner]. rewrite Hparse.
  assert (Hq : quantifier_at (x :: p) 1 = None).
  { unfold quantifier_at. destruct p as [|y p]; [reflexivity|]. cbn [lookup list_lookup].
    cbn [forallb] in Hlit. apply andb_prop in Hlit as [Hy _].
    destruct (literal_char_parse y p Hy) as (_ & -> & _). reflexivity. }
  rewrite Hq. cbn [get_match_fn rest_after Nat.add].
  change (drop 1 (x :: p)) with p.
  destruct inp as [|i0 inp]; [reflexivity|].
  cbn [startswith]. destruct (Ascii.eqb i0 x); [|reflexivity]. cbn [andb].
  change (drop 1 (i0 :: inp)) with inp.
  rewrite IH by (assumption || lia).
  destruct (startswith inp p); reflexivity.
Qed.

Lemma strip_anchors_framed p (start_anchored end_anchored : bool) :
  startswith p ["^"%char] = false -> endswith_char p "$" = false ->
  strip_anchors ((if start_anchored then ["^"%char] else []) ++ p
                 ++ (if end_anchored then ["$"%char] else []))
  = (start_anchored, end_anchored, p).
Proof.
  intros Hhat Hdollar.
  pose proof (strip_anchors_between
                ((if start_anchored then ["^"%char] else []) ++ p
                 ++ (if end_anchored then ["$"%char] else []))) as Hbetween.
  assert (Hstart : startswith ((if start_anchored then ["^"%char] else []) ++ p
                               ++ (if end_anchored then ["$"%char] else [])) ["^"%char]
                   = start_anchored).
  { destruct start_anchored; [reflexivity|]. cbn [app].
    destruct p as [|x p]; [now destruct end_anchored|]. exact Hhat. }
  assert (Hend : endswith_char ((if start_anchored then ["^"%char] else []) ++ p
                                ++ (if end_anchored then ["$"%char] else [])) "$"
                 = end_anchored).
  { unfold endswith_char in *. destruct end_anchored.
    - rewrite app_assoc, last_snoc. reflexivity.
    - rewrite app_nil_r. destruct (decide (p = [])) as [->|Hne].
      + now destruct start_anchored.
      + destruct (exists_last Hne) as (p' & z & ->).
        rewrite app_assoc, last_snoc. now rewrite last_snoc in Hdollar. }
  unfold strip_anchors in *. rewrite Hstart, Hend in *.
  f_equal. destruct start_anchored, end_anchored; cbn [app] in *.
  - injection Hbetween as Hbetween. now apply app_inv_tail in Hbetween.
  - injection Hbetween as Hbetween. now rewrite app_nil_r in Hbetween.
  - now apply app_inv_tail in Hbetween.
  - now rewrite app_nil_r in Hbetween.
Qed.

Lemma literal_unanchored p :
  forallb literal_char p = true ->
  startswith p ["^"%char] = false /\ endswith_char p "$" = false.
Proof.
  intros Hlit. split.
  - destruct p as [|x p]; [reflexivity|].
    cbn [forallb] in Hlit. apply andb_prop in Hlit as [Hx _].
    destruct (literal_char_parse x p Hx) as (_ & _ & Hhat & _).
    cbn [startswith]. now rewrite Hhat.
  - unfold endswith_char. destruct (decide (p = [])) as [->|Hne]; [reflexivity|].
    destruct (exists_last Hne) as (p' & z & ->). rewrite last_snoc.
    rewrite forallb_app in Hlit. apply andb_prop in Hlit as [_ Hz].
    cbn [forallb] in Hz. rewrite andb_true_r in Hz.
    now destruct (literal_char_parse z [] Hz) as (_ & _ & _ & ->).
Qed.

(** *** Generators of at most one item *)

Section OneItem.
Variables (fuel : nat) (p : str) (test : str -> bool) (n : nat).
Hypothesis one_item : forall inp (c : caps),
  match_inner fuel inp p 0 c = if test inp then Yield (n, 0) c Stop else Stop c.

Lemma attempt_one_item end_anchored line i (c : caps) :
  attempt fuel end_anchored line p i c
  = (Ok (test (drop i line)
         && (if end_anchored then i + n =? length line else true)), c).
Proof.
  unfold attempt. rewrite one_item.
  destruct (test (drop i line)), end_anchored; cbn; try reflexivity.
  destruct (i + n =? length line); reflexivity.
Qed.

Lemma try_offsets_one_item end_anchored line offsets (c : caps) :
  try_offsets fuel end_anchored line p offsets c
  = (Ok (existsb (fun i => test (drop i line)
                           && (if end_anchored then i + n =? length line else true))
           offsets), c).
Proof.
  induction offsets as [|i offsets IH]; [reflexivity|].
  cbn [try_offsets existsb]. rewrite attempt_one_item.
  destruct (test (drop i line) && _); [reflexivity|exact IH].
Qed.

Lemma verdict_one_item (start_anchored end_anchored : bool) line :
  startswith p ["^"%char] = false -> endswith_char p "$" = false ->
  let found i :=
    test (drop i line) && (if end_anchored then i + n =? length line else true) in
  verdict heap fuel
    ((if start_anchored then ["^"%char] else []) ++ p
     ++ (if end_anchored then ["$"%char] else [])) line
  = Ok (if start_anchored then found 0 else existsb found (seq 0 (length line + 1))).
Proof.
  intros Hhat Hdollar found. rewrite verdict_heap_value.
  unfold verdict, match_pattern, init, has_match.
  cbn [pattern captures num_capture_groups].
  rewrite strip_anchors_framed by assumption.
  cbn [rebind_new new_store value_store].
  destruct start_anchored.
  - now rewrite attempt_one_item.
  - now rewrite try_offsets_one_item.
Qed.
End OneItem.

Lemma occurrence_at line p i (end_anchored : bool) :
  i <= length line ->
  startswith (drop i line) p
  && (if end_anchored then i + length p =? length line else true) = true
  <-> exists v, line = take i line ++ p ++ v /\ (end_anchored = true -> v = []).
Proof.
  intros Hi. rewrite andb_true_iff, startswith_spec. split.
  - intros [[v Hv] Hend]. exists v. split.
    + rewrite <- Hv. now rewrite take_drop.
    + intros ->. apply Nat.eqb_eq in Hend.
      assert (Hlen : length (drop i line) = length (p ++ v)) by now rewrite Hv.
      rewrite length_drop, length_app in Hlen.
      destruct v; [reflexivity|]. cbn [length] in Hlen. lia.
  - intros (v & Hline & Hend). split.
    + exists v. rewrite Hline at 1. rewrite drop_app_length'; [reflexivity|].
      rewrite length_take. lia.
    + destruct end_anchored; [|reflexivity]. rewrite (Hend eq_refl) in Hline.
      apply Nat.eqb_eq. apply (f_equal length) in Hline.
      rewrite !length_app, length_take in Hline. cbn [length] in Hline. lia.
Qed.

(** A pattern of plain characters (none of [\ [ ( . + ? * ^ $]), between
    optional anchors, is a substring search: the line matches exactly when
    it is [u ++ p ++ v], with [u] empty under [^] and [v] empty under [$].
    A recursion limit above the length of [p] is enough, whatever the
    line. *)
Theorem literal_pattern_is_substring_search fuel p (start_anchored end_anchored : bool) line :
  forallb literal_char p = true -> length p < fuel ->
  exists b,
    verdict heap fuel
      ((if start_anchored then ["^"%char] else []) ++ p
       ++ (if end_anchored then ["$"%char] else [])) line = Ok b
    /\ (b = true
        <-> exists u v, line = u ++ p ++ v
                        /\ (start_anchored = true -> u = [])
                        /\ (end_anchored = true -> v = [])).
Proof.
  intros Hlit Hlen.
  destruct (literal_unanchored p Hlit) as [Hhat Hdollar].
  rewrite (verdict_one_item fuel p (fun inp => startswith inp p) (length p)
             (fun inp c => match_inner_literal p fuel inp 0 c Hlit Hlen))
    by assumption.
  eexists. split; [reflexivity|].
  destruct start_anchored.
  - rewrite occurrence_at by lia. rewrite take_0. split.
    + intros (v & Hline & Hend). exists [], v. auto.
    + intros (u & v & Hline & Hu & Hend). rewrite (Hu eq_refl) in Hline. eauto.
  - rewrite existsb_exists. split.
    + intros (i & Hi & Hocc). apply in_seq in Hi.
      apply occurrence_at in Hocc as (v & Hline & Hend); [|lia].
      exists (take i line), v. repeat split; [assumption|discriminate|assumption].
    + intros (u & v & Hline & _ & Hend). exists (length u).
      assert (Hu : length u <= length line) by (rewrite Hline, length_app; lia).
      split; [apply in_seq; lia|]. apply occurrence_at; [assumption|].
      exists v. split; [|assumption].
      rewrite Hline at 2. rewrite take_app_length. exact Hline.
Qed.

Lemma literal_pattern_is_substring_search_witness :
  exists b,
    verdict heap 4 (([] : list ascii) ++ chars "cat" ++ ["$"%char]) (chars "tomcat") = Ok b
    /\ (b = true
        <-> exists u v, chars "tomcat" = u ++ chars "cat" ++ v
                        /\ (false = true -> u = [])
                        /\ (true = true -> v = [])).
Proof.
  apply (literal_pattern_is_substring_search 4 (chars "cat") false true (chars "tomcat"));
    [reflexivity|cbn; lia].
Defined.

(** ** Patterns of one atom *)





(** ** The unanchored search *)

Lemma any_length_ext (wanted wanted' : nat -> bool) (o : outcome caps) :
  (forall l, wanted l = wanted' l) -> any_length wanted o = any_length wanted' o.
Proof.
  intros Hw. induction o as [c|v c k IH|e c]; cbn [any_length]; [reflexivity| |reflexivity].
  rewrite Hw. destruct (wanted' v.1); [reflexivity|apply IH].
Qed.

Lemma any_length_restores wanted c (o : outcome caps) c' :
  restoring c o -> any_length wanted o = (Ok false, c') -> c' = c.
Proof.
  induction 1 as [|v c1 k _ IH|e c1]; cbn [any_length].
  - now intros [= <-].
  - destruct (wanted v.1); [discriminate|exact IH].
  - discriminate.
Qed.

Lemma attempt_restores fuel end_anchored line inner i (c c' : caps) :
  attempt fuel end_anchored line inner i c = (Ok false, c') -> c' = c.
Proof.
  unfold attempt. pose proof (match_inner_restoring fuel (drop i line) inner 0 c) as Hres.
  destruct end_anchored; [now apply any_length_restores|].
  destruct Hres; cbn [next_exists]; [now intros [= <-]|discriminate..].
Qed.

Lemma attempt_on_suffix fuel end_anchored line inner i (c : caps) :
  i <= length line ->
  (attempt fuel end_anchored line inner i c).1
  = (attempt fuel end_anchored (drop i line) inner 0 c).1.
Proof.
  intros Hi. unfold attempt. change (drop 0 (drop i line)) with (drop i line).
  destruct end_anchored; [|reflexivity].
  f_equal. apply any_length_ext. intros l. rewrite length_drop.
  destruct (Nat.eqb_spec (i + l) (length line)), (Nat.eqb_spec (0 + l) (length line - i));
    (reflexivity || lia).
Qed.

Lemma try_offsets_first_decisive fuel end_anchored line inner offsets (c : caps) :
  Forall (fun i => i <= length line) offsets ->
  (try_offsets fuel end_anchored line inner offsets c).1
  = first_decisive
      (map (fun i => (attempt fuel end_anchored (drop i line) inner 0 c).1) offsets).
Proof.
  induction 1 as [|i offsets Hi _ IH]; [reflexivity|].
  cbn [try_offsets map first_decisive].
  rewrite <- (attempt_on_suffix _ _ _ _ _ _ Hi).
  destruct (attempt fuel end_anchored line inner i c) as [[[|]|e] c'] eqn:Hattempt;
    [reflexivity| |reflexivity].
  apply attempt_restores in Hattempt. subst c'. exact IH.
Qed.

Lemma strip_anchors_start pat :
  startswith pat ["^"%char] = false ->
  strip_anchors ("^"%char :: pat)
  = (true, (strip_anchors pat).1.2, (strip_anchors pat).2).
Proof.
  intros Hstart. unfold strip_anchors. rewrite Hstart.
  change (startswith ("^"%char :: pat) ["^"%char]) with true. cbn [fst snd].
  assert (Hend : endswith_char ("^"%char :: pat) "$" = endswith_char pat "$").
  { unfold endswith_char. destruct pat as [|x pat]; [reflexivity|].
    now rewrite last_cons_cons. }
  rewrite Hend. destruct (endswith_char pat "$"); [|reflexivity].
  unfold slice. cbn [length].
  change (drop 1 ("^"%char :: pat)) with pat. change (drop 0 pat) with pat.
  replace (S (length pat) - 1 - 1) with (length pat - 1 - 0) by lia. reflexivity.
Qed.

(** Without a start anchor, [match_pattern] tries the pattern at every
    offset of the line in turn, each attempt as if the rest of the line
    were a line of its own and the pattern were anchored at the start: its
    result is that of the first attempt that does not answer [False].
    Nothing of an abandoned attempt is carried to the next one. *)
Theorem unanchored_search_tries_every_suffix fuel pat line :
  startswith pat ["^"%char] = false ->
  verdict heap fuel pat line
  = first_decisive
      (map (fun i => verdict heap fuel ("^"%char :: pat) (drop i line))
         (seq 0 (length line + 1))).
Proof.
  intros Hstart. rewrite verdict_heap_value.
  erewrite map_ext; [|intros i; apply verdict_heap_value].
  unfold verdict, match_pattern, init, has_match.
  cbn [pattern captures num_capture_groups].
  rewrite strip_anchors_start by assumption.
  assert (Hcount : count_capture_groups ("^"%char :: pat) = count_capture_groups pat)
    by now rewrite count_capture_groups_cons.
  rewrite Hcount.
  destruct (strip_anchors pat) as [[start_anchored end_anchored] inner] eqn:Hstrip.
  assert (start_anchored = false) as ->.
  { unfold strip_anchors in Hstrip. rewrite Hstart in Hstrip. now injection Hstrip as <- _ _. }
  cbn [fst snd rebind_new new_store value_store].
  set (c := replicate (count_capture_groups pat) None).
  destruct (try_offsets fuel end_anchored line inner (seq 0 (length line + 1)) c)
    as [r c'] eqn:Htry.
  cbn [fst].
  assert (Hr : r = (try_offsets fuel end_anchored line inner
                      (seq 0 (length line + 1)) c).1) by now rewrite Htry.
  rewrite Hr, try_offsets_first_decisive.
  - f_equal. apply map_ext. intros i.
    now destruct (attempt fuel end_anchored (drop i line) inner 0 c).
  - apply Forall_forall. intros i Hi. apply elem_of_seq in Hi. lia.
Qed.

Lemma unanchored_search_tries_every_suffix_witness :
  verdict heap 5 (chars "b+c$") (chars "abbc")
  = first_decisive
      (map (fun i => verdict heap 5 ("^"%char :: chars "b+c$") (drop i (chars "abbc")))
         (seq 0 (length (chars "abbc") + 1))).
Proof. apply unanchored_search_tries_every_suffix. reflexivity. Defined.

(** ** Raising the recursion limit *)

Lemma below_refl o : below o o.
Proof. induction o; constructor; auto. Qed.

Lemma below_for_each o1 o2 b1 b2 a1 a2 :
  below o1 o2 ->
  (forall v r1 r2 c, (forall c', below (r1 c') (r2 c')) -> below (b1 v r1 c) (b2 v r2 c)) ->
  (forall c, below (a1 c) (a2 c)) ->
  below (for_each o1 b1 a1) (for_each o2 b2 a2).
Proof.
  intros Ho Hb Ha. induction Ho as [c o2|c|v c k1 k2 _ IH|e c]; cbn [for_each].
  - constructor.
  - apply Ha.
  - apply Hb. exact IH.
  - constructor.
Qed.

Lemma below_tail o1 o2 n a1 a2 :
  below o1 o2 -> (forall c, below (a1 c) (a2 c)) ->
  below (for_each o1 (reyield n) a1) (for_each o2 (reyield n) a2).
Proof.
  intros Ho Ha. apply below_for_each; [assumption| |assumption].
  intros [rest_len rest_counter] r1 r2 c Hr. cbn. now constructor.
Qed.

Lemma below_counts (g1 g2 : nat -> gen caps) counts :
  (forall k c, below (g1 k c) (g2 k c)) ->
  forall c,
    below (for_list counts (fun k next st => for_each (g1 k st) (reyield k) next) Stop c)
          (for_list counts (fun k next st => for_each (g2 k st) (reyield k) next) Stop c).
Proof.
  intros Hg. induction counts as [|k counts IH]; intros c; cbn [for_list]; [constructor|].
  apply below_tail; auto.
Qed.

Section LocalGeneratorsBelow.
Variables rec1 rec2 : str -> str -> nat -> gen caps.
Variable alternatives : list str.
Variable this_group_num : nat.
Hypothesis rec_below : forall inp alt gc c, below (rec1 inp alt gc c) (rec2 inp alt gc c).

Lemma group_content_once_below inp gc c :
  below (match_group_content_once rec1 alternatives this_group_num inp gc c)
        (match_group_content_once rec2 alternatives this_group_num inp gc c).
Proof.
  unfold match_group_content_once. revert c.
  induction alternatives as [|alt alts IH]; intros c;
    cbn [for_list list_copy rebind value_store]; [constructor|].
  apply below_for_each; [apply rec_below| |intros; apply IH].
  intros [alt_len alt_counter] r1 r2 c1 Hr.
  destruct (setitem _ _ c1); now constructor.
Qed.

Lemma plus_group_below depth1 : forall depth2 inp gc c,
  depth1 <= depth2 ->
  below (match_plus_group rec1 alternatives this_group_num depth1 inp gc c)
        (match_plus_group rec2 alternatives this_group_num depth2 inp gc c).
Proof.
  induction depth1 as [|depth1 IH]; intros depth2 inp gc c Hle; [constructor|].
  destruct depth2 as [|depth2]; [lia|]. cbn [match_plus_group].
  apply below_for_each; [apply group_content_once_below| |constructor].
  intros [one_len one_counter] r1 r2 c1 Hr. cbn [list_copy rebind value_store].
  apply below_tail; [apply IH; lia|]. intros c2. now constructor.
Qed.
End LocalGeneratorsBelow.

Lemma match_inner_below fuel1 : forall fuel2 inp pat gc c,
  fuel1 <= fuel2 ->
  below (match_inner fuel1 inp pat gc c) (match_inner fuel2 inp pat gc c).
Proof.
  induction fuel1 as [|fuel1 IH]; intros fuel2 inp pat gc c Hle; [constructor|].
  destruct fuel2 as [|fuel2]; [lia|]. apply le_S_n in Hle.
  cbn [match_inner].
  destruct pat as [|p0 pat]; [apply below_refl|].
  destruct (parse_expression (p0 :: pat)) as [[[e expr_len] negated]|err]; [|constructor].
  set (quantifier := quantifier_at (p0 :: pat) expr_len).
  set (rest := rest_after (p0 :: pat) expr_len quantifier).
  assert (Hrec : forall inp' pat' gc' c',
             below (match_inner fuel1 inp' pat' gc' c') (match_inner fuel2 inp' pat' gc' c'))
    by (intros; now apply IH).
  assert (Hnext : forall n inp' gc' c' a1 a2,
             (forall c'', below (a1 c'') (a2 c'')) ->
             below (for_each (match_inner fuel1 inp' rest gc' c') (reyield n) a1)
                   (for_each (match_inner fuel2 inp' rest gc' c') (reyield n) a2))
    by (intros; now apply below_tail).
  assert (Hstop : forall c' : caps, below (Stop c') (Stop c')) by constructor.
  assert (Hgroup : forall o1 o2 a1 a2,
             below o1 o2 -> (forall c', below (a1 c') (a2 c')) ->
             below
               (for_each o1
                  (fun '(match_len, next_counter) resume st =>
                     for_each (match_inner fuel1 (drop match_len inp) rest next_counter st)
                       (reyield match_len) resume)
                  a1)
               (for_each o2
                  (fun '(match_len, next_counter) resume st =>
                     for_each (match_inner fuel2 (drop match_len inp) rest next_counter st)
                       (reyield match_len) resume)
                  a2)).
  { intros o1 o2 a1 a2 Ho Ha. apply below_for_each; [assumption| |assumption].
    intros [match_len next_counter] r1 r2 c1 Hr. now apply Hnext. }
  destruct e as [ref_num|kind|ch|class_str| |alternatives]; [ | | | | |cbv zeta].
  1: { cbn [table value_store].
       destruct (length c <? ref_num); [constructor|].
       destruct (getitem c (Z.of_nat ref_num - 1)) as [[captured_text|]|]; try constructor.
       destruct (startswith inp captured_text); [|constructor].
       now apply Hnext. }
  5: { destruct quantifier as [q|].
       - destruct (Ascii.eqb q "?"); [|destruct (Ascii.eqb q "+"); [|constructor]].
         + apply Hgroup; [now apply group_content_once_below|].
           intros c'. now apply Hnext.
         + apply Hgroup; [now apply plus_group_below|constructor].
       - apply Hgroup; [now apply group_content_once_below|constructor]. }
  all: destruct (get_match_fn _ negated) as [match_fn|]; [|constructor].
  all: set (first_matches := match inp with [] => false | c0 :: _ => match_fn c0 end).
  all: destruct quantifier as [q|];
    [|destruct first_matches; [now apply Hnext|constructor]].
  all: destruct (Ascii.eqb q "+");
    [destruct (negb first_matches); [constructor|];
     apply below_counts; intros; apply Hrec|].
  all: destruct (Ascii.eqb q "?");
    [|destruct (Ascii.eqb q "*"); [|constructor];
      apply below_counts; intros; apply Hrec].
  all: destruct first_matches; apply Hnext; intros c'; try apply Hnext; auto.
Qed.

Lemma any_length_below wanted o1 o2 :
  below o1 o2 ->
  (any_length wanted o1).1 <> Err RecursionError ->
  any_length wanted o2 = any_length wanted o1.
Proof.
  induction 1 as [c o2|c|v c k1 k2 _ IH|e c]; cbn [any_length]; try reflexivity.
  - intros H. now contradiction H.
  - destruct (wanted v.1); [reflexivity|apply IH].
Qed.

Lemma attempt_below fuel1 fuel2 end_anchored line inner i (c : caps) :
  fuel1 <= fuel2 ->
  (attempt fuel1 end_anchored line inner i c).1 <> Err RecursionError ->
  attempt fuel2 end_anchored line inner i c = attempt fuel1 end_anchored line inner i c.
Proof.
  intros Hle. unfold attempt.
  pose proof (match_inner_below fuel1 fuel2 (drop i line) inner 0 c Hle) as Hbelow.
  destruct end_anchored; [now apply any_length_below|].
  destruct Hbelow; cbn [next_exists]; try reflexivity.
  intros H. now contradiction H.
Qed.

Lemma try_offsets_below fuel1 fuel2 end_anchored line inner offsets :
  fuel1 <= fuel2 ->
  forall c : caps,
    (try_offsets fuel1 end_anchored line inner offsets c).1 <> Err RecursionError ->
    try_offsets fuel2 end_anchored line inner offsets c
    = try_offsets fuel1 end_anchored line inner offsets c.
Proof.
  intros Hle. induction offsets as [|i offsets IH]; intros c; [reflexivity|].
  cbn [try_offsets].
  pose proof (attempt_below fuel1 fuel2 end_anchored line inner i c Hle) as Hattempt.
  destruct (attempt fuel1 end_anchored line inner i c) as [[[|]|e] c'];
    cbn [fst] in *; intros Hfine.
  - now rewrite Hattempt.
  - rewrite Hattempt by discriminate. now apply IH.
  - now rewrite Hattempt.
Qed.

(** A verdict does not depend on the recursion limit under which it was
    obtained: whenever [match_pattern] ends otherwise than in a
    [RecursionError], it ends in the same way under every higher limit. *)
Theorem verdict_stable_under_higher_limit fuel1 fuel2 pat line :
  fuel1 <= fuel2 ->
  verdict heap fuel1 pat line <> Err RecursionError ->
  verdict heap fuel2 pat line = verdict heap fuel1 pat line.
Proof.
  intros Hle. rewrite !verdict_heap_value.
  unfold verdict, match_pattern, init, has_match.
  cbn [pattern captures num_capture_groups].
  destruct (strip_anchors pat) as [[start_anchored end_anchored] inner].
  cbn [rebind_new new_store value_store].
  set (c := replicate (count_capture_groups pat) None).
  destruct start_anchored.
  - pose proof (attempt_below fuel1 fuel2 end_anchored line inner 0 c Hle) as H.
    destruct (attempt fuel1 end_anchored line inner 0 c) as [r c'].
    cbn [fst] in *. intros Hfine. now rewrite H.
  - pose proof (try_offsets_below fuel1 fuel2 end_anchored line inner
                  (seq 0 (length line + 1)) Hle c) as H.
    destruct (try_offsets fuel1 end_anchored line inner _ c) as [r c'].
    cbn [fst] in *. intros Hfine. now rewrite H.
Qed.

Lemma verdict_stable_under_higher_limit_witness :
  verdict heap 50 (chars "(a|b)+c") (chars "abac")
  = verdict heap 9 (chars "(a|b)+c") (chars "abac").
Proof.
  apply verdict_stable_under_higher_limit; [lia|]. vm_compute. discriminate.
Defined.

(** ** Anchors only restrict *)

Lemma any_length_found wanted (o : outcome caps) :
  (any_length wanted o).1 = Ok true -> (next_exists o).1 = Ok true.
Proof. destruct o as [c|v c k|e c]; cbn; [discriminate|reflexivity|discriminate]. Qed.

Lemma any_length_not_found wanted (o : outcome caps) c' :
  any_length wanted o = (Ok false, c') ->
  (next_exists o).1 = Ok true \/ o = Stop c'.
Proof.
  destruct o as [c|v c k|e c]; cbn [any_length next_exists fst].
  - intros [= <-]. now right.
  - now left.
  - discriminate.
Qed.

Lemma try_offsets_without_end_anchor fuel line inner offsets : forall c : caps,
  (try_offsets fuel true line inner offsets c).1 = Ok true ->
  (try_offsets fuel false line inner offsets c).1 = Ok true.
Proof.
  induction offsets as [|i offsets IH]; intros c; [discriminate|].
  cbn [try_offsets].
  change (attempt fuel true line inner i c)
    with (any_length (fun l => i + l =? length line)
            (match_inner fuel (drop i line) inner 0 c)).
  change (attempt fuel false line inner i c)
    with (next_exists (match_inner fuel (drop i line) inner 0 c)).
  set (o := match_inner fuel (drop i line) inner 0 c).
  destruct (any_length _ o) as [[[|]|e] c'] eqn:Hany; cbn [fst].
  - intros _. pose proof (any_length_found (fun l => i + l =? length line) o) as H.
    rewrite Hany in H. specialize (H eq_refl).
    destruct (next_exists o) as [r c'']. cbn in H. now subst r.
  - intros Hlater.
    pose proof (any_length_restores _ c o c' (match_inner_restoring _ _ _ _ _) Hany).
    subst c'.
    destruct (any_length_not_found _ _ _ Hany) as [H|H].
    + destruct (next_exists o) as [r c'']. cbn in H. now subst r.
    + rewrite H. cbn [next_exists]. now apply IH.
  - discriminate.
Qed.

Lemma verdict_has_match fuel pat line :
  verdict caps fuel pat line
  = (has_match fuel (count_capture_groups pat) line pat (new_store [] : caps)).1.
Proof.
  unfold verdict, match_pattern, init. cbn [pattern captures num_capture_groups].
  now destruct (has_match _ _ _ _ _).
Qed.

(** Anchors only restrict: a line that matches a pattern between anchors
    matches the pattern without them. *)
Theorem anchors_only_restrict fuel p (start_anchored end_anchored : bool) line :
  startswith p ["^"%char] = false -> endswith_char p "$" = false ->
  verdict heap fuel
    ((if start_anchored then ["^"%char] else []) ++ p
     ++ (if end_anchored then ["$"%char] else [])) line = Ok true ->
  verdict heap fuel p line = Ok true.
Proof.
  intros Hhat Hdollar. rewrite !verdict_heap_value, !verdict_has_match.
  unfold has_match.
  pose proof (count_capture_groups_inner
                ((if start_anchored then ["^"%char] else []) ++ p
                 ++ (if end_anchored then ["$"%char] else []))) as Hcount.
  rewrite (strip_anchors_framed p start_anchored end_anchored Hhat Hdollar) in *.
  pose proof (strip_anchors_framed p false false Hhat Hdollar) as Hplain.
  cbn [app] in Hplain. rewrite app_nil_r in Hplain. rewrite Hplain.
  cbn [snd] in Hcount. rewrite <- Hcount.
  cbn [rebind_new new_store value_store].
  set (c := replicate (count_capture_groups p) None).
  assert (Hend : (try_offsets fuel end_anchored line p (seq 0 (length line + 1)) c).1
                 = Ok true ->
                 (try_offsets fuel false line p (seq 0 (length line + 1)) c).1 = Ok true).
  { destruct end_anchored; [apply try_offsets_without_end_anchor|auto]. }
  destruct start_anchored; [|exact Hend].
  intros H. rewrite Nat.add_1_r. cbn [seq try_offsets].
  destruct end_anchored.
  - change (attempt fuel true line p 0 c)
      with (any_length (fun l => 0 + l =? length line)
              (match_inner fuel (drop 0 line) p 0 c)) in H.
    apply any_length_found in H.
    change (attempt fuel false line p 0 c)
      with (next_exists (match_inner fuel (drop 0 line) p 0 c)).
    destruct (next_exists _) as [r c']. cbn in H. now subst r.
  - destruct (attempt fuel false line p 0 c) as [r c']. cbn in H. now subst r.
Qed.

Lemma anchors_only_restrict_witness :
  verdict heap 9 (chars "(a|b)c") (chars "bc") = Ok true.
Proof.
  apply (anchors_only_restrict 9 (chars "(a|b)c") true true (chars "bc")); reflexivity.
Defined.

(** ** [match_class] *)

Lemma match_class_from_members c class_str :
  forallb (fun x => negb (Ascii.eqb x "-")) class_str = true ->
  match_class_from c class_str = existsb (fun x => Ascii.eqb x c) class_str.
Proof.
  induction class_str as [|lo tl IH]; intros Hplain; [reflexivity|].
  cbn [forallb] in Hplain. apply andb_prop in Hplain as [_ Htl].
  cbn [match_class_from existsb]. rewrite <- (IH Htl).
  destruct tl as [|dash [|hi tl']].
  - now destruct (Ascii.eqb lo c).
  - now destruct (Ascii.eqb lo c).
  - cbn [forallb] in Htl. apply andb_prop in Htl as [Hdash _].
    apply negb_true_iff in Hdash. rewrite Hdash.
    now destruct (Ascii.eqb lo c).
Qed.

(** A class body without ["-"] is a set of characters: [match_class]
    accepts exactly the characters of the body, and exactly the others
    when the class is negated. *)
Theorem match_class_without_hyphen c class_str :
  forallb (fun x => negb (Ascii.eqb x "-")) class_str = true ->
  (match_class c class_str false = true <-> In c class_str)
  /\ (match_class c class_str true = true <-> ~ In c class_str).
Proof.
  intros Hplain. unfold match_class. rewrite (match_class_from_members c _ Hplain).
  assert (Hin : existsb (fun x => Ascii.eqb x c) class_str = true <-> In c class_str).
  { rewrite existsb_exists. split.
    - intros (x & Hx & Heq). apply Ascii.eqb_eq in Heq. now subst x.
    - intros Hc. exists c. split; [assumption|apply Ascii.eqb_refl]. }
  split; [exact Hin|].
  rewrite negb_true_iff, <- Hin. now destruct (existsb _ class_str).
Qed.

Lemma match_class_without_hyphen_witness :
  (match_class "b" (chars "abc") false = true <-> In "b"%char (chars "abc"))
  /\ (match_class "b" (chars "abc") true = true <-> ~ In "b"%char (chars "abc")).
Proof. apply match_class_without_hyphen. reflexivity. Defined.

(** ** [_count_capture_groups] *)

Lemma count_capture_groups_bounds pat :
  (count_capture_groups pat <= occurrences "(" pat
   /\ occurrences "(" pat <= count_capture_groups pat + occurrences "\" pat)
  /\ forall x,
       count_capture_groups (x :: pat) <= occurrences "(" (x :: pat)
       /\ occurrences "(" (x :: pat)
          <= count_capture_groups (x :: pat) + occurrences "\" (x :: pat).
Proof.
  induction pat as [|y pat [IH1 IH2]].
  - split; [cbn; lia|]. intros x. rewrite count_capture_groups_cons. cbn [occurrences].
    destruct (Ascii.eqb_spec x "\") as [->|_]; [cbn; lia|].
    destruct (Ascii.eqb x "("); cbn; lia.
  - split; [apply IH2|]. intros x. rewrite count_capture_groups_cons.
    specialize (IH2 y). cbn [occurrences] in *.
    destruct (Ascii.eqb_spec x "\") as [->|_].
    + cbn [Ascii.eqb Bool.eqb]. destruct (Ascii.eqb y "("), (Ascii.eqb y "\"); lia.
    + destruct (Ascii.eqb x "("); lia.
Qed.

(** [_count_capture_groups] counts the opening parentheses, except those
    it passes over after a backslash: at most all of them, and each
    backslash hides at most one. *)
Theorem count_capture_groups_counts_parentheses pat :
  count_capture_groups pat <= occurrences "(" pat
  /\ occurrences "(" pat <= count_capture_groups pat + occurrences "\" pat.
Proof. apply count_capture_groups_bounds. Qed.

(** ** A backreference before its group *)

Lemma attempt_forward_reference fuel end_anchored line k tail i n :
  1 <= k <= 9 ->
  attempt (S fuel) end_anchored line ("\"%char :: digit k :: tail) i (replicate n None)
  = (Ok false, replicate n (@None str)).
Proof.
  intros Hk. unfold attempt.
  assert (Hstop : match_inner (S fuel) (drop i line) ("\"%char :: digit k :: tail) 0
                    (replicate n (@None str))
                  = Stop (replicate n None)).
  { cbn [match_inner]. rewrite parse_backreference by lia.
    cbn [table value_store]. rewrite length_replicate.
    pose proof (getitem_slot (replicate n (@None str)) k ltac:(lia)) as Hslot.
    rewrite length_replicate in Hslot.
    destruct (Nat.ltb_spec n k) as [|Hge]; [reflexivity|].
    rewrite Hslot, lookup_replicate_2 by lia. reflexivity. }
  rewrite Hstop. now destruct end_anchored.
Qed.

(** A pattern that begins (after [^], if any) with a backreference [\1]
    to [\9] matches no line: no group has captured anything when the
    reference is read, and the matcher gives up without an error. *)
Theorem leading_backreference_never_matches fuel pat line k tail :
  1 <= k <= 9 -> 1 <= fuel ->
  (strip_anchors pat).2 = "\"%char :: digit k :: tail ->
  verdict heap fuel pat line = Ok false.
Proof.
  intros Hk Hfuel Hinner. rewrite verdict_heap_value, verdict_has_match.
  destruct fuel as [|fuel]; [lia|].
  unfold has_match.
  destruct (strip_anchors pat) as [[start_anchored end_anchored] inner].
  cbn [snd] in Hinner. subst inner. cbn [rebind_new new_store value_store].
  destruct start_anchored; [now rewrite attempt_forward_reference|].
  generalize (seq 0 (length line + 1)). intros offsets.
  induction offsets as [|i offsets IH]; [reflexivity|].
  cbn [try_offsets]. now rewrite attempt_forward_reference.
Qed.

Lemma leading_backreference_never_matches_witness :
  verdict heap 5 (chars "^\1(a)") (chars "aa") = Ok false.
Proof.
  apply (leading_backreference_never_matches 5 (chars "^\1(a)") (chars "aa") 1 (chars "(a)"));
    (lia || reflexivity).
Defined.
